(** * ActionsDAG: a shallow embedding of src/Interpreters/ActionsDAG.cpp

    The expression-action DAG of the query engine: a store of nodes with
    stable addresses, an ordered index of exposed columns, a list of inputs,
    and the operations that build, prune, convert, merge and split it. *)

From stdpp Require Import gmap strings list fin_maps.


(** ** Error codes (namespace ErrorCodes of the source) *)

Inductive ErrorCode :=
  | LOGICAL_ERROR
  | DUPLICATE_COLUMN
  | UNKNOWN_IDENTIFIER
  | TYPE_MISMATCH
  | NUMBER_OF_COLUMNS_DOESNT_MATCH
  | THERE_IS_NO_COLUMN
  | ILLEGAL_COLUMN.

(** The outcome of a call that may throw. *)
Inductive Res (A : Type) :=
  | Ok (a : A)
  | Throw (e : ErrorCode).
Arguments Ok {A} a.
Arguments Throw {A} e.

Inductive ActionType := INPUT | COLUMN | ALIAS | ARRAY_JOIN | FUNCTION.

Global Instance ActionType_eq_dec : EqDecision ActionType.
Proof. solve_decision. Defined.

(** A [Node *] is an address; [nullptr] is address 0 and no node lives there. *)
Abbreviation Addr := nat (only parsing).
Definition nullptr : Addr := 0.

(** ** The execution runtime

    Modelled from the spec: the column, data type and function classes
    (IColumn, IDataType, IFunctionBase, ...) are declared outside the source
    file; the interface below is the Execution Runtime contract of the
    specification, with the member names the source calls. *)
Class Runtime := {
  DataType : Type;
  Column : Type;
  Field : Type;
  (* IDataType::equals, IDataType::getName *)
  equals : DataType -> DataType -> bool;
  getTypeName : DataType -> string;
  (* DataTypeString, and DataTypeString().createColumnConst(size, value) *)
  DataTypeString : DataType;
  createColumnConst : nat -> string -> Column;
  (* isColumnConst(column), which is also what typeid_cast<const ColumnConst *> tests *)
  isColumnConst : Column -> bool;
  (* IColumn::size, IColumn::cloneResized, ColumnConst::getField *)
  size_of : Column -> nat;
  cloneResized : Column -> nat -> Column;
  getField : Column -> Field;
  Field_eqb : Field -> Field -> bool;
  (* IColumn::getName *)
  getColumnName : Column -> string;
}.

Section Model.
Context `{RT : Runtime}.

(** ColumnWithTypeAndName; a null [column] pointer is [None]. *)
Record ColumnWithTypeAndName := mkColumn {
  c_column : option Column;
  c_type : DataType;
  c_name : string;
}.

Abbreviation ColumnsWithTypeAndName := (list ColumnWithTypeAndName) (only parsing).

Record ExecutableFunction := {
  execute : list ColumnWithTypeAndName -> DataType -> nat -> bool -> Column;
}.

Record FunctionBase := {
  fb_getName : string;
  getResultType : DataType;
  prepare : list ColumnWithTypeAndName -> ExecutableFunction;
  isSuitableForConstantFolding : bool;
  isDeterministic : bool;
  isStateful : bool;
  getResultIfAlwaysReturnsConstantAndHasArguments :
    list ColumnWithTypeAndName -> option Column;
}.

Record FunctionOverloadResolver := {
  getName : string;
  build : list ColumnWithTypeAndName -> FunctionBase;
}.

(** ActionsDAG::Node. *)
Record Node := mkNode {
  children : list Addr;
  type : ActionType;
  result_name : string;
  result_type : DataType;
  function_builder : option FunctionOverloadResolver;
  function_base : option FunctionBase;
  function : option ExecutableFunction;
  column : option Column;
  allow_constant_folding : bool;
}.

(** [Node node;] of the source: every member at its default, the name and
    the type filled in by each caller. *)
Definition new_Node (ty : ActionType) (name : string) (rt : DataType) : Node :=
  {| children := []; type := ty; result_name := name; result_type := rt;
     function_builder := None; function_base := None; function := None;
     column := None; allow_constant_folding := true |}.

Definition set_children (n : Node) (cs : list Addr) : Node :=
  {| children := cs; type := type n; result_name := result_name n;
     result_type := result_type n; function_builder := function_builder n;
     function_base := function_base n; function := function n;
     column := column n; allow_constant_folding := allow_constant_folding n |}.

Definition set_type (n : Node) (ty : ActionType) : Node :=
  {| children := children n; type := ty; result_name := result_name n;
     result_type := result_type n; function_builder := function_builder n;
     function_base := function_base n; function := function n;
     column := column n; allow_constant_folding := allow_constant_folding n |}.

Definition set_column (n : Node) (c : option Column) : Node :=
  {| children := children n; type := type n; result_name := result_name n;
     result_type := result_type n; function_builder := function_builder n;
     function_base := function_base n; function := function n;
     column := c; allow_constant_folding := allow_constant_folding n |}.

Definition set_allow_constant_folding (n : Node) (b : bool) : Node :=
  {| children := children n; type := type n; result_name := result_name n;
     result_type := result_type n; function_builder := function_builder n;
     function_base := function_base n; function := function n;
     column := column n; allow_constant_folding := b |}.

(** A non-null column pointer whose column is a ColumnConst. *)
Definition is_const (c : option Column) : bool :=
  match c with Some col => isColumnConst col | None => false end.

(** ** The node store: std::list<Node>

    The list keeps every node with the address it lives at; pushes and
    removals never move the other nodes. *)
Abbreviation Nodes := (list (Addr * Node)) (only parsing).

Fixpoint deref (ns : Nodes) (a : Addr) : option Node :=
  match ns with
  | [] => None
  | (b, n) :: ns' => if decide (a = b) then Some n else deref ns' a
  end.

(** In-place mutation of the node at [a]. *)
Fixpoint update (ns : Nodes) (a : Addr) (f : Node -> Node) : Nodes :=
  match ns with
  | [] => []
  | (b, n) :: ns' =>
      if decide (a = b) then (b, f n) :: ns' else (b, n) :: update ns' a f
  end.

(** The address [emplace_back] places a new node at: one that no node of
    the store occupies (and never [nullptr]). *)
Definition fresh_addr (ns : Nodes) : Addr := S (foldr max 0 (ns.*1)).

Definition name_of (ns : Nodes) (a : Addr) : option string :=
  result_name <$> deref ns a.

Definition has_name (ns : Nodes) (name : string) (a : Addr) : bool :=
  bool_decide (name_of ns a = Some name).

(** ** ActionsDAG::Index

    Modelled from the spec: class Index is declared in ActionsDAG.h, which is
    not part of the source at hand.  Following sections 3.3 and 4.2 of the
    specification it is an ordered multi-map, kept here as the list of its
    entries in iteration order; [find] returns the first entry of a name,
    [replace] removes the entries of the same name and then inserts. *)
Abbreviation Index := (list Addr) (only parsing).

Definition Index_find (ns : Nodes) (idx : Index) (name : string) : option Addr :=
  snd <$> list_find (fun a => has_name ns name a = true) idx.

Definition Index_contains (ns : Nodes) (idx : Index) (name : string) : bool :=
  bool_decide (is_Some (Index_find ns idx name)).

Definition Index_insert (idx : Index) (a : Addr) : Index := idx ++ [a].

Definition Index_prepend (idx : Index) (a : Addr) : Index := a :: idx.

Definition Index_replace (ns : Nodes) (idx : Index) (a : Addr) : Index :=
  match name_of ns a with
  | Some name => filter (fun b => has_name ns name b = false) idx ++ [a]
  | None => idx ++ [a]
  end.

(** ** ActionsDAG *)
Record ActionsSettings := {
  project_input : bool;
  projected_output : bool;
  max_temporary_columns : nat;
  max_temporary_non_const_columns : nat;
  compile_expressions : bool;
  min_count_to_compile_expression : nat;
}.

Definition default_settings : ActionsSettings :=
  {| project_input := false; projected_output := false;
     max_temporary_columns := 0; max_temporary_non_const_columns := 0;
     compile_expressions := false; min_count_to_compile_expression := 0 |}.

Record ActionsDAG := mkDAG {
  nodes : Nodes;
  index : Index;
  inputs : list Addr;
  settings : ActionsSettings;
}.

Definition empty_DAG : ActionsDAG :=
  {| nodes := []; index := []; inputs := []; settings := default_settings |}.

(** Member functions mutate the DAG and may throw: a state monad over the
    DAG whose result is a value or the error thrown; the state returned with
    a [Throw] is the DAG as the exception left it. *)
Definition M (A : Type) : Type := ActionsDAG -> Res A * ActionsDAG.

Definition ret {A} (a : A) : M A := fun d => (Ok a, d).
Definition throw {A} (e : ErrorCode) : M A := fun d => (Throw e, d).
Definition bind {A B} (m : M A) (k : A -> M B) : M B := fun d =>
  match m d with
  | (Ok a, d') => k a d'
  | (Throw e, d') => (Throw e, d')
  end.

Notation "'let*' x ':=' m 'in' k" := (bind m (fun x => k))
  (at level 10, x name, m at level 100, k at level 200, only parsing).

(** ActionsDAG::addNode *)
Definition addNode (node : Node) (can_replace : bool) : M Addr := fun d =>
  let it := Index_find (nodes d) (index d) (result_name node) in
  if bool_decide (is_Some it) && negb can_replace then
    (Throw DUPLICATE_COLUMN, d)
  else
    let res := fresh_addr (nodes d) in
    let nodes' := nodes d ++ [(res, node)] in
    let inputs' :=
      if decide (type node = INPUT) then inputs d ++ [res] else inputs d in
    (Ok res,
     {| nodes := nodes'; index := Index_replace nodes' (index d) res;
        inputs := inputs'; settings := settings d |}).

(** ActionsDAG::getNode *)
Definition getNode (name : string) : M Addr := fun d =>
  match Index_find (nodes d) (index d) name with
  | Some a => (Ok a, d)
  | None => (Throw UNKNOWN_IDENTIFIER, d)
  end.

(** Reading through a [Node &] or [Node *].  Dereferencing an address at
    which the store holds no node is undefined in the source; the monadic
    model stops there with LOGICAL_ERROR. *)
Definition node_at (a : Addr) : M Node := fun d =>
  match deref (nodes d) a with
  | Some n => (Ok n, d)
  | None => (Throw LOGICAL_ERROR, d)
  end.

(** ActionsDAG::addInput(std::string name, DataTypePtr type, bool can_replace) *)
Definition addInput (name : string) (ty : DataType) (can_replace : bool) : M Addr :=
  addNode (new_Node INPUT name ty) can_replace.

(** ActionsDAG::addInput(ColumnWithTypeAndName column, bool can_replace) *)
Definition addInput_column (col : ColumnWithTypeAndName) (can_replace : bool) : M Addr :=
  addNode (set_column (new_Node INPUT (c_name col) (c_type col)) (c_column col))
    can_replace.

(** ActionsDAG::addColumn *)
Definition addColumn (col : ColumnWithTypeAndName) (can_replace : bool) : M Addr :=
  match c_column col with
  | None => throw LOGICAL_ERROR
  | Some _ =>
      addNode (set_column (new_Node COLUMN (c_name col) (c_type col)) (c_column col))
        can_replace
  end.

(** ActionsDAG::addAlias(Node & child, std::string alias, bool can_replace) *)
Definition addAlias_node (child : Addr) (alias : string) (can_replace : bool) : M Addr :=
  let* c := node_at child in
  addNode
    {| children := [child]; type := ALIAS; result_name := alias;
       result_type := result_type c; function_builder := None;
       function_base := None; function := None; column := column c;
       allow_constant_folding := allow_constant_folding c |}
    can_replace.

(** ActionsDAG::addAlias(const std::string & name, std::string alias, bool can_replace) *)
Definition addAlias (name alias : string) (can_replace : bool) : M Addr :=
  let* child := getNode name in
  addAlias_node child alias can_replace.

(** The argument descriptor addFunction builds from a child. *)
Definition argument_of (child : Node) : ColumnWithTypeAndName :=
  {| c_column := column child; c_type := result_type child;
     c_name := result_name child |}.

(** [all_const] at the end of the loop over the children. *)
Definition all_const (arguments : list ColumnWithTypeAndName) : bool :=
  forallb (fun argument => is_const (c_column argument)) arguments.

(** [arguments.empty() ? 0 : arguments.front().column->size()] *)
Definition num_rows_of (arguments : list ColumnWithTypeAndName) : nat :=
  match arguments with
  | [] => 0
  | argument :: _ =>
      match c_column argument with Some c => size_of c | None => 0 end
  end.

(** The first block of addFunction after [prepare]: execute the function
    when all arguments are constants and it is suitable, and keep the
    result only when it is a constant, resized to one row when empty. *)
Definition execute_on_constants (compile : bool) (fb : FunctionBase)
    (fn : ExecutableFunction) (arguments : list ColumnWithTypeAndName)
    (rt : DataType) : option Column :=
  if all_const arguments && isSuitableForConstantFolding fb
     && (negb compile || isDeterministic fb) then
    let num_rows := num_rows_of arguments in
    let col := execute fn arguments rt num_rows true in
    if isColumnConst col then
      Some (if bool_decide (size_of col = 0) then cloneResized col 1 else col)
    else None
  else None.

(** The default result name: the function name and the children's names. *)
Fixpoint join_names (names : list string) : string :=
  match names with
  | [] => ""%string
  | [n] => n
  | n :: rest => (n +:+ ", " +:+ join_names rest)%string
  end.

Definition default_result_name (fname : string) (names : list string) : string :=
  (fname +:+ "(" +:+ join_names names +:+ ")")%string.

(** The node addFunction builds, before it is handed to addNode. *)
Definition function_node (compile : bool) (func : FunctionOverloadResolver)
    (child_addrs : list Addr) (child_nodes : list Node) (name : string) : Node :=
  let arguments := argument_of <$> child_nodes in
  let acf := forallb allow_constant_folding child_nodes in
  let fb := build func arguments in
  let rt := getResultType fb in
  let fn := prepare fb arguments in
  let col1 := execute_on_constants compile fb fn arguments rt in
  let always :=
    match col1 with
    | Some _ => None
    | None =>
        if isSuitableForConstantFolding fb then
          getResultIfAlwaysReturnsConstantAndHasArguments fb arguments
        else None
    end in
  let col2 := match always with Some col => Some col | None => col1 end in
  let acf2 := match always with Some _ => false | None => acf end in
  let name' :=
    if bool_decide (name = ""%string) then
      default_result_name (getName func) (result_name <$> child_nodes)
    else name in
  {| children := child_addrs; type := FUNCTION; result_name := name';
     result_type := rt; function_builder := Some func;
     function_base := Some fb; function := Some fn; column := col2;
     allow_constant_folding := acf2 |}.

(** ActionsDAG::addFunction(function, Inputs children, result_name, can_replace) *)
Definition addFunction (func : FunctionOverloadResolver) (child_addrs : list Addr)
    (name : string) (can_replace : bool) : M Addr := fun d =>
  match mapM (deref (nodes d)) child_addrs with
  | None => (Throw LOGICAL_ERROR, d)
  | Some child_nodes =>
      addNode
        (function_node (compile_expressions (settings d)) func child_addrs
           child_nodes name)
        can_replace d
  end.

(** ** Pruning: ActionsDAG::removeUnusedActions *)

(** The condition of the in-place constant folding. *)
Definition foldable (n : Node) : bool :=
  negb (bool_decide (children n = [])) && is_const (column n)
  && allow_constant_folding n.

(** [node->type = COLUMN; node->children.clear();] *)
Definition fold_node (n : Node) : Node := set_children (set_type n COLUMN) [].

Record PruneState := mkPrune {
  p_nodes : Nodes;
  visited_nodes : gset nat;
  stack : list Addr;
}.

Definition push_visit (st : gset nat * list Addr) (node : Addr) : gset nat * list Addr :=
  ({[node]} ∪ st.1, node :: st.2).

Definition push_unvisited (st : gset nat * list Addr) (node : Addr) : gset nat * list Addr :=
  if decide (node ∈ st.1) then st else push_visit st node.

(** The two seeding loops: every node of the index, then every ARRAY_JOIN
    node of the store that is not visited yet. *)
Definition prune_seed_index (idx : Index) : gset nat * list Addr :=
  foldl push_visit (∅, []) idx.

Definition prune_seed_array_join (ns : Nodes) (st : gset nat * list Addr)
    : gset nat * list Addr :=
  foldl (fun st p => if decide (type p.2 = ARRAY_JOIN) then push_unvisited st p.1 else st)
    st ns.

(** One turn of the [while (!stack.empty())] loop.  A popped address at
    which the store holds no node (undefined in the source) is dropped. *)
Definition prune_step (st : PruneState) : PruneState :=
  match stack st with
  | [] => st
  | node :: rest =>
      match deref (p_nodes st) node with
      | None => mkPrune (p_nodes st) (visited_nodes st) rest
      | Some n =>
          let ns' := if foldable n then update (p_nodes st) node fold_node else p_nodes st in
          let cs := if foldable n then [] else children n in
          let vs := foldl push_unvisited (visited_nodes st, rest) cs in
          mkPrune ns' vs.1 vs.2
      end
  end.

Fixpoint prune_loop (fuel : nat) (st : PruneState) : PruneState :=
  match fuel with
  | 0 => st
  | S fuel' =>
      match stack st with
      | [] => st
      | _ => prune_loop fuel' (prune_step st)
      end
  end.

(** Every turn pops one address and pushes only addresses that were not
    visited and are children of a node of the store, so the loop makes at
    most this many turns. *)
Definition prune_fuel (ns : Nodes) (stack0 : list Addr) : nat :=
  length stack0 + length (concat ((fun p => children p.2) <$> ns)).

(** ActionsDAG::removeUnusedActions() *)
Definition prune_run (d : ActionsDAG) : PruneState :=
  let seed := prune_seed_array_join (nodes d) (prune_seed_index (index d)) in
  prune_loop (prune_fuel (nodes d) seed.2) (mkPrune (nodes d) seed.1 seed.2).

Definition removeUnusedActions_dag (d : ActionsDAG) : ActionsDAG :=
  let st := prune_run d in
  {| nodes := filter (fun p => p.1 ∈ visited_nodes st) (p_nodes st);
     index := index d;
     inputs := filter (fun a => a ∈ visited_nodes st) (inputs d);
     settings := settings d |}.

Definition removeUnusedActions : M unit := fun d => (Ok tt, removeUnusedActions_dag d).

(** ActionsDAG::removeUnusedActions(const std::vector<Node *> & required_nodes) *)
Definition removeUnusedActions_nodes (required_nodes : list Addr) : M unit := fun d =>
  let new_index := foldl Index_insert [] required_nodes in
  removeUnusedActions
    {| nodes := nodes d; index := new_index; inputs := inputs d;
       settings := settings d |}.

(** The loop of removeUnusedActions(const Names & required_names). *)
Fixpoint resolve_required (ns : Nodes) (idx : Index) (required_names : list string)
    (nodes_set : gset nat) (required_nodes : list Addr) : Res (list Addr) :=
  match required_names with
  | [] => Ok required_nodes
  | name :: rest =>
      match Index_find ns idx name with
      | None => Throw UNKNOWN_IDENTIFIER
      | Some it =>
          if decide (it ∈ nodes_set) then
            resolve_required ns idx rest nodes_set required_nodes
          else
            resolve_required ns idx rest ({[it]} ∪ nodes_set) (required_nodes ++ [it])
      end
  end.

(** ActionsDAG::removeUnusedActions(const Names & required_names) *)
Definition removeUnusedActions_names (required_names : list string) : M unit := fun d =>
  match resolve_required (nodes d) (index d) required_names ∅ [] with
  | Throw e => (Throw e, d)
  | Ok required_nodes => removeUnusedActions_nodes required_nodes d
  end.

(** ActionsDAG::tryRestoreColumn *)
Definition tryRestoreColumn (column_name : string) : M bool := fun d =>
  if Index_contains (nodes d) (index d) column_name then (Ok true, d)
  else
    match list_find (fun p => result_name p.2 = column_name) (reverse (nodes d)) with
    | Some (_, (a, _)) =>
        (Ok true,
         {| nodes := nodes d; index := Index_replace (nodes d) (index d) a;
            inputs := inputs d; settings := settings d |})
    | None => (Ok false, d)
    end.

(** ActionsDAG::getResultColumns, getRequiredColumns, getNames.  An entry
    whose node is not in the store contributes nothing. *)
Definition getResultColumns (d : ActionsDAG) : list ColumnWithTypeAndName :=
  omap (fun a => argument_of <$> deref (nodes d) a) (index d).

Definition getRequiredColumns (d : ActionsDAG) : list (string * DataType) :=
  omap (fun a => (fun n => (result_name n, result_type n)) <$> deref (nodes d) a)
    (inputs d).

Definition getNamesAndTypesList (d : ActionsDAG) : list (string * DataType) :=
  omap (fun a => (fun n => (result_name n, result_type n)) <$> deref (nodes d) a)
    (index d).

Definition getNames (d : ActionsDAG) : list string :=
  omap (name_of (nodes d)) (index d).

(** ** ActionsDAG::dumpDAG

    The text is kept as its lines, one for each node in the order of the
    store, and the numbers of the closing line that starts with Index.  A
    node of the model always has a result type. *)
Record DumpLine := mkDumpLine {
  dl_number : nat;
  dl_type : ActionType;
  dl_children : list nat;
  dl_column : string;
  dl_result_type : string;
  dl_result_name : string;
  dl_function : option string;
}.

(** The first loop: [idx = map.size(); map[&node] = idx]. *)
Definition dump_numbers (ns : Nodes) : gmap nat nat :=
  foldl (fun map p => <[p.1 := size map]> map) ∅ ns.

(** [map[node]], which gives 0 for a node that was not numbered. *)
Definition number_of (map : gmap nat nat) (a : Addr) : nat := default 0 (map !! a).

Definition dump_line (map : gmap nat nat) (p : Addr * Node) : DumpLine :=
  {| dl_number := number_of map p.1;
     dl_type := type p.2;
     dl_children := number_of map <$> children p.2;
     dl_column :=
       match column p.2 with
       | Some c => getColumnName c
       | None => "(no column)"%string
       end;
     dl_result_type := getTypeName (result_type p.2);
     dl_result_name :=
       if decide (result_name p.2 = EmptyString) then "(no name)"%string
       else result_name p.2;
     dl_function := fb_getName <$> function_base p.2 |}.

Definition dumpDAG (d : ActionsDAG) : list DumpLine * list nat :=
  let map := dump_numbers (nodes d) in
  (dump_line map <$> nodes d, number_of map <$> index d).

(** Modelled from the spec: projectInput and cloneEmpty are defined in
    ActionsDAG.h.  projectInput sets settings.project_input (section 4.5);
    cloneEmpty gives a DAG without nodes that keeps the settings (section
    4.8.1 reads first.settings after a split). *)
Definition set_project_input (st : ActionsSettings) (b : bool) : ActionsSettings :=
  {| project_input := b; projected_output := projected_output st;
     max_temporary_columns := max_temporary_columns st;
     max_temporary_non_const_columns := max_temporary_non_const_columns st;
     compile_expressions := compile_expressions st;
     min_count_to_compile_expression := min_count_to_compile_expression st |}.

Definition projectInput : M unit := fun d =>
  (Ok tt,
   {| nodes := nodes d; index := index d; inputs := inputs d;
      settings := set_project_input (settings d) true |}).

Definition cloneEmpty (d : ActionsDAG) : ActionsDAG :=
  {| nodes := []; index := []; inputs := []; settings := settings d |}.

(** ** Converting actions: ActionsDAG::makeConvertingActions *)

Inductive MatchColumnsMode := Position | Name.

Global Instance MatchColumnsMode_eq_dec : EqDecision MatchColumnsMode.
Proof. solve_decision. Defined.

(** ActionsDAG::ActionsDAG(const ColumnsWithTypeAndName & inputs_) *)
Fixpoint construct_inputs (inputs_ : list ColumnWithTypeAndName) : M unit :=
  match inputs_ with
  | [] => ret tt
  | input :: rest =>
      let* _ :=
        (if is_const (c_column input) then addInput_column input true
         else addInput (c_name input) (c_type input) true) in
      construct_inputs rest
  end.

(** The resolvers the source builds from the runtime: the materialize
    function, and the non-accurate CAST with its diagnostic
    (source name, result name). *)
Variable func_builder_materialize : FunctionOverloadResolver.
Variable CastOverloadResolver_createImpl : string * string -> FunctionOverloadResolver.

(** [inputs[actions_dag->inputs[pos]->result_name].push_back(pos)] for every
    position, starting at [pos]. *)
Fixpoint build_inputs_map (ns : Nodes) (dag_inputs : list Addr) (pos : nat)
    (m : gmap string (list nat)) : gmap string (list nat) :=
  match dag_inputs with
  | [] => m
  | a :: rest =>
      let name := default ""%string (name_of ns a) in
      build_inputs_map ns rest (S pos) (<[name := default [] (m !! name) ++ [pos]]> m)
  end.

(** The [switch (mode)] that chooses [src_node].  Indexing the vector of
    inputs out of range is undefined in the source; the model stops with
    LOGICAL_ERROR there. *)
Definition select_source (mode : MatchColumnsMode) (res_elem : ColumnWithTypeAndName)
    (result_col_num : nat) (inputs_map : gmap string (list nat))
    : M (Addr * gmap string (list nat)) := fun d =>
  match mode with
  | Position =>
      match inputs d !! result_col_num with
      | Some src_node => (Ok (src_node, inputs_map), d)
      | None => (Throw LOGICAL_ERROR, d)
      end
  | Name =>
      match default [] (inputs_map !! c_name res_elem) with
      | [] => (Throw THERE_IS_NO_COLUMN, d)
      | front :: rest =>
          match inputs d !! front with
          | Some src_node => (Ok (src_node, <[c_name res_elem := rest]> inputs_map), d)
          | None => (Throw LOGICAL_ERROR, d)
          end
      end
  end.

(** The block "Check constants." *)
Definition check_constants (res_elem : ColumnWithTypeAndName) (src_node : Addr)
    (ignore_constant_values : bool) : M Addr :=
  match c_column res_elem with
  | Some res_const =>
      if isColumnConst res_const then
        let* src := node_at src_node in
        match column src with
        | Some src_const =>
            if isColumnConst src_const then
              if ignore_constant_values then addColumn res_elem true
              else if negb (Field_eqb (getField res_const) (getField src_const))
                   then throw ILLEGAL_COLUMN
                   else ret src_node
            else throw ILLEGAL_COLUMN
        | None => throw ILLEGAL_COLUMN
        end
      else ret src_node
  | None => ret src_node
  end.

(** The block "Add CAST function to convert into result type if needed." *)
Definition add_cast (res_elem : ColumnWithTypeAndName) (src_node : Addr) : M Addr :=
  let* src := node_at src_node in
  if negb (equals (c_type res_elem) (result_type src)) then
    let name := getTypeName (c_type res_elem) in
    let col := {| c_column := Some (createColumnConst 0 name);
                  c_type := DataTypeString; c_name := name |} in
    let* right_arg := addColumn col true in
    let left_arg := src_node in
    let func_builder_cast :=
      CastOverloadResolver_createImpl (result_name src, c_name res_elem) in
    addFunction func_builder_cast [left_arg; right_arg] ""%string true
  else ret src_node.

(** Materialize a constant source when the result is not constant. *)
Definition add_materialize (res_elem : ColumnWithTypeAndName) (src_node : Addr) : M Addr :=
  let* src := node_at src_node in
  if is_const (column src) && negb (is_const (c_column res_elem)) then
    addFunction func_builder_materialize [src_node] ""%string true
  else ret src_node.

(** Rename with an ALIAS when the names differ. *)
Definition add_rename (res_elem : ColumnWithTypeAndName) (src_node : Addr) : M Addr :=
  let* src := node_at src_node in
  if bool_decide (result_name src ≠ c_name res_elem) then
    addAlias_node src_node (c_name res_elem) true
  else ret src_node.

(** The loop over the result columns; it returns [projection]. *)
Fixpoint convert_columns (mode : MatchColumnsMode) (ignore_constant_values : bool)
    (result : list ColumnWithTypeAndName) (result_col_num : nat)
    (inputs_map : gmap string (list nat)) : M (list Addr) :=
  match result with
  | [] => ret []
  | res_elem :: rest =>
      let* sel := select_source mode res_elem result_col_num inputs_map in
      let* src1 := check_constants res_elem sel.1 ignore_constant_values in
      let* src2 := add_cast res_elem src1 in
      let* src3 := add_materialize res_elem src2 in
      let* src4 := add_rename res_elem src3 in
      let* projection :=
        convert_columns mode ignore_constant_values rest (S result_col_num) sel.2 in
      ret (src4 :: projection)
  end.

Definition initial_inputs_map (mode : MatchColumnsMode) (d : ActionsDAG)
    : gmap string (list nat) :=
  match mode with
  | Name => build_inputs_map (nodes d) (inputs d) 0 ∅
  | Position => ∅
  end.

Definition makeConvertingActions (source result : list ColumnWithTypeAndName)
    (mode : MatchColumnsMode) (ignore_constant_values : bool) : Res ActionsDAG :=
  if bool_decide (mode = Position) && bool_decide (length source ≠ length result) then
    Throw NUMBER_OF_COLUMNS_DOESNT_MATCH
  else
    let actions_dag := (construct_inputs source empty_DAG).2 in
    let body :=
      let* projection :=
        convert_columns mode ignore_constant_values result 0
          (initial_inputs_map mode actions_dag) in
      let* _ := removeUnusedActions_nodes projection in
      projectInput in
    match body actions_dag with
    | (Ok _, d) => Ok d
    | (Throw e, _) => Throw e
    end.

(** ** ActionsDAG::merge *)

(** [first_result[node->result_name].push_back(node)] over the index of
    [first]. *)
Definition build_first_result (first_nodes : Nodes) (first_index : Index)
    : gmap string (list Addr) :=
  foldl
    (fun m node =>
       let name := default ""%string (name_of first_nodes node) in
       <[name := default [] (m !! name) ++ [node]]> m)
    ∅ first_index.

Record MergeInputs := mkMergeInputs {
  first_result : gmap string (list Addr);
  first_inputs : list Addr;
  inputs_map : gmap nat nat;
  removed_first_result : gmap nat nat;
}.

(** The loop over [second.inputs] of the block "Update inputs list". *)
Fixpoint merge_inputs (first_project_input : bool) (second_nodes : Nodes)
    (second_inputs : list Addr) (st : MergeInputs) : Res MergeInputs :=
  match second_inputs with
  | [] => Ok st
  | node :: rest =>
      let name := default ""%string (name_of second_nodes node) in
      match default [] (first_result st !! name) with
      | [] =>
          if first_project_input then Throw LOGICAL_ERROR
          else
            merge_inputs first_project_input second_nodes rest
              (mkMergeInputs (first_result st) (first_inputs st ++ [node])
                 (inputs_map st) (removed_first_result st))
      | front :: queue =>
          merge_inputs first_project_input second_nodes rest
            (mkMergeInputs (<[name := queue]> (first_result st)) (first_inputs st)
               (<[node := front]> (inputs_map st))
               (<[front := S (default 0 (removed_first_result st !! front))]>
                  (removed_first_result st)))
      end
  end.

(** An INPUT of [second] that was mapped is replaced by the node of [first]. *)
Definition replace_input (second_nodes : Nodes) (im : gmap nat nat) (child : Addr) : Addr :=
  match deref second_nodes child with
  | Some n =>
      if decide (type n = INPUT) then default child (im !! child) else child
  | None => child
  end.

(** The loop "Remove `second` inputs from index." *)
Fixpoint remove_second_inputs (idx : Index) (removed : gmap nat nat) : Index :=
  match idx with
  | [] => []
  | cur :: rest =>
      match removed !! cur with
      | Some (S k) => remove_second_inputs rest (<[cur := k]> removed)
      | _ => cur :: remove_second_inputs rest removed
      end
  end.

Definition merge_settings (first second : ActionsSettings) (project : bool)
    : ActionsSettings :=
  {| project_input := project;
     projected_output := projected_output second;
     max_temporary_columns :=
       max_temporary_columns first `max` max_temporary_columns second;
     max_temporary_non_const_columns :=
       max_temporary_non_const_columns first `max` max_temporary_non_const_columns second;
     compile_expressions := compile_expressions first;
     min_count_to_compile_expression :=
       min_count_to_compile_expression first `max` min_count_to_compile_expression second |}.

(** merge up to, and without, the final removeUnusedActions. *)
Definition merge_before_prune (first second : ActionsDAG) : Res ActionsDAG :=
  match merge_inputs (project_input (settings first)) (nodes second) (inputs second)
          (mkMergeInputs (build_first_result (nodes first) (index first))
             (inputs first) ∅ ∅) with
  | Throw e => Throw e
  | Ok mi =>
      let second_nodes :=
        (fun p => (p.1, set_children p.2
                          (replace_input (nodes second) (inputs_map mi) <$> children p.2)))
          <$> nodes second in
      let second_index := replace_input (nodes second) (inputs_map mi) <$> index second in
      let first_index :=
        if project_input (settings second) then second_index
        else
          foldl Index_prepend
            (remove_second_inputs (index first) (removed_first_result mi))
            (reverse second_index) in
      let project :=
        if project_input (settings second) then true
        else project_input (settings first) in
      Ok {| nodes := nodes first ++ second_nodes;
            index := foldl Index_insert [] first_index;
            inputs := first_inputs mi;
            settings := merge_settings (settings first) (settings second) project |}
  end.

Definition merge (first second : ActionsDAG) : Res ActionsDAG :=
  match merge_before_prune first second with
  | Throw e => Throw e
  | Ok d => Ok (removeUnusedActions_dag d)
  end.

(** ** ActionsDAG::split *)

Record Frame := mkFrame {
  f_node : Addr;
  next_child_to_visit : nat;
}.

Record Data := mkData {
  needed_by_split_node : bool;
  visited : bool;
  used_in_result : bool;
  to_second : option Addr;
  to_first : option Addr;
}.

Definition Data0 : Data := mkData false false false None None.

(** [data[node]], which creates the default entry when there is none. *)
Definition data_at (data : gmap nat Data) (a : Addr) : Data := default Data0 (data !! a).

Definition set_needed (c : Data) : Data :=
  mkData true (visited c) (used_in_result c) (to_second c) (to_first c).
Definition set_visited (c : Data) : Data :=
  mkData (needed_by_split_node c) true (used_in_result c) (to_second c) (to_first c).
Definition set_used_in_result (c : Data) : Data :=
  mkData (needed_by_split_node c) (visited c) true (to_second c) (to_first c).
Definition set_to_second (c : Data) (a : Addr) : Data :=
  mkData (needed_by_split_node c) (visited c) (used_in_result c) (Some a) (to_first c).
Definition set_to_first (c : Data) (a : Addr) : Data :=
  mkData (needed_by_split_node c) (visited c) (used_in_result c) (to_second c) (Some a).

Definition alter_data (f : Data -> Data) (a : Addr) (data : gmap nat Data)
    : gmap nat Data :=
  <[a := f (data_at data a)]> data.

(** A null [to_second] or [to_first] written into a slot. *)
Definition ptr (o : option Addr) : Addr := default nullptr o.

Definition children_at (ns : Nodes) (a : Addr) : list Addr :=
  match deref ns a with Some n => children n | None => [] end.

(** First DFS: the inner [while] loop that marks everything below a split
    node.  [None] when the fuel runs out, which is the loop not ending. *)
Fixpoint mark_needed (fuel : nat) (ns : Nodes) (stack : list Addr)
    (data : gmap nat Data) : option (gmap nat Data) :=
  match stack with
  | [] => Some data
  | cur_node :: rest =>
      match fuel with
      | 0 => None
      | S fuel' =>
          let step (st : gmap nat Data * list Addr) (child : Addr) :=
            if needed_by_split_node (data_at st.1 child) then st
            else (alter_data set_needed child st.1, child :: st.2) in
          let st := foldl step (data, rest) (children_at ns cur_node) in
          mark_needed fuel' ns st.2 st.1
      end
  end.

Fixpoint mark_split_nodes (fuel : nat) (ns : Nodes) (split_nodes : gset nat)
    (todo : Nodes) (data : gmap nat Data) : option (gmap nat Data) :=
  match todo with
  | [] => Some data
  | (a, _) :: rest =>
      if decide (a ∈ split_nodes) then
        if needed_by_split_node (data_at data a) then
          mark_split_nodes fuel ns split_nodes rest data
        else
          match mark_needed fuel ns [a] (alter_data set_needed a data) with
          | Some data' => mark_split_nodes fuel ns split_nodes rest data'
          | None => None
          end
      else mark_split_nodes fuel ns split_nodes rest data
  end.

(** The state of the second DFS: the data map, the two new node lists, the
    new inputs, and the next address [emplace_back] hands out. *)
Record SplitState := mkSplit {
  s_data : gmap nat Data;
  s_first_nodes : Nodes;
  s_second_nodes : Nodes;
  s_new_inputs : list Addr;
  s_next : Addr;
}.

Definition emplace_second (n : Node) (st : SplitState) : Addr * SplitState :=
  (s_next st,
   mkSplit (s_data st) (s_first_nodes st) (s_second_nodes st ++ [(s_next st, n)])
     (s_new_inputs st) (S (s_next st))).

Definition emplace_first (n : Node) (st : SplitState) : Addr * SplitState :=
  (s_next st,
   mkSplit (s_data st) (s_first_nodes st ++ [(s_next st, n)]) (s_second_nodes st)
     (s_new_inputs st) (S (s_next st))).

Definition with_data (f : gmap nat Data -> gmap nat Data) (st : SplitState) : SplitState :=
  mkSplit (f (s_data st)) (s_first_nodes st) (s_second_nodes st) (s_new_inputs st)
    (s_next st).

Definition push_new_input (a : Addr) (st : SplitState) : SplitState :=
  mkSplit (s_data st) (s_first_nodes st) (s_second_nodes st) (s_new_inputs st ++ [a])
    (s_next st).

(** The INPUT node that stands in [second] for a node of [first]. *)
Definition input_node_of (n : Node) : Node :=
  new_Node INPUT (result_name n) (result_type n).

(** "Replace children to newly created nodes" for a copy that goes to
    [second]: one child slot. *)
Definition second_child (ns : Nodes) (acc : SplitState * list Addr) (child : Addr)
    : SplitState * list Addr :=
  let st := acc.1 in
  match to_second (data_at (s_data st) child) with
  | Some c => (st, acc.2 ++ [c])
  | None =>
      match deref ns child with
      | Some cn =>
          if decide (type cn = COLUMN) then
            let '(a, st1) := emplace_second cn st in
            (with_data (alter_data (fun c => set_to_second c a) child) st1, acc.2 ++ [a])
          else
            let '(a, st1) := emplace_second (input_node_of cn) st in
            (push_new_input child
               (with_data (alter_data (fun c => set_to_second c a) child) st1),
             acc.2 ++ [a])
      | None => (st, acc.2 ++ [nullptr])
      end
  end.

(** "Make a copy part": [cur] has all its children visited.  [node] is the
    node of the enclosing [for (const auto & node : nodes)] loop. *)
Definition make_copy (ns : Nodes) (node : Node) (cur : Addr) (cur_node : Node)
    (st : SplitState) : SplitState :=
  let st := with_data (alter_data set_visited cur) st in
  if negb (needed_by_split_node (data_at (s_data st) cur)) then
    let '(copy, st) := emplace_second cur_node st in
    let st := with_data (alter_data (fun c => set_to_second c copy) cur) st in
    let '(st, cs) := foldl (second_child ns) (st, []) (children cur_node) in
    let st :=
      mkSplit (s_data st) (s_first_nodes st)
        (update (s_second_nodes st) copy (fun n => set_children n cs))
        (s_new_inputs st) (s_next st) in
    if decide (type cur_node = INPUT) then
      let '(input_copy, st) := emplace_first cur_node st in
      push_new_input cur
        (with_data (alter_data (fun c => set_to_first c input_copy) cur) st)
    else st
  else
    let cs := (fun child => ptr (to_first (data_at (s_data st) child)))
                <$> children cur_node in
    let '(copy, st) := emplace_first (set_children cur_node cs) st in
    let st := with_data (alter_data (fun c => set_to_first c copy) cur) st in
    if used_in_result (data_at (s_data st) cur) then
      let '(a, st) := emplace_second (input_node_of node) st in
      push_new_input cur (with_data (alter_data (fun c => set_to_second c a) cur) st)
    else st.

(** "At first, visit all children": [cs] are the children from position [i]
    on; the result is the position of the first that is not visited, or the
    number of children. *)
Fixpoint skip_visited (data : gmap nat Data) (cs : list Addr) (i : nat) : nat :=
  match cs with
  | [] => i
  | child :: rest =>
      if visited (data_at data child) then skip_visited data rest (S i) else i
  end.

(** Second DFS: the inner [while (!stack.empty())] loop.  [None] when the
    fuel runs out (the loop does not end) or when a frame holds an address
    at which the store has no node (undefined in the source). *)
Fixpoint split_dfs (fuel : nat) (ns : Nodes) (node : Node) (stack : list Frame)
    (st : SplitState) : option SplitState :=
  match stack with
  | [] => Some st
  | cur :: rest =>
      match fuel with
      | 0 => None
      | S fuel' =>
          match deref ns (f_node cur) with
          | None => None
          | Some cur_node =>
              let j := skip_visited (s_data st)
                         (drop (next_child_to_visit cur) (children cur_node))
                         (next_child_to_visit cur) in
              match children cur_node !! j with
              | Some child =>
                  split_dfs fuel' ns node
                    (mkFrame child 0 :: mkFrame (f_node cur) j :: rest) st
              | None =>
                  split_dfs fuel' ns node rest
                    (make_copy ns node (f_node cur) cur_node st)
              end
          end
      end
  end.

(** The loop [for (const auto & node : nodes)] around it. *)
Fixpoint split_move_nodes (fuel : nat) (ns : Nodes) (todo : Nodes) (st : SplitState)
    : option SplitState :=
  match todo with
  | [] => Some st
  | (a, node) :: rest =>
      let stack := if visited (data_at (s_data st) a) then [] else [mkFrame a 0] in
      match split_dfs fuel ns node stack st with
      | Some st' => split_move_nodes fuel ns rest st'
      | None => None
      end
  end.

(** On an acyclic store each of the two searches pushes a node at most
    once, and every turn of a loop pushes or pops. *)
Definition split_fuel (ns : Nodes) : nat := 2 * length ns + 2.

Definition split (d : ActionsDAG) (split_nodes : gset nat)
    : option (ActionsDAG * ActionsDAG) :=
  let fuel := split_fuel (nodes d) in
  let data0 :=
    foldl (fun data node => alter_data set_used_in_result node data) ∅ (index d) in
  match mark_split_nodes fuel (nodes d) split_nodes (nodes d) data0 with
  | None => None
  | Some data1 =>
      match split_move_nodes fuel (nodes d) (nodes d)
              (mkSplit data1 [] [] [] (fresh_addr (nodes d))) with
      | None => None
      | Some st =>
          let data := s_data st in
          let second_index :=
            foldl Index_insert []
              ((fun node => ptr (to_second (data_at data node))) <$> index d) in
          let first_inputs :=
            (fun input => ptr (to_first (data_at data input))) <$> inputs d in
          let second_inputs :=
            (fun input => ptr (to_second (data_at data input))) <$> s_new_inputs st in
          let first_index :=
            foldl Index_insert []
              ((fun input => ptr (to_first (data_at data input))) <$> s_new_inputs st) in
          Some
            ({| nodes := s_first_nodes st; index := first_index;
                inputs := first_inputs; settings := settings (cloneEmpty d) |},
             {| nodes := s_second_nodes st; index := second_index;
                inputs := second_inputs; settings := settings (cloneEmpty d) |})
      end
  end.

(** ActionsDAG::splitActionsForFilter.  The result is the pair of DAGs, or
    nothing when split does not end. *)
Definition splitActionsForFilter (column_name : string) (d : ActionsDAG)
    : Res (option (ActionsDAG * ActionsDAG)) :=
  match list_find (fun it => name_of (nodes d) it = Some column_name) (index d) with
  | None => Throw LOGICAL_ERROR
  | Some (_, it) => Ok (split d {[it]})
  end.

End Model.

Notation "'let*' x ':=' m 'in' k" := (bind m (fun x => k))
  (at level 10, x name, m at level 100, k at level 200, only parsing).

(** ** Vocabulary of the statements *)

Section PruneDefs.
Context `{RT : Runtime}.
Implicit Types (ns : list (nat * Node)) (a b : nat) (n : Node).

Definition children_within (U : gset nat) ns : Prop :=
  ∀ a n c, (a, n) ∈ ns → c ∈ children n → c ∈ U.

Definition all_children ns : list nat := concat ((fun p => children p.2) <$> ns).

Definition is_array_join ns a : Prop := ∃ n, (a, n) ∈ ns ∧ type n = ARRAY_JOIN.

(** Addresses reached from the seeds through the children of the nodes
    that are not folded. *)
Inductive reach (idx : list nat) (aj : nat → Prop) ns : nat → Prop :=
  | reach_index a : a ∈ idx → reach idx aj ns a
  | reach_array_join a : aj a → reach idx aj ns a
  | reach_child b n a :
      reach idx aj ns b → deref ns b = Some n → foldable n = false →
      a ∈ children n → reach idx aj ns a.

(** Each entry of the store is the original node or that node folded. *)
Definition folded_from (p q : nat * Node) : Prop :=
  q.1 = p.1 ∧ (q.2 = p.2 ∨ (foldable p.2 = true ∧ q.2 = fold_node p.2)).

Record prune_inv (idx : list nat) (aj : nat → Prop) ns0 (st : PruneState) : Prop := {
  inv_stack : ∀ a, a ∈ stack st → a ∈ visited_nodes st;
  inv_seed : ∀ a, a ∈ idx ∨ aj a → a ∈ visited_nodes st;
  inv_closed : ∀ b n, b ∈ visited_nodes st → b ∉ stack st →
    deref (p_nodes st) b = Some n →
    foldable n = false ∧ ∀ c, c ∈ children n → c ∈ visited_nodes st;
  inv_reach : ∀ a, a ∈ visited_nodes st → reach idx aj (p_nodes st) a;
  inv_shape : Forall2 folded_from ns0 (p_nodes st);
}.

(** The three entry points of the pruner. *)
Inductive prune_call (d : ActionsDAG) : Res unit * ActionsDAG → Prop :=
  | prune_call_plain : prune_call d (removeUnusedActions d)
  | prune_call_nodes required_nodes :
      prune_call d (removeUnusedActions_nodes required_nodes d)
  | prune_call_names required_names :
      prune_call d (removeUnusedActions_names required_names d).

End PruneDefs.

Section ConvertDefs.
Context `{RT : Runtime}.

(** The positions, counted from [pos], of the names equal to [name]. *)
Fixpoint positions_of (name : string) (names : list string) (pos : nat) : list nat :=
  match names with
  | [] => []
  | s :: rest =>
      if decide (s = name) then pos :: positions_of name rest (S pos)
      else positions_of name rest (S pos)
  end.



(** The store only grows and the inputs stay. *)
Definition extends (d d' : ActionsDAG) : Prop :=
  inputs d' = inputs d ∧ ∀ a n, deref (nodes d) a = Some n → deref (nodes d') a = Some n.

End ConvertDefs.

Section MergeDefs.
Context `{RT : Runtime}.

(** The number of entries of an index that are the node [p]. *)
Definition occurrences (p : nat) (idx : list nat) : nat :=
  length (filter (fun a => a = p) idx).

(** The key merge files a node of [first] under. *)
Definition key_of (ns : list (nat * Node)) (a : nat) : string :=
  default ""%string (name_of ns a).

(** The queues and the counters account for every entry of the index. *)
Definition merge_inv (first_nodes : list (nat * Node)) (first_index : list nat)
    (st : MergeInputs) : Prop :=
  (∀ s a, a ∈ default [] (first_result st !! s) → key_of first_nodes a = s) ∧
  (∀ p, default 0 (removed_first_result st !! p)
        + occurrences p (default [] (first_result st !! key_of first_nodes p))
        = occurrences p first_index).

End MergeDefs.

Section SplitDefs.
Context `{RT : Runtime}.
Implicit Types (ns : list (nat * Node)) (n m : Node) (st : SplitState).

(** The name and the type, which result_columns show. *)
Definition same_sig n m : Prop :=
  result_name m = result_name n ∧ result_type m = result_type n.

(** Every node is stored after its children. *)
Definition children_first ns : Prop :=
  ∀ i a n c, ns !! i = Some (a, n) → c ∈ children n → c ∈ (take i ns).*1.

(** A well-formed DAG: the nodes have distinct addresses and are stored
    children first, and the index points into the store. *)
Record wf_dag (d : ActionsDAG) : Prop := {
  wf_nodup : NoDup (nodes d).*1;
  wf_order : children_first (nodes d);
  wf_index : ∀ a, a ∈ index d → a ∈ (nodes d).*1;
}.

Definition d_second st a : option nat := to_second (data_at (s_data st) a).
Definition d_first st a : option nat := to_first (data_at (s_data st) a).
Definition d_needed st a : bool := needed_by_split_node (data_at (s_data st) a).

(** The state of the second search when the nodes [done] are moved and the
    node [pending], if any, is being moved. *)
Record split_inv ns (idx done pending : list nat) st : Prop := {
  si_next : ∀ x, x ∈ (s_first_nodes st).*1 ++ (s_second_nodes st).*1 → x < s_next st;
  si_nodup : NoDup ((s_first_nodes st).*1 ++ (s_second_nodes st).*1);
  si_visited : ∀ a, visited (data_at (s_data st) a) = true ↔ a ∈ done ∨ a ∈ pending;
  si_used : ∀ a, used_in_result (data_at (s_data st) a) = true ↔ a ∈ idx;
  si_second : ∀ a s, d_second st a = Some s →
    (a ∈ done ∨ a ∈ pending) ∧
    ∃ n m, deref ns a = Some n ∧ deref (s_second_nodes st) s = Some m ∧ same_sig n m ∧
           (a ∉ pending → (type m = INPUT ↔ a ∈ s_new_inputs st));
  si_first : ∀ a f, d_first st a = Some f →
    (a ∈ done ∨ a ∈ pending) ∧
    ∃ n m, deref ns a = Some n ∧ deref (s_first_nodes st) f = Some m ∧ same_sig n m;
  si_done : ∀ a, a ∈ done →
    if d_needed st a
    then is_Some (d_first st a) ∧ (a ∈ idx → is_Some (d_second st a))
    else is_Some (d_second st a);
  si_inputs_nodup : NoDup (s_new_inputs st);
  si_inputs : ∀ a, a ∈ s_new_inputs st →
    (a ∈ done ∨ a ∈ pending) ∧ is_Some (d_first st a) ∧ is_Some (d_second st a);
  si_inj : ∀ a a' s, d_second st a = Some s → d_second st a' = Some s → a = a';
}.

(** The first search only sets needed_by_split_node. *)
Definition same_but_needed (data data' : gmap nat Data) : Prop :=
  ∀ a, visited (data_at data' a) = visited (data_at data a) ∧
       used_in_result (data_at data' a) = used_in_result (data_at data a) ∧
       to_second (data_at data' a) = to_second (data_at data a) ∧
       to_first (data_at data' a) = to_first (data_at data a).

Definition unneeded (data : gmap nat Data) (addrs : list nat) : list nat :=
  filter (fun a => needed_by_split_node (data_at data a) = false) addrs.

(** The children of the nodes of the store are in the store. *)
Definition closed_store ns : Prop :=
  ∀ a n c, deref ns a = Some n → c ∈ children n → c ∈ ns.*1.

(** What result_columns shows of a node. *)
Definition sig_of n : string * DataType := (result_name n, result_type n).


(** The two DAGs split assembles from the final state of its loops. *)
Definition first_of (d : ActionsDAG) st : ActionsDAG :=
  {| nodes := s_first_nodes st;
     index := (fun input => ptr (d_first st input)) <$> s_new_inputs st;
     inputs := (fun input => ptr (d_first st input)) <$> inputs d;
     settings := settings (cloneEmpty d) |}.

Definition second_of (d : ActionsDAG) st : ActionsDAG :=
  {| nodes := s_second_nodes st;
     index := (fun node => ptr (d_second st node)) <$> index d;
     inputs := (fun input => ptr (d_second st input)) <$> s_new_inputs st;
     settings := settings (cloneEmpty d) |}.

(** The state with another store of second nodes. *)
Definition set_second_nodes st (second_nodes : list (nat * Node)) : SplitState :=
  mkSplit (s_data st) (s_first_nodes st) second_nodes (s_new_inputs st) (s_next st).

(** The state while the children of the copy [c] of [cur] are replaced. *)
Definition copying ns idx done cur c cur_node st0 st : Prop :=
  split_inv ns idx done [cur] st ∧
  d_second st cur = Some c ∧
  deref (s_second_nodes st) c = Some cur_node ∧
  d_first st cur = d_first st0 cur ∧
  (∀ b, d_needed st b = d_needed st0 b) ∧
  cur ∉ s_new_inputs st.



(** [children_first], as a test that runs along the store. *)
Fixpoint children_firstb (seen : list nat) (ns : list (nat * Node)) : bool :=
  match ns with
  | [] => true
  | (a, n) :: rest =>
      forallb (fun c => bool_decide (c ∈ seen)) (children n)
      && children_firstb (seen ++ [a]) rest
  end.

Definition wf_dagb (d : ActionsDAG) : bool :=
  bool_decide (NoDup (nodes d).*1)
  && children_firstb [] (nodes d)
  && forallb (fun a => bool_decide (a ∈ (nodes d).*1)) (index d).
End SplitDefs.

(** ** The other members of ActionsDAG *)

Section Members.
Context `{RT : Runtime}.

Abbreviation Nodes := (list (Addr * Node)) (only parsing).

(** ActionsDAG::ActionsDAG(const NamesAndTypesList & inputs_) *)
Fixpoint construct_names (inputs_ : list (string * DataType)) : M unit :=
  match inputs_ with
  | [] => ret tt
  | input :: rest =>
      let* _ := addInput input.1 input.2 true in
      construct_names rest
  end.

(** [typeid_cast<const DataTypeArray *>(type)] and [getNestedType] on its
    result: the nested type of an array type, nothing for any other type. *)
Variable getNestedType : DataType -> option DataType.

(** The default of the parameter [can_replace] of addNode.  It is part of
    the declaration in ActionsDAG.h, not of the source at hand, and is left
    open. *)
Variable default_can_replace : bool.

(** ActionsDAG::addArrayJoin *)
Definition addArrayJoin (source_name result_name : string) : M Addr :=
  let* child := getNode source_name in
  let* c := node_at child in
  match getNestedType (result_type c) with
  | None => throw TYPE_MISMATCH
  | Some nested =>
      addNode (set_children (new_Node ARRAY_JOIN result_name nested) [child])
        default_can_replace
  end.

(** The settings of the context that addFunction reads. *)
Record ContextSettings := {
  all_max_temporary_columns : nat;
  all_max_temporary_non_const_columns : nat;
  all_compile_expressions : bool;
  all_min_count_to_compile_expression : nat;
}.

(** The build flag of the block under [#if USE_EMBEDDED_COMPILER]. *)
Variable USE_EMBEDDED_COMPILER : bool.

Definition read_context (all_settings : ContextSettings) (st : ActionsSettings)
    : ActionsSettings :=
  {| project_input := project_input st;
     projected_output := projected_output st;
     max_temporary_columns := all_max_temporary_columns all_settings;
     max_temporary_non_const_columns := all_max_temporary_non_const_columns all_settings;
     compile_expressions :=
       if USE_EMBEDDED_COMPILER then all_compile_expressions all_settings
       else compile_expressions st;
     min_count_to_compile_expression :=
       if USE_EMBEDDED_COMPILER then all_min_count_to_compile_expression all_settings
       else min_count_to_compile_expression st |}.

(** [for (const auto & name : names) children.push_back(&getNode(name));] *)
Fixpoint get_nodes (names : list string) : M (list Addr) :=
  match names with
  | [] => ret []
  | name :: rest =>
      let* child := getNode name in
      let* children := get_nodes rest in
      ret (child :: children)
  end.

(** ActionsDAG::addFunction(function, argument_names, result_name, context).
    The compilation cache it takes from the context is not part of the
    model. *)
Definition addFunction_names (func : FunctionOverloadResolver)
    (argument_names : list string) (result_name : string)
    (all_settings : ContextSettings) : M Addr := fun d =>
  (let* children := get_nodes argument_names in
   addFunction func children result_name false)
    {| nodes := nodes d; index := index d; inputs := inputs d;
       settings := read_context all_settings (settings d) |}.

(** The body of the second loop of addAliases for one item. *)
Definition add_alias_item (item : string * string) (child : Addr) : M Addr :=
  if negb (bool_decide (item.2 = EmptyString)) && bool_decide (item.1 ≠ item.2) then
    let* c := node_at child in
    addNode
      {| children := [child]; type := ALIAS; result_name := item.2;
         result_type := result_type c; function_builder := None;
         function_base := None; function := None; column := column c;
         allow_constant_folding := allow_constant_folding c |}
      true
  else ret child.

Fixpoint add_alias_items (aliases : list (string * string)) (required_nodes : list Addr)
    : M (list Addr) :=
  match aliases, required_nodes with
  | item :: rest, child :: rest_nodes =>
      let* res := add_alias_item item child in
      let* result_nodes := add_alias_items rest rest_nodes in
      ret (res :: result_nodes)
  | _, _ => ret []
  end.

(** ActionsDAG::addAliases(aliases, result_nodes), which returns what it
    appends to [result_nodes]. *)
Definition addAliases_nodes (aliases : list (string * string)) : M (list Addr) :=
  let* required_nodes := get_nodes (fst <$> aliases) in
  add_alias_items aliases required_nodes.

(** ActionsDAG::addAliases(aliases) *)
Definition addAliases (aliases : list (string * string)) : M unit :=
  let* _ := addAliases_nodes aliases in
  ret tt.

Definition set_projected_output (st : ActionsSettings) (b : bool) : ActionsSettings :=
  {| project_input := project_input st; projected_output := b;
     max_temporary_columns := max_temporary_columns st;
     max_temporary_non_const_columns := max_temporary_non_const_columns st;
     compile_expressions := compile_expressions st;
     min_count_to_compile_expression := min_count_to_compile_expression st |}.

(** ActionsDAG::project *)
Definition project (projection : list (string * string)) : M unit :=
  let* result_nodes := addAliases_nodes projection in
  let* _ := removeUnusedActions_nodes result_nodes in
  let* _ := projectInput in
  fun d =>
    (Ok tt,
     {| nodes := nodes d; index := index d; inputs := inputs d;
        settings := set_projected_output (settings d) true |}).

(** Erasing the first node that lives at [a], and the first entry of a list
    that is [a].  Modelled from the spec for the index: Index::remove is
    declared in ActionsDAG.h; section 3.3 has it remove the entry the
    iterator points at. *)
Fixpoint erase_node (ns : Nodes) (a : Addr) : Nodes :=
  match ns with
  | [] => []
  | (b, n) :: ns' => if decide (b = a) then ns' else (b, n) :: erase_node ns' a
  end.

Fixpoint erase_first (l : list Addr) (a : Addr) : list Addr :=
  match l with
  | [] => []
  | b :: l' => if decide (b = a) then l' else b :: erase_first l' a
  end.

(** ActionsDAG::removeUnusedInput.  An entry of [inputs] at which the store
    has no node (reading its name is undefined in the source) is passed
    over. *)
Definition removeUnusedInput (column_name : string) : M unit := fun d =>
  match list_find (fun it => name_of (nodes d) it = Some column_name) (inputs d) with
  | None => (Throw LOGICAL_ERROR, d)
  | Some (pos, input) =>
      if existsb (fun p => bool_decide (input ∈ children p.2)) (nodes d) then
        (Throw LOGICAL_ERROR, d)
      else
        (Ok tt,
         {| nodes := erase_node (nodes d) input;
            index := erase_first (index d) input;
            inputs := delete pos (inputs d);
            settings := settings d |})
  end.

(** ActionsDAG::clone.  The copies live at fresh addresses, in the order of
    the store; [copy_map[node]] of a node that was not copied is the null
    pointer. *)
Definition clone_addr (ns : Nodes) (pos : nat) : Addr := fresh_addr ns + pos.

Definition copy_map (ns : Nodes) : gmap nat nat :=
  foldl (fun map ip => <[ip.2.1 := clone_addr ns ip.1]> map) ∅ (imap pair ns).

Definition copy_of (map : gmap nat nat) (a : Addr) : Addr := default nullptr (map !! a).

Definition clone (d : ActionsDAG) : ActionsDAG :=
  let map := copy_map (nodes d) in
  {| nodes :=
       imap (fun pos p =>
               (clone_addr (nodes d) pos,
                set_children p.2 (copy_of map <$> children p.2)))
         (nodes d);
     index := foldl Index_insert [] (copy_of map <$> index d);
     inputs := copy_of map <$> inputs d;
     settings := settings (cloneEmpty d) |}.

(** ActionsDAG::dumpNames *)
Definition dumpNames (d : ActionsDAG) : string :=
  join_names ((fun p => result_name p.2) <$> nodes d).

(** ActionsDAG::hasArrayJoin, hasStatefulFunctions, empty.  A FUNCTION node
    without function_base, whose test is undefined in the source, counts as
    not stateful. *)
Definition hasArrayJoin (d : ActionsDAG) : bool :=
  existsb (fun p => bool_decide (type p.2 = ARRAY_JOIN)) (nodes d).

Definition hasStatefulFunctions (d : ActionsDAG) : bool :=
  existsb (fun p => bool_decide (type p.2 = FUNCTION)
                    && match function_base p.2 with
                       | Some fb => isStateful fb
                       | None => false
                       end) (nodes d).

Definition empty (d : ActionsDAG) : bool :=
  forallb (fun p => bool_decide (type p.2 = INPUT)) (nodes d).

(** ** ActionsDAG::splitActionsBeforeArrayJoin *)

Definition depend_on_array_join (array_joined_columns : gset string)
    (split_nodes : gset nat) (n : Node) : bool :=
  (bool_decide (type n = INPUT) && bool_decide (result_name n ∈ array_joined_columns))
  || existsb (fun child => bool_decide (child ∉ split_nodes)) (children n).

(** The inner [while] over the children of the top frame: the position of
    the first child that is not visited. *)
Fixpoint skip_seen (visited_nodes : gset nat) (cs : list Addr) (i : nat) : nat :=
  match cs with
  | [] => i
  | child :: rest =>
      if decide (child ∈ visited_nodes) then skip_seen visited_nodes rest (S i) else i
  end.

(** The loop [while (!stack.empty())] on the pair (split_nodes,
    visited_nodes).  [None] when the fuel runs out or a frame holds an
    address at which the store has no node. *)
Fixpoint array_join_dfs (fuel : nat) (ns : Nodes) (array_joined_columns : gset string)
    (stack : list Frame) (st : gset nat * gset nat) : option (gset nat * gset nat) :=
  match stack with
  | [] => Some st
  | cur :: rest =>
      match fuel with
      | 0 => None
      | S fuel' =>
          match deref ns (f_node cur) with
          | None => None
          | Some cur_node =>
              let j := skip_seen st.2
                         (drop (next_child_to_visit cur) (children cur_node))
                         (next_child_to_visit cur) in
              match children cur_node !! j with
              | Some child =>
                  array_join_dfs fuel' ns array_joined_columns
                    (mkFrame child 0 :: mkFrame (f_node cur) j :: rest)
                    (st.1, {[child]} ∪ st.2)
              | None =>
                  array_join_dfs fuel' ns array_joined_columns rest
                    (if depend_on_array_join array_joined_columns st.1 cur_node
                     then st.1 else {[f_node cur]} ∪ st.1, st.2)
              end
          end
      end
  end.

(** The loop [for (const auto & node : nodes)] around it. *)
Fixpoint array_join_search (fuel : nat) (ns : Nodes) (array_joined_columns : gset string)
    (todo : Nodes) (st : gset nat * gset nat) : option (gset nat * gset nat) :=
  match todo with
  | [] => Some st
  | (a, _) :: rest =>
      if decide (a ∈ st.2) then array_join_search fuel ns array_joined_columns rest st
      else
        match array_join_dfs fuel ns array_joined_columns [mkFrame a 0]
                (st.1, {[a]} ∪ st.2) with
        | Some st' => array_join_search fuel ns array_joined_columns rest st'
        | None => None
        end
  end.

Definition array_join_split_nodes (d : ActionsDAG) (array_joined_columns : gset string)
    : option (gset nat) :=
  fst <$> array_join_search (split_fuel (nodes d)) (nodes d) array_joined_columns
            (nodes d) (∅, ∅).

(** The result is the pair of DAGs, or nothing when a search does not end. *)
Definition splitActionsBeforeArrayJoin (d : ActionsDAG)
    (array_joined_columns : gset string) : option (ActionsDAG * ActionsDAG) :=
  match array_join_split_nodes d array_joined_columns with
  | None => None
  | Some split_nodes =>
      match split d split_nodes with
      | None => None
      | Some res =>
          Some ({| nodes := nodes res.1; index := index res.1; inputs := inputs res.1;
                   settings := set_project_input (settings res.1) false |},
                res.2)
      end
  end.

End Members.

Section BuilderDefs.
Context `{RT : Runtime}.
Variable getNestedType : DataType -> option DataType.
Variable default_can_replace : bool.

(** The calls that add one node. *)
Inductive builder_call : M Addr → Prop :=
  | call_addInput name ty can_replace : builder_call (addInput name ty can_replace)
  | call_addInput_column col can_replace :
      builder_call (addInput_column col can_replace)
  | call_addColumn col can_replace : builder_call (addColumn col can_replace)
  | call_addAlias name alias can_replace : builder_call (addAlias name alias can_replace)
  | call_addAlias_node child alias can_replace :
      builder_call (addAlias_node child alias can_replace)
  | call_addArrayJoin source_name result_name :
      builder_call (addArrayJoin getNestedType default_can_replace source_name result_name)
  | call_addFunction func children name can_replace :
      builder_call (addFunction func children name can_replace).

(** What every call that adds a node does: nothing at all when it throws,
    and otherwise one push of a node whose children are in the store. *)
Definition pushed (d : ActionsDAG) (r : Res Addr) (d' : ActionsDAG) : Prop :=
  ∃ n, r = Ok (fresh_addr (nodes d)) ∧
       d' = {| nodes := nodes d ++ [(fresh_addr (nodes d), n)];
               index := Index_replace (nodes d ++ [(fresh_addr (nodes d), n)]) (index d)
                          (fresh_addr (nodes d));
               inputs := if decide (type n = INPUT)
                         then inputs d ++ [fresh_addr (nodes d)] else inputs d;
               settings := settings d |} ∧
       (∀ c, c ∈ children n → c ∈ (nodes d).*1) ∧
       (type n = ARRAY_JOIN → column n = None).
(** No ARRAY_JOIN node carries a column. *)
Definition array_joins_plain (ns : list (nat * Node)) : Prop :=
  ∀ a n, (a, n) ∈ ns → type n = ARRAY_JOIN → column n = None.
End BuilderDefs.

Section BuiltDefs.
Context `{RT : Runtime}.
Variable getNestedType : DataType -> option DataType.
Variable default_can_replace : bool.
Variable USE_EMBEDDED_COMPILER : bool.

(** A run of pushes. *)
Inductive pushes : ActionsDAG → ActionsDAG → Prop :=
  | pushes_refl d : pushes d d
  | pushes_step d r d1 d2 : pushed d r d1 → pushes d1 d2 → pushes d d2.

(** What addAliases returns for one item: the node the name stands for, or
    a new ALIAS of it. *)
Definition alias_result (d d' : ActionsDAG) (item : string * string) (child res : Addr)
    : Prop :=
  if decide (item.2 ≠ EmptyString ∧ item.1 ≠ item.2) then
    ((res ∉ (nodes d).*1) ∧
     ∃ c n, deref (nodes d) child = Some c ∧ deref (nodes d') res = Some n ∧
            type n = ALIAS ∧ children n = [child] ∧ result_name n = item.2 ∧
            result_type n = result_type c ∧ column n = column c)
  else res = child.

(** The DAGs that the members of the class make out of an empty one: the
    calls that add a node, the pruner without arguments and by names,
    addAliases, project, tryRestoreColumn and projectInput. *)
Inductive built : ActionsDAG → Prop :=
  | built_empty st :
      built {| nodes := []; index := []; inputs := []; settings := st |}
  | built_builder m d r d' :
      built d → builder_call getNestedType default_can_replace m →
      m d = (r, d') → built d'
  | built_addFunction_names func argument_names result_name all_settings d r d' :
      built d →
      addFunction_names USE_EMBEDDED_COMPILER func argument_names result_name
        all_settings d = (r, d') →
      built d'
  | built_removeUnusedActions d r d' :
      built d → removeUnusedActions d = (r, d') → built d'
  | built_removeUnusedActions_names required_names d r d' :
      built d → removeUnusedActions_names required_names d = (r, d') → built d'
  | built_addAliases aliases d r d' :
      built d → addAliases aliases d = (r, d') → built d'
  | built_project projection d r d' :
      built d → project projection d = (r, d') → built d'
  | built_tryRestoreColumn column_name d r d' :
      built d → tryRestoreColumn column_name d = (r, d') → built d'
  | built_projectInput d r d' :
      built d → projectInput d = (r, d') → built d'.
End BuiltDefs.

Section ConstructDefs.
Context `{RT : Runtime}.

(** The INPUT node the constructor from columns makes of a column: only a
    constant column is kept in the node. *)
Definition input_node (c : ColumnWithTypeAndName) : Node :=
  if is_const (c_column c)
  then set_column (new_Node INPUT (c_name c) (c_type c)) (c_column c)
  else new_Node INPUT (c_name c) (c_type c).

(** The store, the inputs and the index when the nodes [new] have been
    pushed one after the other on an empty DAG, each replacing in the index
    the entries of its name. *)
Fixpoint pushed_inputs (new : list Node) (d : ActionsDAG) : ActionsDAG :=
  match new with
  | [] => d
  | n :: rest =>
      pushed_inputs rest
        {| nodes := nodes d ++ [(fresh_addr (nodes d), n)];
           index := Index_replace (nodes d ++ [(fresh_addr (nodes d), n)]) (index d)
                      (fresh_addr (nodes d));
           inputs := inputs d ++ [fresh_addr (nodes d)];
           settings := settings d |}
  end.
End ConstructDefs.

Section MergeMoreDefs.
Context `{RT : Runtime}.

(** How many of the addresses [l] hold a node that merge files under the
    name [name]. *)
Definition named (ns : list (nat * Node)) (name : string) (l : list nat) : nat :=
  length (filter (fun a => key_of ns a = name) l).
End MergeMoreDefs.

Section ArrayJoinDefs.
Context `{RT : Runtime}.

(** The split nodes that the search of splitActionsBeforeArrayJoin leaves
    when every node is met after its children: one pass over the store. *)
Definition array_join_free (array_joined_columns : gset string)
    (ns : list (nat * Node)) : gset nat :=
  foldl (fun split_nodes p =>
           if depend_on_array_join array_joined_columns split_nodes p.2
           then split_nodes else {[p.1]} ∪ split_nodes) ∅ ns.
End ArrayJoinDefs.

Section FilterDefs.
Context `{RT : Runtime}.

(** Two states of the second search: the later one has the marks
    needed_by_split_node and used_in_result of the earlier one, and at least
    its new inputs. *)
Definition keeps_marks (st st' : SplitState) : Prop :=
  (∀ b, d_needed st' b = d_needed st b) ∧
  (∀ b, used_in_result (data_at (s_data st') b) = used_in_result (data_at (s_data st) b)) ∧
  (∀ x, x ∈ s_new_inputs st → x ∈ s_new_inputs st').

(** A node that is needed by a split node and used in the result is among
    the new inputs once it is copied. *)
Definition needed_results_are_inputs (done : list nat) (st : SplitState) : Prop :=
  ∀ a, a ∈ done → d_needed st a = true →
       used_in_result (data_at (s_data st) a) = true → a ∈ s_new_inputs st.
End FilterDefs.

Section RequiredDefs.

(** The names of a list in the order of their first mention, those of
    [seen] left out. *)
Fixpoint first_mentions (seen names : list string) : list string :=
  match names with
  | [] => []
  | name :: rest =>
      if decide (name ∈ seen) then first_mentions seen rest
      else name :: first_mentions (name :: seen) rest
  end.

End RequiredDefs.

(** ** A sample runtime *)

Inductive SampleField := FInt (n : nat) | FString (s : string).

Global Instance SampleField_eq_dec : EqDecision SampleField.
Proof. solve_decision. Defined.

Inductive SampleColumn :=
  | ConstCol (rows : nat) (value : SampleField)
  | FullCol (values : list SampleField).

Definition sample_field (c : SampleColumn) : SampleField :=
  match c with
  | ConstCol _ v => v
  | FullCol l => default (FInt 0) (head l)
  end.

Global Instance sample_runtime : Runtime := {|
  DataType := string;
  Column := SampleColumn;
  Field := SampleField;
  equals := String.eqb;
  getTypeName := fun t => t;
  DataTypeString := "String"%string;
  createColumnConst := fun rows s => ConstCol rows (FString s);
  isColumnConst := fun c => match c with ConstCol _ _ => true | FullCol _ => false end;
  size_of := fun c => match c with ConstCol rows _ => rows | FullCol l => length l end;
  cloneResized := fun c rows =>
    match c with
    | ConstCol _ v => ConstCol rows v
    | FullCol l => FullCol (take rows l ++ replicate (rows - length l) (FInt 0))
    end;
  getField := sample_field;
  Field_eqb := fun a b => bool_decide (a = b);
  getColumnName := fun c =>
    match c with ConstCol _ _ => "Const"%string | FullCol _ => "Full"%string end;
|}.

Definition int_of (c : ColumnWithTypeAndName) : nat :=
  match c_column c with
  | Some col => match sample_field col with FInt n => n | FString _ => 0 end
  | None => 0
  end.

(** plus: the sum of its arguments, a constant when executed on constants. *)
Definition sample_plus : FunctionOverloadResolver :=
  {| getName := "plus"%string;
     build := fun _ =>
       {| fb_getName := "plus"%string; getResultType := "Int32"%string;
          prepare := fun _ =>
            {| execute := fun args _ rows _ =>
                 ConstCol rows (FInt (foldr (fun a s => int_of a + s) 0 args)) |};
          isSuitableForConstantFolding := true; isDeterministic := true;
          isStateful := false;
          getResultIfAlwaysReturnsConstantAndHasArguments := fun _ => None |} |}.

(** A function that is suitable for constant folding and deterministic,
    whose execution gives a full column even on constants. *)
Definition sample_replicate : FunctionOverloadResolver :=
  {| getName := "replicate"%string;
     build := fun _ =>
       {| fb_getName := "replicate"%string; getResultType := "Int32"%string;
          prepare := fun _ =>
            {| execute := fun args _ rows _ =>
                 FullCol (replicate rows (FInt (foldr (fun a s => int_of a + s) 0 args))) |};
          isSuitableForConstantFolding := true; isDeterministic := true;
          isStateful := false;
          getResultIfAlwaysReturnsConstantAndHasArguments := fun _ => None |} |}.

Definition sample_toString : FunctionOverloadResolver :=
  {| getName := "toString"%string;
     build := fun _ =>
       {| fb_getName := "toString"%string; getResultType := "String"%string;
          prepare := fun _ =>
            {| execute := fun _ _ rows _ => FullCol (replicate rows (FString "")) |};
          isSuitableForConstantFolding := false; isDeterministic := true;
          isStateful := false;
          getResultIfAlwaysReturnsConstantAndHasArguments := fun _ => None |} |}.

Definition sample_materialize : FunctionOverloadResolver :=
  {| getName := "materialize"%string;
     build := fun args =>
       {| fb_getName := "materialize"%string;
          getResultType := default "Nothing"%string (c_type <$> head args);
          prepare := fun _ =>
            {| execute := fun args _ rows _ =>
                 FullCol (replicate rows
                            (default (FInt 0) (sample_field <$> (head args ≫= c_column)))) |};
          isSuitableForConstantFolding := false; isDeterministic := true;
          isStateful := false;
          getResultIfAlwaysReturnsConstantAndHasArguments := fun _ => None |} |}.

Definition sample_cast (diagnostic : string * string) : FunctionOverloadResolver :=
  {| getName := "CAST"%string;
     build := fun args =>
       {| fb_getName := "CAST"%string;
          getResultType :=
            match sample_field <$> (args !! 1 ≫= c_column) with
            | Some (FString t) => t
            | _ => "Nothing"%string
            end;
          prepare := fun _ =>
            {| execute := fun args _ rows _ =>
                 default (FullCol []) (head args ≫= c_column) |};
          isSuitableForConstantFolding := true; isDeterministic := true;
          isStateful := false;
          getResultIfAlwaysReturnsConstantAndHasArguments := fun _ => None |} |}.

Definition sample_column (name ty : string) (c : option SampleColumn)
    : ColumnWithTypeAndName :=
  {| c_column := c; c_type := ty; c_name := name |}.

(** The DAG after a call, whatever the call returned. *)
Definition after {A} (m : M A) (d : ActionsDAG) : ActionsDAG := (m d).2.

(** x: Int32 and f = toString(x), of which only f is kept in the index. *)
Definition sample_dag : ActionsDAG :=
  after (removeUnusedActions_names ["f"%string])
    (after (let* x := getNode "x" in addFunction sample_toString [x] "f" false)
       (after (addInput "x" "Int32"%string false) empty_DAG)).

(** Its second half when split at x, with x restored to the index: f is
    stored before its child x. *)
Definition sample_second : ActionsDAG :=
  {| nodes :=
       [(4, {| children := [5]; type := FUNCTION; result_name := "f";
               result_type := "String"%string;
               function_builder := Some sample_toString;
               function_base := Some (build sample_toString
                                        [sample_column "x" "Int32" None]);
               function := Some (prepare (build sample_toString
                                            [sample_column "x" "Int32" None])
                                   [sample_column "x" "Int32" None]);
               column := None; allow_constant_folding := true |});
        (5, new_Node INPUT "x" "Int32"%string)];
     index := [4; 5]; inputs := [5]; settings := default_settings |}.

(** arr: Array(Int32), y = arrayJoin(arr) out of the index, z: Int32 in it. *)
Definition sample_array_join : Node :=
  set_children (new_Node ARRAY_JOIN "y" "Int32"%string) [1].

Definition sample_array_join_dag : ActionsDAG :=
  {| nodes := [(1, new_Node INPUT "arr" "Array(Int32)"%string);
               (2, sample_array_join);
               (3, new_Node INPUT "z" "Int32"%string)];
     index := [3]; inputs := [1; 3]; settings := default_settings |}.

(** The constants 1 and 2 and plus(1, 2), which addFunction executes. *)
Definition sample_constant (name : string) (v : nat) : ColumnWithTypeAndName :=
  sample_column name "Int32" (Some (ConstCol 1 (FInt v))).

Definition sample_constants_dag : ActionsDAG :=
  after (addColumn (sample_constant "2" 2) false)
    (after (addColumn (sample_constant "1" 1) false) empty_DAG).

Definition sample_plus_dag : ActionsDAG :=
  after (addFunction sample_plus [1; 2] "" false) sample_constants_dag.

Definition sample_plus_node : Node :=
  Eval vm_compute in
    default (new_Node INPUT "" ""%string) (deref (nodes sample_plus_dag) 3).

Definition sample_constant_nodes : list Node :=
  Eval vm_compute in
    default [] (mapM (deref (nodes sample_constants_dag)) [1; 2]).

Definition sample_source : list ColumnWithTypeAndName :=
  [sample_column "a" "Int32" None; sample_column "b" "Int32" None;
   sample_column "a" "Int64" (Some (ConstCol 1 (FInt 7)))].

Definition sample_result : list ColumnWithTypeAndName :=
  [sample_column "a" "Int32" None; sample_column "a" "Int64" None;
   sample_column "c" "Int32" None].







Definition sample_first : ActionsDAG :=
  {| nodes := [(1, new_Node INPUT "x" "Int32"%string);
               (2, new_Node INPUT "y" "Int32"%string);
               (3, set_children (new_Node ALIAS "x" "Int32"%string) [2])];
     index := [1; 2; 3]; inputs := [1; 2]; settings := default_settings |}.

Definition sample_consumer : ActionsDAG :=
  {| nodes := [(10, new_Node INPUT "x" "Int32"%string);
               (11, set_children (new_Node ALIAS "z" "Int32"%string) [10])];
     index := [11]; inputs := [10]; settings := default_settings |}.

Definition sample_unpruned : ActionsDAG :=
  Eval vm_compute in
    match merge_before_prune sample_first sample_consumer with
    | Ok m => m
    | Throw _ => empty_DAG
    end.

Definition sample_merged : ActionsDAG :=
  Eval vm_compute in
    match merge sample_first sample_consumer with
    | Ok m => m
    | Throw _ => empty_DAG
    end.

Definition merged_names (first second : ActionsDAG) :=
  match merge first second with
  | Ok m => Some (getNamesAndTypesList m, getRequiredColumns m)
  | Throw _ => None
  end.

(** x: Int32, the constant 1, f = plus(x, 1) and g = plus(f, 1), of which
    only g is kept in the index: the constant is used on both sides of a
    split at f. *)
Definition sample_shared : ActionsDAG :=
  after (removeUnusedActions_names ["g"%string])
    (after (let* f := getNode "f" in let* c := getNode "1" in
            addFunction sample_plus [f; c] "g" false)
       (after (let* x := getNode "x" in let* c := getNode "1" in
               addFunction sample_plus [x; c] "f" false)
          (after (addColumn (sample_constant "1" 1) false)
             (after (addInput "x" "Int32"%string false) empty_DAG)))).

(** Array(Int32) is the one array type of the sample runtime. *)
Definition sample_nested (t : DataType) : option DataType :=
  if String.eqb t "Array(Int32)" then Some "Int32"%string else None.

Definition sample_context : ContextSettings :=
  {| all_max_temporary_columns := 10;
     all_max_temporary_non_const_columns := 5;
     all_compile_expressions := true;
     all_min_count_to_compile_expression := 3 |}.

(** x: Int32 alone. *)
Definition sample_input_dag : ActionsDAG :=
  after (addInput "x" "Int32"%string false) empty_DAG.

(** arr: Array(Int32) alone, then with y = arrayJoin(arr) and z: Int32, of
    which only z is kept in the index, as the members build them. *)
Definition sample_array_dag : ActionsDAG :=
  after (addInput "arr" "Array(Int32)"%string false) empty_DAG.

Definition sample_array_join_full : ActionsDAG :=
  after (addInput "z" "Int32"%string false)
    (after (addArrayJoin sample_nested false "arr" "y") sample_array_dag).

Definition sample_array_join_built : ActionsDAG :=
  after (removeUnusedActions_names ["z"%string]) sample_array_join_full.

(** The conversion of [sample_source] to the first two columns of
    [sample_result], by name. *)
Definition sample_converting_dag : ActionsDAG :=
  match makeConvertingActions sample_materialize sample_cast sample_source
          (take 2 sample_result) Name false with
  | Ok d => d
  | Throw _ => empty_DAG
  end.

(** * Proofs *)

(** ** The store and the pruner *)

Section PruneFacts.
Context `{RT : Runtime}.
Implicit Types (ns : list (nat * Node)) (a b : nat) (n : Node) (V : gset nat).

Lemma deref_Some_In ns a n : deref ns a = Some n -> (a, n) ∈ ns.
Proof.
  induction ns as [|[b m] ns IH]; simpl; [done|].
  case_decide; intros Hd; simplify_eq.
  - left.
  - right. auto.
Qed.

Lemma deref_None ns a : deref ns a = None <-> a ∉ ns.*1.
Proof.
  induction ns as [|[b m] ns IH]; simpl.
  - split; [intros _; apply not_elem_of_nil | done].
  - rewrite not_elem_of_cons. case_decide; subst; [|tauto].
    split; [done | intros [? _]; done].
Qed.

Lemma In_deref_NoDup ns a n : NoDup ns.*1 -> (a, n) ∈ ns -> deref ns a = Some n.
Proof.
  induction ns as [|[b m] ns IH]; simpl; intros Hnd Hin.
  - by apply elem_of_nil in Hin.
  - apply NoDup_cons in Hnd as [Hb Hnd].
    apply elem_of_cons in Hin as [Heq|Hin]; simplify_eq.
    + by rewrite decide_True.
    + case_decide; subst; [|auto].
      exfalso. apply Hb. apply list_elem_of_fmap. by exists (b, n).
Qed.

Lemma deref_update ns a f b :
  deref (update ns a f) b = if decide (b = a) then f <$> deref ns a else deref ns b.
Proof.
  induction ns as [|[c m] ns IH]; simpl.
  - by case_decide.
  - destruct (decide (a = c)) as [->|Hac]; simpl.
    + destruct (decide (b = c)); done.
    + rewrite IH. destruct (decide (b = c)), (decide (b = a)); simplify_eq; done.
Qed.

Lemma update_fst ns a f : (update ns a f).*1 = ns.*1.
Proof.
  induction ns as [|[c m] ns IH]; simpl; [done|].
  case_decide; csimpl; by rewrite ?IH.
Qed.

Lemma update_In_other ns a f n0 b n :
  deref ns a = Some n0 -> n ≠ n0 -> (b, n) ∈ ns -> (b, n) ∈ update ns a f.
Proof.
  induction ns as [|[c m] ns IH]; simpl; [done|].
  intros Hd Hne Hin. destruct (decide (a = c)) as [->|Hac]; simplify_eq.
  - apply elem_of_cons in Hin as [Heq|Hin]; simplify_eq. by right.
  - apply elem_of_cons in Hin as [Heq|Hin]; simplify_eq; [left | right; auto].
Qed.

Lemma deref_filter ns V a :
  deref (filter (fun p => p.1 ∈ V) ns) a = if decide (a ∈ V) then deref ns a else None.
Proof.
  induction ns as [|[c m] ns IH]; simpl.
  - by destruct (decide (a ∈ V)).
  - rewrite filter_cons. simpl.
    destruct (decide (c ∈ V)) as [Hc|Hc]; simpl; rewrite ?IH;
      destruct (decide (a = c)) as [->|Hac]; destruct (decide (_ ∈ V)); done.
Qed.


(** *** The worklist *)

Lemma push_unvisited_eq V s c :
  push_unvisited (V, s) c = if decide (c ∈ V) then (V, s) else ({[c]} ∪ V, c :: s).
Proof. done. Qed.

Lemma push_unvisited_fold V s cs :
  (foldl push_unvisited (V, s) cs).1 = V ∪ list_to_set cs ∧
  ∃ news, (foldl push_unvisited (V, s) cs).2 = news ++ s ∧
          ∀ x, x ∈ news ↔ x ∈ cs ∧ x ∉ V.
Proof.
  revert V s. induction cs as [|c cs IH]; intros V s; cbn [foldl].
  - split; [set_solver|]. exists []. split; [done|]. intros x.
    rewrite !elem_of_nil. tauto.
  - rewrite push_unvisited_eq. destruct (decide (c ∈ V)) as [Hc|Hc].
    + destruct (IH V s) as [HV (news & Hs & Hnews)]. split; [set_solver|].
      exists news. split; [done|]. intros x. rewrite Hnews, elem_of_cons.
      split; [tauto|]. intros [[->|?] ?]; tauto.
    + destruct (IH ({[c]} ∪ V) (c :: s)) as [HV (news & Hs & Hnews)]. split; [set_solver|].
      exists (news ++ [c]). split; [by rewrite <- app_assoc|].
      intros x. rewrite elem_of_app, Hnews, list_elem_of_singleton, elem_of_cons,
        elem_of_union, elem_of_singleton.
      destruct (decide (x = c)) as [->|]; tauto.
Qed.

Lemma push_unvisited_measure (U : gset nat) V s cs :
  (∀ c, c ∈ cs → c ∈ U) →
  length (foldl push_unvisited (V, s) cs).2 + size (U ∖ (foldl push_unvisited (V, s) cs).1)
  = length s + size (U ∖ V).
Proof.
  revert V s. induction cs as [|c cs IH]; intros V s HU; cbn [foldl]; [done|].
  rewrite push_unvisited_eq. destruct (decide (c ∈ V)) as [Hc|Hc].
  - apply IH. intros x Hx. apply HU. by right.
  - rewrite IH by (intros x Hx; apply HU; by right).
    simpl. assert (Hc' : c ∈ U) by (apply HU; left).
    assert (HE : U ∖ V = {[c]} ∪ U ∖ ({[c]} ∪ V)).
    { apply set_eq. intros x. rewrite elem_of_union, !elem_of_difference, elem_of_union,
        elem_of_singleton. destruct (decide (x = c)); subst; tauto. }
    rewrite HE, (size_union (C:=gset nat) {[c]}) by set_solver.
    rewrite size_singleton. lia.
Qed.

Lemma update_fold_In ns a b n :
  (b, n) ∈ update ns a fold_node →
  (b, n) ∈ ns ∨ ∃ n0, (b, n0) ∈ ns ∧ n = fold_node n0.
Proof.
  induction ns as [|[c m] ns IH]; simpl; [by left|].
  destruct (decide (a = c)) as [->|Hac]; intros Hin.
  - apply elem_of_cons in Hin as [Heq|Hin]; simplify_eq.
    + right. exists m. split; [left | done].
    + left. by right.
  - apply elem_of_cons in Hin as [Heq|Hin]; simplify_eq.
    + left. left.
    + destruct (IH Hin) as [?|(n0 & ? & ?)]; [left; by right | right].
      exists n0. split; [by right | done].
Qed.

Lemma children_within_step U st :
  children_within U (p_nodes st) → children_within U (p_nodes (prune_step st)).
Proof.
  intros HU. unfold prune_step. destruct (stack st) as [|node rest]; [done|].
  destruct (deref (p_nodes st) node) as [n|]; [|done]. simpl.
  destruct (foldable n); [|done].
  intros a m c Hin Hc. apply update_fold_In in Hin as [Hin|(n0 & Hin & ->)].
  - by eapply HU.
  - simpl in Hc. by apply elem_of_nil in Hc.
Qed.

Lemma prune_step_measure U st node rest :
  children_within U (p_nodes st) → stack st = node :: rest →
  length (stack (prune_step st)) + size (U ∖ visited_nodes (prune_step st))
  = length rest + size (U ∖ visited_nodes st).
Proof.
  intros HU Hs. unfold prune_step. rewrite Hs.
  destruct (deref (p_nodes st) node) as [n|] eqn:Hd; [|done]. simpl.
  apply push_unvisited_measure. intros c Hc.
  destruct (foldable n); [by apply elem_of_nil in Hc|].
  eapply HU; [by apply deref_Some_In|done].
Qed.

Lemma prune_loop_terminates U fuel st :
  children_within U (p_nodes st) →
  length (stack st) + size (U ∖ visited_nodes st) ≤ fuel →
  stack (prune_loop fuel st) = [].
Proof.
  revert st. induction fuel as [|fuel IH]; intros st HU Hle; simpl.
  - destruct (stack st); [done | simpl in Hle; lia].
  - destruct (stack st) as [|node rest] eqn:Hs; [done|].
    apply IH; [by apply children_within_step|].
    erewrite prune_step_measure by done. simpl in Hle. lia.
Qed.

Lemma size_list_to_set_le (l : list nat) : size (list_to_set l : gset nat) ≤ length l.
Proof.
  induction l as [|x l IH]; cbn [list_to_set length].
  - rewrite size_empty. lia.
  - rewrite (size_union_alt (C:=gset nat)), size_singleton.
    assert (Hsub : (list_to_set l : gset nat) ∖ {[x]} ⊆ list_to_set l) by set_solver.
    apply subseteq_size in Hsub. lia.
Qed.

Lemma children_within_all ns : children_within (list_to_set (all_children ns)) ns.
Proof.
  intros a n c Hin Hc. apply elem_of_list_to_set. unfold all_children.
  apply list_elem_of_In, in_concat. exists (children n).
  split; [|by apply list_elem_of_In].
  apply list_elem_of_In, list_elem_of_fmap. by exists (a, n).
Qed.

Lemma prune_run_stack d : stack (prune_run d) = [].
Proof.
  unfold prune_run.
  apply (prune_loop_terminates (list_to_set (all_children (nodes d)))); simpl.
  - apply children_within_all.
  - unfold prune_fuel. fold (all_children (nodes d)).
    pose proof (size_list_to_set_le (all_children (nodes d))).
    assert (Hsub : list_to_set (all_children (nodes d)) ∖
         (prune_seed_array_join (nodes d) (prune_seed_index (index d))).1
         ⊆ (list_to_set (all_children (nodes d)) : gset nat)) by set_solver.
    apply subseteq_size in Hsub. lia.
Qed.


(** *** Seeds *)

Lemma prune_seed_index_spec idx :
  (∀ a, a ∈ (prune_seed_index idx).1 ↔ a ∈ idx) ∧
  (∀ a, a ∈ (prune_seed_index idx).2 ↔ a ∈ idx).
Proof.
  unfold prune_seed_index.
  assert (H : ∀ V s, (∀ a, a ∈ (foldl push_visit (V, s) idx).1 ↔ a ∈ V ∨ a ∈ idx) ∧
                     (∀ a, a ∈ (foldl push_visit (V, s) idx).2 ↔ a ∈ s ∨ a ∈ idx)).
  { induction idx as [|x idx IH]; intros V s; cbn [foldl].
    - split; intros a; rewrite elem_of_nil; tauto.
    - destruct (IH ({[x]} ∪ V) (x :: s)) as [H1 H2]. unfold push_visit at 2 4. simpl.
      split; intros a; rewrite ?H1, ?H2, ?elem_of_union, ?elem_of_singleton, ?elem_of_cons; tauto. }
  destruct (H ∅ []) as [H1 H2].
  split; intros a; rewrite ?H1, ?H2, ?elem_of_nil, ?elem_of_empty; tauto.
Qed.

Lemma is_array_join_cons b m ns a :
  is_array_join ((b, m) :: ns) a ↔ (a = b ∧ type m = ARRAY_JOIN) ∨ is_array_join ns a.
Proof.
  unfold is_array_join. split.
  - intros (n & Hin & Hn). apply elem_of_cons in Hin as [Heq|Hin]; simplify_eq.
    + by left.
    + right. by exists n.
  - intros [[-> Hm]|(n & Hin & Hn)].
    + exists m. split; [left | done].
    + exists n. split; [by right | done].
Qed.

Lemma prune_seed_array_join_spec ns V s :
  (∀ a, a ∈ (prune_seed_array_join ns (V, s)).1 ↔ a ∈ V ∨ is_array_join ns a) ∧
  (∀ a, a ∈ (prune_seed_array_join ns (V, s)).2 → a ∈ s ∨ is_array_join ns a) ∧
  (∀ a, a ∈ s ∨ (¬ a ∈ V) ∧ is_array_join ns a → a ∈ (prune_seed_array_join ns (V, s)).2).
Proof.
  unfold prune_seed_array_join.
  revert V s. induction ns as [|[b m] ns IH]; intros V s; cbn [foldl].
  - split; [|split]; intros a; unfold is_array_join; cbn [fst snd].
    + split; [by left|]. intros [?|(n & Hin & _)]; [done|]. by apply elem_of_nil in Hin.
    + by left.
    + intros [?|(_ & n & Hin & _)]; [done|]. by apply elem_of_nil in Hin.
  - cbn [fst snd]. destruct (decide (type m = ARRAY_JOIN)) as [Ht|Ht].
    + rewrite push_unvisited_eq. destruct (decide (b ∈ V)) as [Hb|Hb].
      * destruct (IH V s) as (H1 & H2 & H3).
        split; [|split]; intros a; rewrite ?H1, is_array_join_cons.
        -- split; [tauto|]. intros [?|[[-> _]|?]]; tauto.
        -- intros Ha. destruct (H2 a Ha); tauto.
        -- intros [Ha|(Ha & [[-> _]|Hn])]; apply H3; tauto.
      * destruct (IH ({[b]} ∪ V) (b :: s)) as (H1 & H2 & H3).
        split; [|split]; intros a; rewrite ?H1, is_array_join_cons, ?elem_of_union,
          ?elem_of_singleton.
        -- tauto.
        -- intros Ha. destruct (H2 a Ha) as [Hin|?]; [|tauto].
           apply elem_of_cons in Hin as [->|?]; tauto.
        -- intros Ha. apply H3. rewrite elem_of_cons, elem_of_union, elem_of_singleton.
           destruct (decide (a = b)); tauto.
    + destruct (IH V s) as (H1 & H2 & H3).
      split; [|split]; intros a; rewrite ?H1, is_array_join_cons.
      * tauto.
      * intros Ha. destruct (H2 a Ha); tauto.
      * intros Ha. apply H3. tauto.
Qed.


(** *** Invariants of the traversal *)

Lemma prune_loop_ind (P : PruneState → Prop) fuel st :
  (∀ st', P st' → stack st' ≠ [] → P (prune_step st')) →
  P st → P (prune_loop fuel st).
Proof.
  intros Hstep. revert st. induction fuel as [|fuel IH]; intros st HP; simpl; [done|].
  destruct (stack st) eqn:Hs; [done|]. apply IH, Hstep; [done|]. by rewrite Hs.
Qed.

Lemma foldable_fold_node n : foldable (fold_node n) = false.
Proof. done. Qed.

Lemma reach_mono idx aj ns ns' a :
  (∀ b n, deref ns b = Some n → foldable n = false → deref ns' b = Some n) →
  reach idx aj ns a → reach idx aj ns' a.
Proof.
  intros Hns. induction 1 as [| |b n a _ IH Hd Hf Hc].
  - by apply reach_index.
  - by apply reach_array_join.
  - eapply reach_child; eauto.
Qed.

Lemma Forall2_update_fold ns0 ns a n :
  Forall2 folded_from ns0 ns → deref ns a = Some n → foldable n = true →
  Forall2 folded_from ns0 (update ns a fold_node).
Proof.
  induction 1 as [|[b0 m0] [b m] ns0 ns Hpq HF IH]; simpl; [constructor|].
  destruct Hpq as [Hb Hm]. simpl in *. subst b.
  destruct (decide (a = b0)) as [->|Hab]; intros Hd Hf.
  - simplify_eq. constructor; [|done]. split; [done|]. simpl.
    destruct Hm as [->|[_ ->]]; [by right|]. by rewrite foldable_fold_node in Hf.
  - constructor; [by split | by apply IH].
Qed.

Lemma prune_inv_step idx aj ns0 st :
  prune_inv idx aj ns0 st → stack st ≠ [] → prune_inv idx aj ns0 (prune_step st).
Proof.
  intros [Hstack Hseed Hclosed Hreach Hshape] Hne.
  unfold prune_step. destruct (stack st) as [|node rest] eqn:Hs; [done|]. clear Hne.
  assert (Hnode : node ∈ visited_nodes st) by (apply Hstack; left).
  destruct (deref (p_nodes st) node) as [n|] eqn:Hd.
  - destruct (push_unvisited_fold (visited_nodes st) rest
               (if foldable n then [] else children n)) as [HV (news & Hnews & Hfrom)].
    set (vs := foldl push_unvisited (visited_nodes st, rest)
                 (if foldable n then [] else children n)) in *.
    assert (Hmono : ∀ a, a ∈ visited_nodes st → a ∈ vs.1) by (rewrite HV; set_solver).
    assert (Hder : ∀ b m, deref (p_nodes st) b = Some m → foldable m = false →
              deref (if foldable n then update (p_nodes st) node fold_node else p_nodes st) b
              = Some m).
    { intros b m Hb Hm. destruct (foldable n) eqn:Hf; [|done].
      rewrite deref_update. destruct (decide (b = node)) as [->|]; [|done].
      rewrite Hd in Hb. simplify_eq. congruence. }
    split; simpl.
    + intros a Ha. rewrite Hnews in Ha. apply elem_of_app in Ha as [Ha|Ha].
      * rewrite HV. apply Hfrom in Ha as [Hin _]. apply elem_of_union_r.
        by apply elem_of_list_to_set.
      * apply Hmono, Hstack. by right.
    + intros a Ha. by apply Hmono, Hseed.
    + intros b m Hb Hnot Hm.
      destruct (decide (b = node)) as [->|Hbn].
      * destruct (foldable n) eqn:Hf.
        -- rewrite deref_update, decide_True, Hd in Hm by done. simpl in Hm.
           injection Hm as <-.
           split; [apply foldable_fold_node|]. intros c Hc. by apply elem_of_nil in Hc.
        -- rewrite Hd in Hm. simplify_eq. split; [done|]. intros c Hc.
           rewrite HV. apply elem_of_union_r. by apply elem_of_list_to_set.
      * assert (Hm' : deref (p_nodes st) b = Some m).
        { destruct (foldable n); [|done]. by rewrite deref_update, decide_False in Hm. }
        rewrite Hnews in Hnot. apply not_elem_of_app in Hnot as [Hnot1 Hnot2].
        assert (Hbv : b ∈ visited_nodes st).
        { rewrite HV in Hb. apply elem_of_union in Hb as [|Hb]; [done|].
          apply elem_of_list_to_set in Hb. destruct (foldable n) eqn:Hf;
            [by apply elem_of_nil in Hb|].
          destruct (decide (b ∈ visited_nodes st)) as [|Hnv]; [done|].
          exfalso. apply Hnot1, Hfrom. by split. }
        destruct (Hclosed b m Hbv) as [Hf Hcs]; [|done|].
        { apply not_elem_of_cons. done. }
        split; [done|]. intros c Hc. by apply Hmono, Hcs.
    + intros a Ha. rewrite HV in Ha. apply elem_of_union in Ha as [Ha|Ha].
      * eapply reach_mono; [exact Hder | by apply Hreach].
      * apply elem_of_list_to_set in Ha. destruct (foldable n) eqn:Hf;
          [by apply elem_of_nil in Ha|].
        eapply (reach_child _ _ _ node); [by apply Hreach | exact Hd | done | done].
    + destruct (foldable n) eqn:Hf; [|done]. by eapply Forall2_update_fold.
  - split; simpl.
    + intros a Ha. apply Hstack. by right.
    + done.
    + intros b m Hb Hnot Hm. destruct (decide (b = node)) as [->|Hbn]; [congruence|].
      apply (Hclosed b m); [done| |done]. by apply not_elem_of_cons.
    + done.
    + done.
Qed.


Lemma filter_all {A} (P : A → Prop) `{∀ x, Decision (P x)} (l : list A) :
  (∀ x, x ∈ l → P x) → filter P l = l.
Proof.
  induction l as [|x l IH]; intros HP; [done|].
  rewrite filter_cons_True by (apply HP; left).
  f_equal. apply IH. intros y Hy. apply HP. by right.
Qed.

Lemma folded_from_keep ns0 ns a n :
  Forall2 folded_from ns0 ns → (a, n) ∈ ns0 → foldable n = false → (a, n) ∈ ns.
Proof.
  induction 1 as [|[b0 m0] [b m] ns0 ns [Hb Hm] HF IH]; intros Hin Hf.
  - by apply elem_of_nil in Hin.
  - simpl in *. subst b. apply elem_of_cons in Hin as [Heq|Hin]; simplify_eq.
    + destruct Hm as [->|[? _]]; [left | congruence].
    + right. by apply IH.
Qed.

Lemma folded_from_origin ns0 ns a n :
  Forall2 folded_from ns0 ns → (a, n) ∈ ns →
  ∃ n0, (a, n0) ∈ ns0 ∧ (n = n0 ∨ (foldable n0 = true ∧ n = fold_node n0)).
Proof.
  induction 1 as [|[b0 m0] [b m] ns0 ns [Hb Hm] HF IH]; intros Hin.
  - by apply elem_of_nil in Hin.
  - simpl in *. subst b. apply elem_of_cons in Hin as [Heq|Hin]; simplify_eq.
    + exists m0. split; [left | done].
    + destruct (IH Hin) as (n0 & ? & ?). exists n0. split; [by right | done].
Qed.

Lemma folded_from_refl ns : Forall2 folded_from ns ns.
Proof. apply Forall2_same_length_lookup_2; [done|]. intros i p q ? ?. simplify_eq. split; [done | by left]. Qed.

Lemma prune_inv_init d :
  let seed := prune_seed_array_join (nodes d) (prune_seed_index (index d)) in
  prune_inv (index d) (is_array_join (nodes d)) (nodes d)
    (mkPrune (nodes d) seed.1 seed.2).
Proof.
  intros seed. subst seed.
  destruct (prune_seed_index_spec (index d)) as [Hi1 Hi2].
  destruct (prune_seed_index (index d)) as [V s] eqn:Hseed. simpl in *.
  destruct (prune_seed_array_join_spec (nodes d) V s) as (H1 & H2 & H3).
  assert (Hall : ∀ a, a ∈ (prune_seed_array_join (nodes d) (V, s)).1 →
                      a ∈ (prune_seed_array_join (nodes d) (V, s)).2).
  { intros a Ha. apply H3. apply H1 in Ha. destruct (decide (a ∈ V)) as [HaV|HaV].
    - left. by apply Hi2, Hi1.
    - right. tauto. }
  split; simpl.
  - intros a Ha. apply H1. destruct (H2 a Ha) as [Has|?]; [left | by right].
    by apply Hi1, Hi2.
  - intros a [Ha|Ha]; apply H1; [left; by apply Hi1 | by right].
  - intros b n Hb Hnot. exfalso. by apply Hnot, Hall.
  - intros a Ha. apply H1 in Ha as [Ha|Ha].
    + apply reach_index. by apply Hi1.
    + by apply reach_array_join.
  - apply folded_from_refl.
Qed.

Lemma prune_run_inv d :
  prune_inv (index d) (is_array_join (nodes d)) (nodes d) (prune_run d).
Proof.
  unfold prune_run. apply prune_loop_ind; [apply prune_inv_step | apply prune_inv_init].
Qed.

(** Nothing is folded when no node the store gives out is foldable. *)
Lemma prune_loop_unchanged ns fuel st :
  (∀ a n, deref ns a = Some n → foldable n = false) →
  p_nodes st = ns → p_nodes (prune_loop fuel st) = ns.
Proof.
  intros Hns Hst0. apply (prune_loop_ind (fun st' => p_nodes st' = ns)); [|done].
  intros st' Hst _.
  unfold prune_step. destruct (stack st') as [|node rest]; [done|].
  destruct (deref (p_nodes st') node) as [n|] eqn:Hd; [|done]. simpl.
  rewrite Hst in Hd. by rewrite (Hns _ _ Hd).
Qed.

(** C6.  removeUnusedActions() is idempotent: on a DAG whose ARRAY_JOIN
    nodes are not foldable (addArrayJoin gives them no column), a second
    prune leaves the nodes, the inputs, the index and the settings exactly
    as the first one produced them. *)
Theorem removeUnusedActions_idempotent d :
  (∀ a n, (a, n) ∈ nodes d → type n = ARRAY_JOIN → foldable n = false) →
  removeUnusedActions_dag (removeUnusedActions_dag d) = removeUnusedActions_dag d.
Proof.
  intros Haj.
  pose proof (prune_run_inv d) as [_ Hseed1 Hclosed1 Hreach1 Hshape1].
  pose proof (prune_run_stack d) as Hstack1.
  set (d1 := removeUnusedActions_dag d).
  pose proof (prune_run_inv d1) as [_ Hseed2 Hclosed2 _ _].
  pose proof (prune_run_stack d1) as Hstack2.
  rewrite Hstack1 in Hclosed1. rewrite Hstack2 in Hclosed2.
  set (st1 := prune_run d) in *. set (st2 := prune_run d1) in *.
  assert (Hd1 : ∀ a n, deref (nodes d1) a = Some n →
            a ∈ visited_nodes st1 ∧ deref (p_nodes st1) a = Some n).
  { intros a n. unfold d1, removeUnusedActions_dag. cbn [nodes]. fold st1.
    rewrite deref_filter. by destruct (decide (a ∈ visited_nodes st1)). }
  assert (Hnf : ∀ a n, deref (nodes d1) a = Some n → foldable n = false).
  { intros a n Hd. apply Hd1 in Hd as [Ha Hd].
    eapply Hclosed1; [done | apply not_elem_of_nil | done]. }
  assert (Hsame : p_nodes st2 = nodes d1).
  { unfold st2, prune_run. by apply prune_loop_unchanged. }
  assert (Hsub : ∀ a, reach (index d) (is_array_join (nodes d)) (p_nodes st1) a →
            a ∈ visited_nodes st1 ∧ a ∈ visited_nodes st2).
  { induction 1 as [a Ha|a Ha|b n a _ [IH1 IH2] Hd Hf Hc].
    - split; [apply Hseed1 | apply Hseed2]; by left.
    - split; [apply Hseed1; by right|]. apply Hseed2. right.
      destruct Ha as (n & Hin & Hn). exists n. split; [|done].
      unfold d1, removeUnusedActions_dag. cbn [nodes]. fold st1.
      apply list_elem_of_filter. split; [apply Hseed1; right; by exists n|].
      eapply folded_from_keep; eauto.
    - split.
      + eapply Hclosed1; [exact IH1 | apply not_elem_of_nil | exact Hd | done].
      + eapply (Hclosed2 b n); [done | apply not_elem_of_nil | | done].
        rewrite Hsame. unfold d1, removeUnusedActions_dag. cbn [nodes]. fold st1.
        rewrite deref_filter. by rewrite decide_True. }
  assert (HV : ∀ a, a ∈ visited_nodes st1 → a ∈ visited_nodes st2).
  { intros a Ha. by apply Hsub, Hreach1. }
  unfold removeUnusedActions_dag at 1. fold st2. rewrite Hsame.
  subst d1. unfold removeUnusedActions_dag. fold st1. cbn [nodes index inputs settings].
  f_equal.
  - apply filter_all. intros [a n] Hin. apply list_elem_of_filter in Hin as [Hin _].
    by apply HV.
  - apply filter_all. intros a Hin. apply list_elem_of_filter in Hin as [Hin _].
    by apply HV.
Qed.


Lemma folded_from_addrs ns0 ns : Forall2 folded_from ns0 ns → ns.*1 = ns0.*1.
Proof.
  induction 1 as [|p q ns0 ns [Hb _] _ IH]; [done|]. csimpl. by rewrite Hb, IH.
Qed.

Lemma folded_from_image ns0 ns a n :
  Forall2 folded_from ns0 ns → (a, n) ∈ ns0 → ∃ n', (a, n') ∈ ns.
Proof.
  intros HF Hin. apply folded_from_addrs in HF.
  assert (Ha : a ∈ ns.*1).
  { rewrite HF. apply list_elem_of_fmap. by exists (a, n). }
  apply list_elem_of_fmap in Ha as ([b n'] & -> & Hin'). by exists n'.
Qed.

Lemma prune_call_cases d r :
  prune_call d r →
  r = (Throw UNKNOWN_IDENTIFIER, d) ∨
  ∃ idx, r = (Ok tt, removeUnusedActions_dag (mkDAG (nodes d) idx (inputs d) (settings d))).
Proof.
  destruct 1 as [|req|names].
  - right. exists (index d). by destruct d.
  - right. by eexists.
  - unfold removeUnusedActions_names.
    destruct (resolve_required _ _ _ _ _) as [req|e] eqn:Hres.
    + right. by eexists.
    + left. f_equal. f_equal. revert Hres. generalize (∅ : gset nat) ([] : list nat).
      induction names as [|name names IH]; intros S l; simpl; [done|].
      destruct (Index_find _ _ _); [|congruence]. destruct (decide _); apply IH.
Qed.

Lemma array_join_kept d a n :
  (a, n) ∈ nodes d → type n = ARRAY_JOIN →
  a ∈ (nodes (removeUnusedActions_dag d)).*1 ∧
  (foldable n = false → (a, n) ∈ nodes (removeUnusedActions_dag d)).
Proof.
  intros Hin Hty.
  pose proof (prune_run_inv d) as [_ Hseed _ _ Hshape].
  assert (Ha : a ∈ visited_nodes (prune_run d)).
  { apply Hseed. right. by exists n. }
  unfold removeUnusedActions_dag. cbn [nodes]. split.
  - destruct (folded_from_image _ _ _ _ Hshape Hin) as [n' Hin'].
    apply list_elem_of_fmap. exists (a, n'). split; [done|].
    by apply list_elem_of_filter.
  - intros Hf. apply list_elem_of_filter. split; [done|].
    by eapply folded_from_keep.
Qed.

(** C5.  Whichever of the three entry points of removeUnusedActions is
    called, and whether it returns or throws, every ARRAY_JOIN node of the
    store is still in the store afterwards, reachable from the index or
    not; it is there unchanged unless it was a node the traversal folds. *)
Theorem array_join_preserved d r a n :
  prune_call d r →
  (a, n) ∈ nodes d → type n = ARRAY_JOIN →
  a ∈ (nodes r.2).*1 ∧ (foldable n = false → (a, n) ∈ nodes r.2).
Proof.
  intros Hcall Hin Hty. apply prune_call_cases in Hcall as [->|[idx ->]]; cbn [snd].
  - split; [|done]. apply list_elem_of_fmap. by exists (a, n).
  - by apply (array_join_kept (mkDAG (nodes d) idx (inputs d) (settings d))).
Qed.

Lemma no_foldable_left d a n :
  NoDup (nodes d).*1 →
  (a, n) ∈ nodes (removeUnusedActions_dag d) →
  foldable n = false ∧
  ∃ n0, (a, n0) ∈ nodes d ∧
    ((foldable n0 = false ∧ n = n0) ∨ (foldable n0 = true ∧ n = fold_node n0)).
Proof.
  intros Hnd Hin.
  pose proof (prune_run_inv d) as [_ _ Hclosed _ Hshape].
  rewrite prune_run_stack in Hclosed.
  unfold removeUnusedActions_dag in Hin. cbn [nodes] in Hin.
  apply list_elem_of_filter in Hin as [Ha Hin]. simpl in Ha.
  assert (Hf : foldable n = false).
  { eapply (Hclosed a n); [done | apply not_elem_of_nil|].
    apply In_deref_NoDup; [|done]. by rewrite (folded_from_addrs _ _ Hshape). }
  split; [done|].
  destruct (folded_from_origin _ _ _ _ Hshape Hin) as (n0 & Hin0 & [->|[Hf0 ->]]).
  - exists n0. split; [done|]. by left.
  - exists n0. split; [done|]. by right.
Qed.

Lemma foldable_false n :
  foldable n = false ↔
  ¬ (children n ≠ [] ∧ is_const (column n) = true ∧ allow_constant_folding n = true).
Proof.
  unfold foldable. rewrite !andb_false_iff, negb_false_iff, bool_decide_eq_true.
  destruct (is_const (column n)), (allow_constant_folding n);
    destruct (decide (children n = [])); intuition congruence.
Qed.

(** C10.  After a removeUnusedActions call has returned, no node left in
    the store has children, a constant column and allow_constant_folding
    at once: every node left is an original node that did not meet the
    three conditions, or an original node that met them, rewritten in place
    to kind COLUMN with its children cleared. *)
Theorem no_foldable_node_after_prune d d' a n :
  NoDup (nodes d).*1 →
  prune_call d (Ok tt, d') →
  (a, n) ∈ nodes d' →
  ¬ (children n ≠ [] ∧ is_const (column n) = true ∧ allow_constant_folding n = true) ∧
  ∃ n0, (a, n0) ∈ nodes d ∧
    ((foldable n0 = false ∧ n = n0) ∨
     (foldable n0 = true ∧ n = fold_node n0 ∧ type n = COLUMN ∧ children n = [])).
Proof.
  intros Hnd Hcall Hin. apply prune_call_cases in Hcall as [?|[idx ?]]; simplify_eq.
  destruct (no_foldable_left (mkDAG (nodes d) idx (inputs d) (settings d)) a n Hnd Hin)
    as (Hf & n0 & Hin0 & Hcase).
  split; [by apply foldable_false|]. exists n0. split; [done|].
  destruct Hcase as [?|[? ->]]; [by left | by right].
Qed.

End PruneFacts.

(** ** The builders *)

Section BuilderFacts.
Context `{RT : Runtime}.
Implicit Types (ns : list (nat * Node)) (a b : nat) (n : Node) (d : ActionsDAG).

Lemma Index_find_is_Some ns idx name :
  is_Some (Index_find ns idx name) ↔ ∃ a, a ∈ idx ∧ name_of ns a = Some name.
Proof.
  unfold Index_find, has_name. split.
  - intros [a Ha]. destruct (list_find _ idx) as [[i b]|] eqn:Hf; [|done].
    simpl in Ha. simplify_eq. apply list_find_Some in Hf as (Hi & Hb & _).
    exists a. split; [by eapply list_elem_of_lookup_2|].
    by apply bool_decide_eq_true in Hb.
  - intros (a & Hin & Hn).
    destruct (list_find_elem_of (fun a => bool_decide (name_of ns a = Some name) = true)
                idx a Hin) as [[i b] ->]; [by apply bool_decide_eq_true|].
    by eexists.
Qed.

Lemma fresh_addr_gt ns a : a ∈ ns.*1 → a < fresh_addr ns.
Proof.
  unfold fresh_addr. induction ns as [|[b m] ns IH]; csimpl; intros Hin.
  - by apply elem_of_nil in Hin.
  - apply elem_of_cons in Hin as [->|Hin]; [lia|]. specialize (IH Hin). lia.
Qed.

Lemma fresh_addr_fresh ns : fresh_addr ns ∉ ns.*1.
Proof. intros Hin. apply fresh_addr_gt in Hin. lia. Qed.

Lemma deref_app ns ns' a :
  deref (ns ++ ns') a = match deref ns a with Some n => Some n | None => deref ns' a end.
Proof.
  induction ns as [|[b m] ns IH]; simpl; [done|]. by destruct (decide (a = b)).
Qed.

Lemma deref_None' ns a : a ∉ ns.*1 → deref ns a = None.
Proof.
  induction ns as [|[b m] ns IH]; csimpl; [done|]. intros Hn.
  apply not_elem_of_cons in Hn as [? ?]. rewrite decide_False by done. auto.
Qed.

Lemma deref_push_fresh ns n : deref (ns ++ [(fresh_addr ns, n)]) (fresh_addr ns) = Some n.
Proof.
  rewrite deref_app, deref_None' by apply fresh_addr_fresh. simpl.
  by rewrite decide_True.
Qed.

Lemma deref_push_old ns a n n' :
  deref ns a = Some n → deref (ns ++ [(fresh_addr ns, n')]) a = Some n.
Proof. intros Hd. by rewrite deref_app, Hd. Qed.

(** What a successful addNode does. *)
Lemma addNode_Ok node can_replace d res d' :
  addNode node can_replace d = (Ok res, d') →
  res = fresh_addr (nodes d) ∧
  nodes d' = nodes d ++ [(res, node)] ∧
  inputs d' = (if decide (type node = INPUT) then inputs d ++ [res] else inputs d) ∧
  settings d' = settings d ∧
  deref (nodes d') res = Some node.
Proof.
  unfold addNode. destruct (_ && _); intros Heq; simplify_eq. simpl.
  repeat split; try done. apply deref_push_fresh.
Qed.

Lemma addNode_can_replace node d :
  ∃ d', addNode node true d = (Ok (fresh_addr (nodes d)), d').
Proof. unfold addNode. rewrite andb_false_r. by eexists. Qed.

(** C9.  addNode with can_replace = false throws DUPLICATE_COLUMN exactly
    when the index has an entry named node.result_name; it throws nothing
    else, and when it throws the DAG (nodes, inputs, index) is unchanged. *)
Theorem addNode_duplicate_column node d :
  ((addNode node false d).1 = Throw DUPLICATE_COLUMN ↔
     ∃ a, a ∈ index d ∧ name_of (nodes d) a = Some (result_name node)) ∧
  (∀ e, (addNode node false d).1 = Throw e →
     e = DUPLICATE_COLUMN ∧
     nodes (addNode node false d).2 = nodes d ∧
     inputs (addNode node false d).2 = inputs d ∧
     index (addNode node false d).2 = index d ∧
     (addNode node false d).2 = d).
Proof.
  rewrite <- Index_find_is_Some. unfold addNode. rewrite andb_true_r.
  destruct (bool_decide (is_Some _)) eqn:Hb; simpl.
  - apply bool_decide_eq_true in Hb. split; [done|]. intros e [= <-]. done.
  - apply bool_decide_eq_false in Hb. split; [|done]. split; [done|]. intros H. done.
Qed.

(** C4 *)
Lemma execute_on_constants_Some compile fb fn arguments rt c :
  execute_on_constants compile fb fn arguments rt = Some c ↔
  all_const arguments = true ∧ isSuitableForConstantFolding fb = true ∧
  (compile = false ∨ isDeterministic fb = true) ∧
  isColumnConst (execute fn arguments rt (num_rows_of arguments) true) = true ∧
  c = (if bool_decide (size_of (execute fn arguments rt (num_rows_of arguments) true) = 0)
       then cloneResized (execute fn arguments rt (num_rows_of arguments) true) 1
       else execute fn arguments rt (num_rows_of arguments) true).
Proof.
  unfold execute_on_constants.
  destruct (all_const arguments), (isSuitableForConstantFolding fb), compile,
    (isDeterministic fb); simpl;
    destruct (isColumnConst _); split; intros H; simplify_eq; try done;
    try (destruct H as (? & ? & [?|?] & ? & ?); simplify_eq; done);
    try (repeat split; try done; auto).
Qed.

(** C4, as amended.  addFunction stores the column obtained by executing
    the function exactly when every argument is a constant column, the
    function is suitable for constant folding, compilation is disabled or
    the function is deterministic, and the executed result is itself a
    constant; the stored column is that result, resized to one row when it
    has none.  Otherwise the node gets only what
    getResultIfAlwaysReturnsConstantAndHasArguments gives for a suitable
    function. *)
Theorem addFunction_constant_folding func child_addrs name can_replace d child_nodes :
  mapM (deref (nodes d)) child_addrs = Some child_nodes →
  let arguments := argument_of <$> child_nodes in
  let fb := build func arguments in
  let fn := prepare fb arguments in
  let col := execute fn arguments (getResultType fb) (num_rows_of arguments) true in
  let folded :=
    execute_on_constants (compile_expressions (settings d)) fb fn arguments
      (getResultType fb) in
  (is_Some folded ↔
     all_const arguments = true ∧ isSuitableForConstantFolding fb = true ∧
     (compile_expressions (settings d) = false ∨ isDeterministic fb = true) ∧
     isColumnConst col = true) ∧
  (∀ c res d',
     folded = Some c →
     addFunction func child_addrs name can_replace d = (Ok res, d') →
     c = (if bool_decide (size_of col = 0) then cloneResized col 1 else col) ∧
     ∃ n, deref (nodes d') res = Some n ∧ type n = FUNCTION ∧ column n = Some c) ∧
  (∀ res d' n,
     folded = None →
     addFunction func child_addrs name can_replace d = (Ok res, d') →
     deref (nodes d') res = Some n →
     column n =
       if isSuitableForConstantFolding fb
       then getResultIfAlwaysReturnsConstantAndHasArguments fb arguments
       else None).
Proof.
  intros Hch arguments fb fn col folded. split; [|split].
  - split.
    + intros [c Hc]. apply execute_on_constants_Some in Hc. tauto.
    + intros (? & ? & ? & ?). eexists. apply execute_on_constants_Some.
      repeat split; done.
  - intros c res d' Hc Hadd. pose proof Hc as Hc'.
    apply execute_on_constants_Some in Hc' as (_ & _ & _ & _ & ->).
    split; [done|]. unfold addFunction in Hadd. rewrite Hch in Hadd.
    apply addNode_Ok in Hadd as (_ & _ & _ & _ & Hd).
    eexists. split; [exact Hd|]. unfold function_node.
    fold arguments fb fn. fold folded. rewrite Hc. done.
  - intros res d' n Hnone Hadd Hd. unfold addFunction in Hadd. rewrite Hch in Hadd.
    apply addNode_Ok in Hadd as (_ & _ & _ & _ & Hd'). rewrite Hd' in Hd.
    injection Hd as <-. unfold function_node. fold arguments fb fn. fold folded.
    rewrite Hnone. destruct (isSuitableForConstantFolding fb); [|done].
    by destruct (getResultIfAlwaysReturnsConstantAndHasArguments fb arguments).
Qed.

End BuilderFacts.

(** ** Converting actions *)

Section ConvertFacts.
Context `{RT : Runtime}.
Variable func_builder_materialize : FunctionOverloadResolver.
Variable CastOverloadResolver_createImpl : string * string -> FunctionOverloadResolver.
Implicit Types (ns : list (nat * Node)) (a b : nat) (d : ActionsDAG).

(** The functions of the model at the resolvers of this section. *)
Abbreviation convert_loop :=
  (convert_columns func_builder_materialize CastOverloadResolver_createImpl).
Abbreviation make_converting :=
  (makeConvertingActions func_builder_materialize CastOverloadResolver_createImpl).
Abbreviation cast_step := (add_cast CastOverloadResolver_createImpl).
Abbreviation materialize_step := (add_materialize func_builder_materialize).

Lemma extends_refl d : extends d d.
Proof. by split. Qed.

Lemma extends_trans d1 d2 d3 : extends d1 d2 → extends d2 d3 → extends d1 d3.
Proof. intros [H1 H2] [H3 H4]. split; [congruence | auto]. Qed.

Lemma addNode_extends node can_replace d res d' :
  type node ≠ INPUT → addNode node can_replace d = (Ok res, d') → extends d d'.
Proof.
  intros Hty Hadd. apply addNode_Ok in Hadd as (-> & Hn & Hi & _ & _).
  split.
  - by rewrite Hi, decide_False.
  - intros a n Hd. rewrite Hn. by apply deref_push_old.
Qed.

Lemma addColumn_extends col can_replace d res d' :
  addColumn col can_replace d = (Ok res, d') → extends d d'.
Proof.
  unfold addColumn. destruct (c_column col); [|done].
  intros H. eapply addNode_extends; [|exact H]. simpl. congruence.
Qed.

Lemma addFunction_extends func cs name can_replace d res d' :
  addFunction func cs name can_replace d = (Ok res, d') → extends d d'.
Proof.
  unfold addFunction. destruct (mapM _ _); [|done].
  intros H. eapply addNode_extends; [|exact H]. simpl. congruence.
Qed.

Lemma addAlias_node_extends child alias can_replace d res d' :
  addAlias_node child alias can_replace d = (Ok res, d') → extends d d'.
Proof.
  unfold addAlias_node, bind, node_at. destruct (deref _ _); [|done].
  intros H. eapply addNode_extends; [|exact H]. simpl. congruence.
Qed.

Lemma check_constants_extends res_elem src icv d res d' :
  check_constants res_elem src icv d = (Ok res, d') → extends d d'.
Proof.
  unfold check_constants, bind, node_at, ret, throw.
  destruct (c_column res_elem) as [rc|]; [|intros; simplify_eq; apply extends_refl].
  destruct (isColumnConst rc); [|intros; simplify_eq; apply extends_refl].
  destruct (deref _ _) as [s|]; [|done].
  destruct (column s) as [sc|]; [|done].
  destruct (isColumnConst sc); [|done].
  destruct icv; [apply addColumn_extends|].
  destruct (negb _); [done|]. intros; simplify_eq; apply extends_refl.
Qed.

Lemma add_cast_extends res_elem src d res d' :
  cast_step res_elem src d = (Ok res, d') → extends d d'.
Proof.
  unfold add_cast, bind, node_at, ret.
  destruct (deref _ _) as [s|]; [|done].
  destruct (negb _); [|intros; simplify_eq; apply extends_refl].
  destruct (addColumn _ _ _) as [[right_arg|e] d1] eqn:Hc; [|done].
  intros Hf. eapply extends_trans; [by eapply addColumn_extends | by eapply addFunction_extends].
Qed.

Lemma add_materialize_extends res_elem src d res d' :
  materialize_step res_elem src d = (Ok res, d') → extends d d'.
Proof.
  unfold add_materialize, bind, node_at, ret.
  destruct (deref _ _) as [s|]; [|done].
  destruct (_ && _); [apply addFunction_extends|intros; simplify_eq; apply extends_refl].
Qed.

Lemma add_rename_extends res_elem src d res d' :
  add_rename res_elem src d = (Ok res, d') → extends d d'.
Proof.
  unfold add_rename, bind, node_at, ret.
  destruct (deref _ _) as [s|]; [|done].
  destruct (bool_decide _); [apply addAlias_node_extends|intros; simplify_eq; apply extends_refl].
Qed.

Lemma select_source_state mode r n m d x d' :
  select_source mode r n m d = (x, d') → d' = d.
Proof.
  unfold select_source. destruct mode.
  - destruct (inputs d !! n); intros; by simplify_eq.
  - destruct (default [] _) as [|front rest]; [intros; by simplify_eq|].
    destruct (inputs d !! front); intros; by simplify_eq.
Qed.



Lemma convert_columns_extends mode icv result n m d proj d' :
  convert_loop mode icv result n m d = (Ok proj, d') → extends d d'.
Proof.
  revert n m d proj. induction result as [|r rest IH]; intros n m d proj; simpl.
  - unfold ret. intros; simplify_eq. apply extends_refl.
  - unfold bind.
    destruct (select_source mode r n m d) as [[sel|e] d1] eqn:Hsel; [|done].
    apply select_source_state in Hsel as ->.
    destruct (check_constants _ _ _ _) as [[s1|e] d2] eqn:H1; [|done].
    destruct (cast_step _ _ _) as [[s2|e] d3] eqn:H2; [|done].
    destruct (materialize_step _ _ _) as [[s3|e] d4] eqn:H3; [|done].
    destruct (add_rename _ _ _) as [[s4|e] d5] eqn:H4; [|done].
    destruct (convert_loop _ _ rest _ _ _) as [[p|e] d6] eqn:H5; [|done].
    unfold ret. intros; simplify_eq.
    apply check_constants_extends in H1. apply add_cast_extends in H2.
    apply add_materialize_extends in H3. apply add_rename_extends in H4.
    apply IH in H5. eauto using extends_trans.
Qed.



Lemma construct_inputs_spec source d :
  ∃ d' addrs,
    construct_inputs source d = (Ok tt, d') ∧
    (∀ a n, deref (nodes d) a = Some n → deref (nodes d') a = Some n) ∧
    inputs d' = inputs d ++ addrs ∧
    Forall2 (fun a c => ∃ n, deref (nodes d') a = Some n ∧ type n = INPUT ∧
                             result_name n = c_name c ∧ result_type n = c_type c)
      addrs source.
Proof.
  revert d. induction source as [|c source IH]; intros d.
  - exists d, []. simpl. unfold ret. rewrite app_nil_r. repeat split; [auto | constructor].
  - cbn [construct_inputs]. unfold bind.
    set (node := if is_const (c_column c)
                 then set_column (new_Node INPUT (c_name c) (c_type c)) (c_column c)
                 else new_Node INPUT (c_name c) (c_type c)).
    assert (Hnode : (if is_const (c_column c) then addInput_column c true
                     else addInput (c_name c) (c_type c) true) d = addNode node true d).
    { unfold node, addInput_column, addInput. by destruct (is_const (c_column c)). }
    rewrite Hnode. destruct (addNode_can_replace node d) as [d1 Hadd]. rewrite Hadd.
    apply addNode_Ok in Hadd as (_ & Hn & Hi & _ & Hd).
    assert (Hty : type node = INPUT) by (unfold node; by destruct (is_const _)).
    rewrite decide_True in Hi by done.
    destruct (IH d1) as (d' & addrs & Hrun & Hold & Hin & Hall).
    exists d', (fresh_addr (nodes d) :: addrs). split; [done|]. split; [|split].
    + intros a n Ha. apply Hold. rewrite Hn. by apply deref_push_old.
    + rewrite Hin, Hi. by rewrite <- app_assoc.
    + constructor; [|done]. exists node. split; [by apply Hold|].
      split; [done|]. unfold node. by destruct (is_const _).
Qed.

Lemma build_inputs_map_spec ns l pos m name :
  default [] (build_inputs_map ns l pos m !! name) =
  default [] (m !! name) ++
    positions_of name ((fun a => default ""%string (name_of ns a)) <$> l) pos.
Proof.
  revert pos m. induction l as [|a l IH]; intros pos m; csimpl.
  - by rewrite app_nil_r.
  - rewrite IH. destruct (decide (default ""%string (name_of ns a) = name)) as [<-|Hne].
    + rewrite lookup_insert_eq. simpl. by rewrite <- app_assoc.
    + by rewrite lookup_insert_ne.
Qed.


Lemma positions_of_lookup name names p0 k pos :
  positions_of name names p0 !! k = Some pos →
  p0 ≤ pos ∧ names !! (pos - p0) = Some name.
Proof.
  revert p0 k. induction names as [|s names IH]; intros p0 k; simpl; [done|].
  destruct (decide (s = name)) as [->|Hne].
  - destruct k as [|k]; simpl.
    + intros [= <-]. split; [done|]. by rewrite Nat.sub_diag.
    + intros Hk. apply IH in Hk as [Hle Hk]. split; [lia|].
      replace (pos - p0) with (S (pos - S p0)) by lia. done.
  - intros Hk. apply IH in Hk as [Hle Hk]. split; [lia|].
    replace (pos - p0) with (S (pos - S p0)) by lia. done.
Qed.







End ConvertFacts.

(** ** merge *)

Section MergeFacts.
Context `{RT : Runtime}.
Implicit Types (ns : list (nat * Node)) (a b p : nat) (d : ActionsDAG).

Lemma foldl_Index_insert (acc l : list nat) : foldl Index_insert acc l = acc ++ l.
Proof.
  revert acc. induction l as [|x l IH]; intros acc; simpl; [by rewrite app_nil_r|].
  rewrite IH. unfold Index_insert. by rewrite <- app_assoc.
Qed.

Lemma foldl_Index_prepend (acc l : list nat) :
  foldl Index_prepend acc (reverse l) = l ++ acc.
Proof.
  revert acc. induction l as [|x l IH]; intros acc; [done|].
  rewrite reverse_cons, foldl_app. simpl. by rewrite IH.
Qed.

Lemma occurrences_cons p a idx :
  occurrences p (a :: idx) = (if decide (a = p) then 1 else 0) + occurrences p idx.
Proof. unfold occurrences. rewrite filter_cons. by destruct (decide (a = p)). Qed.

Lemma occurrences_app p l1 l2 :
  occurrences p (l1 ++ l2) = occurrences p l1 + occurrences p l2.
Proof. unfold occurrences. by rewrite filter_app, length_app. Qed.

Lemma remove_second_inputs_sublist idx (removed : gmap nat nat) :
  remove_second_inputs idx removed `sublist_of` idx.
Proof.
  revert removed. induction idx as [|cur rest IH]; intros removed; simpl; [done|].
  destruct (removed !! cur) as [[|k]|]; by constructor.
Qed.

Lemma remove_second_inputs_occurrences idx (removed : gmap nat nat) p :
  occurrences p (remove_second_inputs idx removed)
  = occurrences p idx - default 0 (removed !! p).
Proof.
  revert removed. induction idx as [|cur rest IH]; intros removed; simpl; [done|].
  rewrite occurrences_cons.
  destruct (removed !! cur) as [[|k]|] eqn:Hcur.
  - rewrite occurrences_cons, IH. destruct (decide (cur = p)) as [->|]; [|done].
    rewrite Hcur. simpl. lia.
  - rewrite IH. destruct (decide (cur = p)) as [->|Hne].
    + rewrite lookup_insert_eq, Hcur. simpl. lia.
    + by rewrite lookup_insert_ne.
  - rewrite occurrences_cons, IH. destruct (decide (cur = p)) as [->|]; [|done].
    rewrite Hcur. simpl. lia.
Qed.

Lemma build_first_result_spec ns idx s :
  default [] (build_first_result ns idx !! s) = filter (fun a => key_of ns a = s) idx.
Proof.
  unfold build_first_result.
  assert (H : ∀ m : gmap string (list nat),
    default [] (foldl (fun m node =>
        <[default ""%string (name_of ns node) :=
            default [] (m !! default ""%string (name_of ns node)) ++ [node]]> m) m idx !! s)
    = default [] (m !! s) ++ filter (fun a => key_of ns a = s) idx).
  { induction idx as [|a idx IH]; intros m; cbn [foldl]; [by rewrite app_nil_r|].
    rewrite IH, filter_cons. fold (key_of ns a).
    destruct (decide (key_of ns a = s)) as [<-|Hne].
    - rewrite lookup_insert_eq. simpl. by rewrite <- app_assoc.
    - by rewrite lookup_insert_ne. }
  by rewrite H, lookup_empty.
Qed.

Lemma occurrences_filter_key ns p idx :
  occurrences p (filter (fun a => key_of ns a = key_of ns p) idx) = occurrences p idx.
Proof.
  unfold occurrences. induction idx as [|a idx IH]; [done|].
  rewrite !filter_cons. destruct (decide (a = p)) as [->|Hne].
  - rewrite decide_True by done. rewrite filter_cons, decide_True by done. simpl. by rewrite IH.
  - destruct (decide (key_of ns a = key_of ns p)); [|done].
    by rewrite filter_cons, decide_False.
Qed.

Lemma merge_inv_init ns idx first_inputs :
  merge_inv ns idx (mkMergeInputs (build_first_result ns idx) first_inputs ∅ ∅).
Proof.
  split; simpl.
  - intros s a. rewrite build_first_result_spec, list_elem_of_filter. tauto.
  - intros p. rewrite lookup_empty, build_first_result_spec, occurrences_filter_key. done.
Qed.

Lemma merge_inputs_inv ns idx fpi second_nodes second_inputs st st' :
  merge_inv ns idx st →
  merge_inputs fpi second_nodes second_inputs st = Ok st' →
  merge_inv ns idx st'.
Proof.
  revert st. induction second_inputs as [|node rest IH]; intros st Hinv; simpl.
  - by intros [= <-].
  - destruct (default [] (first_result st !! _)) as [|front queue] eqn:Hq.
    + destruct fpi; [done|]. apply IH. by destruct Hinv.
    + apply IH. destruct Hinv as [Hkey Hcount].
      set (name := default ""%string (name_of second_nodes node)) in *.
      assert (Hfront : key_of ns front = name).
      { apply (Hkey name). rewrite Hq. left. }
      split; simpl.
      * intros s a. destruct (decide (name = s)) as [<-|Hne].
        -- rewrite lookup_insert_eq. simpl. intros Ha. apply Hkey. rewrite Hq. by right.
        -- rewrite lookup_insert_ne by done. apply Hkey.
      * intros p. specialize (Hcount p). destruct (decide (front = p)) as [->|Hne].
        -- rewrite lookup_insert_eq, Hfront, lookup_insert_eq. simpl.
           rewrite Hfront, Hq, occurrences_cons, decide_True in Hcount by done. lia.
        -- rewrite lookup_insert_ne by done.
           destruct (decide (name = key_of ns p)) as [Heq|Hne'].
           ++ rewrite <- Heq, lookup_insert_eq. simpl.
              rewrite <- Heq, Hq, occurrences_cons, decide_False in Hcount by done. done.
           ++ by rewrite lookup_insert_ne.
Qed.

(** C3.  merge(first, second) when second.settings.project_input is false:
    the index before the final prune, which the prune leaves as it is, is
    the index of [second] in its order (its matched INPUT entries replaced
    by the nodes of [first] they stand for), followed by the index of
    [first] from which exactly removed_first_result[p] entries were removed
    for each node p, the others keeping their order. *)
Theorem merge_index first second m :
  project_input (settings second) = false →
  merge_before_prune first second = Ok m →
  ∃ mi,
    merge_inputs (project_input (settings first)) (nodes second) (inputs second)
      (mkMergeInputs (build_first_result (nodes first) (index first))
         (inputs first) ∅ ∅) = Ok mi ∧
    let removed := removed_first_result mi in
    let survivors := remove_second_inputs (index first) removed in
    index m
      = (replace_input (nodes second) (inputs_map mi) <$> index second) ++ survivors ∧
    survivors `sublist_of` index first ∧
    (∀ p, occurrences p survivors + default 0 (removed !! p)
          = occurrences p (index first)) ∧
    ∃ merged, merge first second = Ok merged ∧ index merged = index m.
Proof.
  intros Hproj Hm. unfold merge. rewrite Hm. revert Hm. unfold merge_before_prune.
  destruct (merge_inputs _ _ _ _) as [mi|e] eqn:Hmi; [|done].
  intros [= <-]. exists mi. split; [done|]. cbn [index].
  rewrite Hproj, foldl_Index_insert, foldl_Index_prepend. simpl.
  split; [done|]. split; [apply remove_second_inputs_sublist|]. split.
  - intros p. rewrite remove_second_inputs_occurrences.
    pose proof (merge_inputs_inv _ _ _ _ _ _ _ (merge_inv_init _ _ _) Hmi) as [_ Hcount].
    specialize (Hcount p). lia.
  - eexists. split; [done|]. done.
Qed.

End MergeFacts.

(** ** split, and merge after it *)

Section SplitFacts.
Context `{RT : Runtime}.
Implicit Types (ns : list (nat * Node)) (n m : Node) (st : SplitState)
  (data : gmap nat Data).

Lemma data_at_alter f a data b :
  data_at (alter_data f a data) b
  = if decide (b = a) then f (data_at data a) else data_at data b.
Proof.
  unfold alter_data, data_at. destruct (decide (b = a)) as [->|Hne].
  - by rewrite lookup_insert_eq.
  - by rewrite lookup_insert_ne.
Qed.

Lemma deref_snoc ns x m y :
  x ∉ ns.*1 →
  deref (ns ++ [(x, m)]) y = if decide (y = x) then Some m else deref ns y.
Proof.
  intros Hx. rewrite deref_app. destruct (decide (y = x)) as [->|Hne].
  - rewrite deref_None' by done. simpl. by rewrite decide_True.
  - simpl. rewrite decide_False by done. by destruct (deref ns y).
Qed.

Lemma deref_Some_addr ns a n : deref ns a = Some n → a ∈ ns.*1.
Proof.
  intros Hd. apply deref_Some_In in Hd. apply list_elem_of_fmap. by exists (a, n).
Qed.


Lemma same_but_needed_refl data : same_but_needed data data.
Proof. by intros a. Qed.

Lemma same_but_needed_trans data1 data2 data3 :
  same_but_needed data1 data2 → same_but_needed data2 data3 →
  same_but_needed data1 data3.
Proof.
  intros H1 H2 a. destruct (H1 a) as (? & ? & ? & ?), (H2 a) as (? & ? & ? & ?).
  repeat split; congruence.
Qed.

Lemma same_but_needed_set a data : same_but_needed data (alter_data set_needed a data).
Proof. intros b. rewrite data_at_alter. by destruct (decide (b = a)) as [->|]. Qed.

Lemma unneeded_set_lt data addrs c :
  c ∈ addrs → needed_by_split_node (data_at data c) = false →
  length (unneeded (alter_data set_needed c data) addrs) < length (unneeded data addrs).
Proof.
  intros Hin Hc. unfold unneeded. induction addrs as [|a addrs IH].
  - by apply elem_of_nil in Hin.
  - rewrite !filter_cons, data_at_alter. destruct (decide (a = c)) as [->|Hne].
    + simpl. rewrite decide_True by done. simpl.
      pose proof (length_filter
        (fun a => needed_by_split_node (data_at (alter_data set_needed c data) a) = false)
        addrs) as Hle1.
      assert (Hle : length (filter (fun a => needed_by_split_node
                      (data_at (alter_data set_needed c data) a) = false) addrs)
                    ≤ length (filter (fun a => needed_by_split_node (data_at data a) = false)
                                addrs)).
      { clear. induction addrs as [|b addrs IH]; [done|].
        rewrite !filter_cons, data_at_alter. destruct (decide (b = c)) as [->|Hne].
        - simpl. destruct (decide (needed_by_split_node (data_at data c) = false));
            simpl; lia.
        - destruct (decide (needed_by_split_node (data_at data b) = false)); simpl; lia. }
      lia.
    + apply elem_of_cons in Hin as [->|Hin]; [done|]. specialize (IH Hin).
      destruct (decide (needed_by_split_node (data_at data a) = false)); simpl; lia.
Qed.

Lemma mark_children_measure ns data rest cs :
  (∀ c, c ∈ cs → c ∈ ns.*1) →
  let st := foldl (fun (st : gmap nat Data * list nat) child =>
                     if needed_by_split_node (data_at st.1 child) then st
                     else (alter_data set_needed child st.1, child :: st.2))
              (data, rest) cs in
  length st.2 + length (unneeded st.1 ns.*1) ≤ length rest + length (unneeded data ns.*1) ∧
  same_but_needed data st.1.
Proof.
  revert data rest. induction cs as [|c cs IH]; intros data rest Hcs; cbn [foldl].
  - split; [done | apply same_but_needed_refl].
  - cbn [fst snd].
    destruct (needed_by_split_node (data_at data c)) eqn:Hc.
    + apply IH. intros x Hx. apply Hcs. by right.
    + destruct (IH (alter_data set_needed c data) (c :: rest)) as [Hle Hsame].
      { intros x Hx. apply Hcs. by right. }
      split.
      * pose proof (unneeded_set_lt data ns.*1 c) as Hlt.
        specialize (Hlt (Hcs c ltac:(left)) Hc). simpl in Hle. lia.
      * eapply same_but_needed_trans; [apply same_but_needed_set | exact Hsame].
Qed.

Lemma mark_needed_terminates ns fuel stack data :
  closed_store ns →
  length stack + length (unneeded data ns.*1) ≤ fuel →
  ∃ data', mark_needed fuel ns stack data = Some data' ∧ same_but_needed data data'.
Proof.
  intros Hclosed. revert stack data.
  induction fuel as [|fuel IH]; intros stack data Hle.
  - destruct stack; simpl in *; [|lia]. eexists. split; [done | apply same_but_needed_refl].
  - destruct stack as [|cur rest]; simpl.
    { eexists. split; [done | apply same_but_needed_refl]. }
    destruct (mark_children_measure ns data rest (children_at ns cur)) as [Hm Hsame].
    { unfold children_at. destruct (deref ns cur) as [n|] eqn:Hd.
      - intros c Hc. by eapply Hclosed.
      - intros c Hc. by apply elem_of_nil in Hc. }
    edestruct IH as (data' & Hrun & Hsame'); [|eexists; split; [exact Hrun|]].
    + simpl in Hle. cbv zeta in Hm. lia.
    + eapply same_but_needed_trans; [exact Hsame | exact Hsame'].
Qed.

Lemma unneeded_length data addrs : length (unneeded data addrs) ≤ length addrs.
Proof. apply length_filter. Qed.

Lemma mark_split_nodes_terminates ns split_nodes todo data :
  closed_store ns →
  ∃ data', mark_split_nodes (split_fuel ns) ns split_nodes todo data = Some data' ∧
           same_but_needed data data'.
Proof.
  intros Hclosed. revert data. induction todo as [|[a n] todo IH]; intros data; simpl.
  - eexists. split; [done | apply same_but_needed_refl].
  - destruct (decide (a ∈ split_nodes)); [|apply IH].
    destruct (needed_by_split_node (data_at data a)); [apply IH|].
    destruct (mark_needed_terminates ns (split_fuel ns) [a] (alter_data set_needed a data))
      as (data1 & Hrun & Hsame1); [done| |].
    { pose proof (unneeded_length (alter_data set_needed a data) ns.*1) as Hl.
      rewrite length_fmap in Hl. unfold split_fuel. simpl. lia. }
    rewrite Hrun. destruct (IH data1) as (data' & Hrun' & Hsame').
    exists data'. split; [done|].
    eapply same_but_needed_trans; [apply same_but_needed_set|].
    eapply same_but_needed_trans; [exact Hsame1 | exact Hsame'].
Qed.

Lemma data_at_used_in_result idx a :
  data_at (foldl (fun data node => alter_data set_used_in_result node data) ∅ idx) a
  = if decide (a ∈ idx) then mkData false false true None None else Data0.
Proof.
  assert (H : ∀ data,
    data_at (foldl (fun data node => alter_data set_used_in_result node data) data idx) a
    = if decide (a ∈ idx) then set_used_in_result (data_at data a) else data_at data a).
  { induction idx as [|x idx IH]; intros data; cbn [foldl].
    - rewrite decide_False; [done | apply not_elem_of_nil].
    - rewrite IH, data_at_alter. destruct (decide (a = x)) as [->|Hne].
      + rewrite (decide_True (P := x ∈ x :: idx)) by left.
        by destruct (decide (x ∈ idx)).
      + destruct (decide (a ∈ idx)) as [Hin|Hnin].
        * by rewrite decide_True by (by right).
        * rewrite decide_False; [done|]. by apply not_elem_of_cons. }
  rewrite H. unfold data_at at 1 2. rewrite lookup_empty. simpl.
  by destruct (decide (a ∈ idx)).
Qed.


(** *** The moves of the second search *)

Lemma split_inv_emplace_second ns idx done pending st m :
  split_inv ns idx done pending st →
  split_inv ns idx done pending (emplace_second m st).2 ∧
  deref (s_second_nodes (emplace_second m st).2) (s_next st) = Some m ∧
  (∀ a, d_second st a ≠ Some (s_next st)).
Proof.
  intros [Hnext Hnodup Hvis Hused Hsec Hfst Hdone Hnd Hin Hinj].
  assert (Hfresh : s_next st ∉ (s_first_nodes st).*1 ++ (s_second_nodes st).*1).
  { intros Hx. apply Hnext in Hx. lia. }
  assert (HfreshS : s_next st ∉ (s_second_nodes st).*1).
  { intros Hx. apply Hfresh, elem_of_app. by right. }
  split; [|split].
  - split; simpl; try done.
    + intros x. rewrite fmap_app, app_assoc, elem_of_app. csimpl.
      intros [Hx|Hx]; [|apply list_elem_of_singleton in Hx as ->; lia].
      apply Hnext in Hx. lia.
    + rewrite fmap_app, app_assoc. csimpl. apply NoDup_app. split; [done|].
      split; [|apply NoDup_singleton].
      intros x Hx Hx'. apply list_elem_of_singleton in Hx' as ->. done.
    + intros a s Hs. destruct (Hsec a s Hs) as (Ha & n & m' & Hn & Hm & Hsig & Hty).
      split; [done|]. exists n, m'. split; [done|]. split; [|done].
      rewrite deref_snoc by done. rewrite decide_False; [done|].
      intros ->. by apply HfreshS, (deref_Some_addr _ _ m').
  - simpl. rewrite deref_snoc by done. by rewrite decide_True.
  - intros a Hs. destruct (Hsec a _ Hs) as (_ & n & m' & _ & Hm & _).
    by apply HfreshS, (deref_Some_addr _ _ m').
Qed.

Lemma split_inv_emplace_first ns idx done pending st m :
  split_inv ns idx done pending st →
  split_inv ns idx done pending (emplace_first m st).2 ∧
  deref (s_first_nodes (emplace_first m st).2) (s_next st) = Some m.
Proof.
  intros [Hnext Hnodup Hvis Hused Hsec Hfst Hdone Hnd Hin Hinj].
  assert (Hfresh : s_next st ∉ (s_first_nodes st).*1 ++ (s_second_nodes st).*1).
  { intros Hx. apply Hnext in Hx. lia. }
  assert (HfreshF : s_next st ∉ (s_first_nodes st).*1).
  { intros Hx. apply Hfresh, elem_of_app. by left. }
  split.
  - split; simpl; try done.
    + intros x. rewrite fmap_app, <- app_assoc, !elem_of_app. csimpl.
      rewrite elem_of_cons. intros [Hx|[[Hx|Hx]|Hx]]; [|lia| |].
      * assert (x < s_next st) by (apply Hnext, elem_of_app; by left). lia.
      * by apply elem_of_nil in Hx.
      * assert (x < s_next st) by (apply Hnext, elem_of_app; by right). lia.
    + rewrite fmap_app, <- app_assoc. csimpl.
      apply NoDup_app in Hnodup as (HF & Hdisj & HS).
      apply NoDup_app. split; [done|]. split.
      * intros x Hx Hx'. apply elem_of_cons in Hx' as [->|Hx']; [done|].
        by eapply Hdisj.
      * apply NoDup_cons. split; [|done]. intros Hx. apply Hfresh, elem_of_app. by right.
    + intros a f Hf. destruct (Hfst a f Hf) as (Ha & n & m' & Hn & Hm & Hsig).
      split; [done|]. exists n, m'. split; [done|]. split; [|done].
      rewrite deref_snoc by done. rewrite decide_False; [done|].
      intros ->. by apply HfreshF, (deref_Some_addr _ _ m').
  - simpl. rewrite deref_snoc by done. by rewrite decide_True.
Qed.


Lemma d_second_alter st f a b :
  d_second (with_data (alter_data f a) st) b
  = if decide (b = a) then to_second (f (data_at (s_data st) a)) else d_second st b.
Proof. unfold d_second. simpl. rewrite data_at_alter. by destruct (decide (b = a)). Qed.

Lemma d_first_alter st f a b :
  d_first (with_data (alter_data f a) st) b
  = if decide (b = a) then to_first (f (data_at (s_data st) a)) else d_first st b.
Proof. unfold d_first. simpl. rewrite data_at_alter. by destruct (decide (b = a)). Qed.

Lemma d_needed_alter st f a b :
  d_needed (with_data (alter_data f a) st) b
  = if decide (b = a) then needed_by_split_node (f (data_at (s_data st) a))
    else d_needed st b.
Proof. unfold d_needed. simpl. rewrite data_at_alter. by destruct (decide (b = a)). Qed.

Lemma split_inv_set_second ns idx done pending st a s n m (push : bool) :
  split_inv ns idx done pending st →
  d_second st a = None →
  a ∈ done ∨ a ∈ pending →
  deref ns a = Some n → deref (s_second_nodes st) s = Some m → same_sig n m →
  (∀ a', d_second st a' ≠ Some s) →
  (a ∈ pending ∨ (type m = INPUT ↔ push = true)) →
  (push = true → is_Some (d_first st a)) →
  split_inv ns idx done pending
    ((if push then push_new_input a else id)
       (with_data (alter_data (fun c => set_to_second c s) a) st)).
Proof.
  intros [Hnext Hnodup Hvis Hused Hsec Hfst Hdone Hnd Hin Hinj]
    Hnone Ha Hn Hm Hsig Hunused Hpush Hfirst.
  assert (HaNI : a ∉ s_new_inputs st).
  { intros HaNI. destruct (Hin a HaNI) as (_ & _ & [? Hs]). congruence. }
  set (st1 := with_data (alter_data (fun c => set_to_second c s) a) st).
  assert (Heq : ∀ st', st' = (if push then push_new_input a else id) st1 →
    s_data st' = s_data st1 ∧ s_first_nodes st' = s_first_nodes st ∧
    s_second_nodes st' = s_second_nodes st ∧ s_next st' = s_next st ∧
    s_new_inputs st' = (if push then s_new_inputs st ++ [a] else s_new_inputs st)).
  { intros st' ->. by destruct push. }
  destruct (Heq _ eq_refl) as (Hdata & HF & HS & HN & HNI).
  set (st' := (if push then push_new_input a else id) st1) in *.
  assert (Hsec' : ∀ b, d_second st' b = if decide (b = a) then Some s else d_second st b).
  { intros b. unfold d_second. rewrite Hdata. unfold st1. simpl. rewrite data_at_alter.
    by destruct (decide (b = a)). }
  assert (Hfst' : ∀ b, d_first st' b = d_first st b).
  { intros b. unfold d_first. rewrite Hdata. unfold st1. simpl. rewrite data_at_alter.
    by destruct (decide (b = a)) as [->|]. }
  assert (Hneed' : ∀ b, d_needed st' b = d_needed st b).
  { intros b. unfold d_needed. rewrite Hdata. unfold st1. simpl. rewrite data_at_alter.
    by destruct (decide (b = a)) as [->|]. }
  assert (HNI' : ∀ b, b ∈ s_new_inputs st' ↔ b ∈ s_new_inputs st ∨ (b = a ∧ push = true)).
  { intros b. rewrite HNI. destruct push.
    - rewrite elem_of_app, list_elem_of_singleton. naive_solver.
    - naive_solver. }
  split.
  - by rewrite HF, HS, HN.
  - by rewrite HF, HS.
  - intros b. rewrite <- Hvis. rewrite Hdata. unfold st1. simpl. rewrite data_at_alter.
    by destruct (decide (b = a)) as [->|].
  - intros b. rewrite <- Hused. rewrite Hdata. unfold st1. simpl. rewrite data_at_alter.
    by destruct (decide (b = a)) as [->|].
  - intros b s0. rewrite Hsec', HS. destruct (decide (b = a)) as [->|Hne].
    + intros [= <-]. split; [done|]. exists n, m.
      split; [done|]. split; [done|]. split; [done|].
      intros Hnp. destruct Hpush as [?|Hp]; [done|]. rewrite HNI', Hp. naive_solver.
    + intros Hb. destruct (Hsec b s0 Hb) as (Hbd & n0 & m0 & ? & ? & ? & Hty).
      split; [done|]. exists n0, m0.
      split; [done|]. split; [done|]. split; [done|].
      intros Hnp. rewrite HNI', (Hty Hnp). naive_solver.
  - intros b f. rewrite Hfst', HF. apply Hfst.
  - intros b Hb. rewrite Hneed', Hfst', Hsec'. specialize (Hdone b Hb).
    destruct (d_needed st b); destruct (decide (b = a)); naive_solver.
  - rewrite HNI. destruct push; [|done]. apply NoDup_app. split; [done|].
    split; [|apply NoDup_singleton]. intros x Hx Hx'.
    apply list_elem_of_singleton in Hx' as ->. done.
  - intros b Hb. rewrite Hfst', Hsec'. apply HNI' in Hb as [Hb|[-> Hp]].
    + destruct (Hin b Hb) as (? & ? & ?). destruct (decide (b = a)); naive_solver.
    + rewrite decide_True by done. split; [done|]. split; [by apply Hfirst | by eexists].
  - intros b b' s0. rewrite !Hsec'.
    destruct (decide (b = a)) as [->|], (decide (b' = a)) as [->|]; try done.
    + intros [= <-] Hb'. by destruct (Hunused b').
    + intros Hb [= <-]. by destruct (Hunused b).
    + apply Hinj.
Qed.


Lemma split_inv_set_first ns idx done pending st a f n m :
  split_inv ns idx done pending st →
  a ∈ done ∨ a ∈ pending →
  deref ns a = Some n → deref (s_first_nodes st) f = Some m → same_sig n m →
  split_inv ns idx done pending (with_data (alter_data (fun c => set_to_first c f) a) st).
Proof.
  intros [Hnext Hnodup Hvis Hused Hsec Hfst Hdone Hnd Hin Hinj] Ha Hn Hm Hsig.
  set (st' := with_data (alter_data (fun c => set_to_first c f) a) st).
  assert (Hsec' : ∀ b, d_second st' b = d_second st b).
  { intros b. unfold st'. rewrite d_second_alter. by destruct (decide (b = a)) as [->|]. }
  assert (Hfst' : ∀ b, d_first st' b = if decide (b = a) then Some f else d_first st b).
  { intros b. unfold st'. by rewrite d_first_alter. }
  assert (Hneed' : ∀ b, d_needed st' b = d_needed st b).
  { intros b. unfold st'. rewrite d_needed_alter. by destruct (decide (b = a)) as [->|]. }
  split; simpl; try done.
  - intros b. rewrite <- Hvis. rewrite data_at_alter. by destruct (decide (b = a)) as [->|].
  - intros b. rewrite <- Hused. rewrite data_at_alter. by destruct (decide (b = a)) as [->|].
  - intros b s0. rewrite Hsec'. apply Hsec.
  - intros b f0. rewrite Hfst'. destruct (decide (b = a)) as [->|]; [|apply Hfst].
    intros [= <-]. split; [done|]. by exists n, m.
  - intros b Hb. rewrite Hneed', Hfst', Hsec'. specialize (Hdone b Hb).
    destruct (d_needed st b); destruct (decide (b = a)); naive_solver.
  - intros b Hb. rewrite Hfst', Hsec'. destruct (Hin b Hb) as (? & ? & ?).
    destruct (decide (b = a)); naive_solver.
  - intros b b' s0. rewrite !Hsec'. apply Hinj.
Qed.

Lemma split_inv_push_pending ns idx done pending st a :
  split_inv ns idx done pending st →
  a ∈ pending → a ∉ s_new_inputs st →
  is_Some (d_first st a) → is_Some (d_second st a) →
  split_inv ns idx done pending (push_new_input a st).
Proof.
  intros [Hnext Hnodup Hvis Hused Hsec Hfst Hdone Hnd Hin Hinj] Ha HaNI Hf Hs.
  split; simpl; try done.
  - intros b s0 Hb. destruct (Hsec b s0 Hb) as (Hbd & n0 & m0 & ? & ? & ? & Hty).
    split; [done|]. exists n0, m0. split; [done|]. split; [done|]. split; [done|].
    intros Hnp. rewrite elem_of_app, list_elem_of_singleton, (Hty Hnp). naive_solver.
  - apply NoDup_app. split; [done|]. split; [|apply NoDup_singleton].
    intros x Hx Hx'. apply list_elem_of_singleton in Hx' as ->. done.
  - intros b Hb. apply elem_of_app in Hb as [Hb|Hb]; [by apply Hin|].
    apply list_elem_of_singleton in Hb as ->. auto.
Qed.

Lemma split_inv_update_children ns idx done pending st c cs :
  split_inv ns idx done pending st →
  split_inv ns idx done pending
    (set_second_nodes st (update (s_second_nodes st) c (fun n => set_children n cs))).
Proof.
  intros [Hnext Hnodup Hvis Hused Hsec Hfst Hdone Hnd Hin Hinj].
  split; simpl; try done.
  - by rewrite update_fst.
  - by rewrite update_fst.
  - intros b s0 Hb. destruct (Hsec b s0 Hb) as (Hbd & n0 & m0 & ? & Hm0 & ? & Hty).
    split; [done|]. rewrite deref_update. destruct (decide (s0 = c)) as [->|].
    + rewrite Hm0. exists n0, (set_children m0 cs).
      split; [done|]. split; [done|]. split; [done|]. exact Hty.
    + by exists n0, m0.
Qed.

Lemma split_inv_set_visited ns idx done st cur :
  split_inv ns idx done [] st →
  split_inv ns idx done [cur] (with_data (alter_data set_visited cur) st).
Proof.
  intros [Hnext Hnodup Hvis Hused Hsec Hfst Hdone Hnd Hin Hinj].
  set (st' := with_data (alter_data set_visited cur) st).
  assert (Hsec' : ∀ b, d_second st' b = d_second st b).
  { intros b. unfold st'. rewrite d_second_alter. by destruct (decide (b = cur)) as [->|]. }
  assert (Hfst' : ∀ b, d_first st' b = d_first st b).
  { intros b. unfold st'. rewrite d_first_alter. by destruct (decide (b = cur)) as [->|]. }
  assert (Hneed' : ∀ b, d_needed st' b = d_needed st b).
  { intros b. unfold st'. rewrite d_needed_alter. by destruct (decide (b = cur)) as [->|]. }
  split; simpl; try done.
  - intros b. rewrite data_at_alter, list_elem_of_singleton.
    destruct (decide (b = cur)) as [->|Hne]; simpl; [naive_solver|].
    rewrite Hvis. rewrite elem_of_nil. naive_solver.
  - intros b. rewrite <- Hused. rewrite data_at_alter. by destruct (decide (b = cur)) as [->|].
  - intros b s0. rewrite Hsec'. intros Hb.
    destruct (Hsec b s0 Hb) as ([Hbd|Hbd] & n0 & m0 & ? & ? & ? & Hty);
      [|by apply elem_of_nil in Hbd].
    split; [by left|]. exists n0, m0. split; [done|]. split; [done|]. split; [done|].
    intros _. apply Hty, not_elem_of_nil.
  - intros b f0. rewrite Hfst'. intros Hb.
    destruct (Hfst b f0 Hb) as ([Hbd|Hbd] & Hrest); [|by apply elem_of_nil in Hbd].
    split; [by left | done].
  - intros b Hb. rewrite Hneed', Hfst', Hsec'. by apply Hdone.
  - intros b Hb. rewrite Hfst', Hsec'. destruct (Hin b Hb) as ([?|Hbd] & ? & ?);
      [|by apply elem_of_nil in Hbd]. auto.
  - intros b b' s0. rewrite !Hsec'. apply Hinj.
Qed.

Lemma split_inv_finalize ns idx done st cur :
  split_inv ns idx done [cur] st →
  (if d_needed st cur
   then is_Some (d_first st cur) ∧ (cur ∈ idx → is_Some (d_second st cur))
   else is_Some (d_second st cur)) →
  (∀ s m, d_second st cur = Some s → deref (s_second_nodes st) s = Some m →
          (type m = INPUT ↔ cur ∈ s_new_inputs st)) →
  split_inv ns idx (done ++ [cur]) [] st.
Proof.
  intros [Hnext Hnodup Hvis Hused Hsec Hfst Hdone Hnd Hin Hinj] Hcur Hty.
  split; try done.
  - intros b. rewrite Hvis, elem_of_app, elem_of_nil. naive_solver.
  - intros b s0 Hb. rewrite elem_of_app.
    destruct (Hsec b s0 Hb) as (Hbd & n0 & m0 & ? & Hm0 & ? & Hty0).
    split; [naive_solver|]. exists n0, m0. split; [done|]. split; [done|]. split; [done|].
    intros _. destruct (decide (b = cur)) as [->|Hne]; [by eapply Hty|].
    apply Hty0. by intros ->%list_elem_of_singleton.
  - intros b f0 Hb. rewrite elem_of_app. destruct (Hfst b f0 Hb) as (Hbd & Hrest).
    split; [naive_solver | done].
  - intros b Hb. apply elem_of_app in Hb as [Hb|Hb]; [by apply Hdone|].
    by apply list_elem_of_singleton in Hb as ->.
  - intros b Hb. rewrite elem_of_app. destruct (Hin b Hb) as (? & ? & ?). naive_solver.
Qed.


Lemma second_child_copying ns idx done cur c cur_node st0 st acc child :
  copying ns idx done cur c cur_node st0 st →
  child ∈ done →
  copying ns idx done cur c cur_node st0 (second_child ns (st, acc) child).1.
Proof.
  intros (Hinv & Hc & Hcopy & Hfirst & Hneeded & HcurNI) Hchild.
  unfold second_child. cbn [fst snd].
  fold (d_second st child). destruct (d_second st child) as [s|] eqn:Hs.
  { done. }
  assert (Hne : child ≠ cur) by congruence.
  pose proof (si_done _ _ _ _ _ Hinv child Hchild) as Hd.
  assert (Hcf : is_Some (d_first st child)).
  { destruct (d_needed st child); [tauto|]. rewrite Hs in Hd. by destruct Hd. }
  destruct Hcf as [f Hf].
  destruct (si_first _ _ _ _ _ Hinv child f Hf) as (_ & cn & mf & Hcn & _).
  rewrite Hcn.
  destruct (decide (type cn = COLUMN)) as [Hty|Hty].
  - destruct (split_inv_emplace_second ns idx done [cur] st cn Hinv) as (Hinv1 & Hnew & Hunused).
    cbn [emplace_second fst snd] in *.
    set (st1 := mkSplit _ _ _ _ _) in *.
    pose proof (split_inv_set_second ns idx done [cur] st1 child (s_next st) cn cn false
                  Hinv1 Hs (or_introl Hchild) Hcn Hnew (conj eq_refl eq_refl) Hunused) as H.
    simpl in H. split; [|split; [|split; [|split; [|split]]]].
    + apply H; [right; split; [congruence | done] | done].
    + rewrite d_second_alter, decide_False by done. done.
    + simpl. rewrite deref_app, Hcopy. done.
    + rewrite d_first_alter, decide_False by done. done.
    + intros b. rewrite d_needed_alter. destruct (decide (b = child)) as [->|]; [|apply Hneeded].
      simpl. apply Hneeded.
    + done.
  - destruct (split_inv_emplace_second ns idx done [cur] st (input_node_of cn) Hinv)
      as (Hinv1 & Hnew & Hunused).
    cbn [emplace_second fst snd] in *.
    set (st1 := mkSplit _ _ _ _ _) in *.
    pose proof (split_inv_set_second ns idx done [cur] st1 child (s_next st) cn
                  (input_node_of cn) true
                  Hinv1 Hs (or_introl Hchild) Hcn Hnew (conj eq_refl eq_refl) Hunused) as H.
    simpl in H. split; [|split; [|split; [|split; [|split]]]].
    + apply H; [right; done | intros _; by exists f].
    + unfold d_second. simpl. rewrite data_at_alter, decide_False by done. done.
    + simpl. rewrite deref_app, Hcopy. done.
    + unfold d_first. simpl. rewrite data_at_alter, decide_False by done. done.
    + intros b. unfold d_needed. simpl. rewrite data_at_alter.
      destruct (decide (b = child)) as [->|]; [|apply Hneeded]. simpl. apply Hneeded.
    + simpl. rewrite elem_of_app, list_elem_of_singleton. naive_solver.
Qed.

Lemma second_children_copying ns idx done cur c cur_node st0 st acc cs :
  copying ns idx done cur c cur_node st0 st →
  (∀ child, child ∈ cs → child ∈ done) →
  copying ns idx done cur c cur_node st0 (foldl (second_child ns) (st, acc) cs).1.
Proof.
  revert st acc. induction cs as [|child cs IH]; intros st acc Hst Hcs; cbn [foldl]; [done|].
  destruct (second_child ns (st, acc) child) as [st1 acc1] eqn:Hstep.
  apply IH.
  - replace st1 with (second_child ns (st, acc) child).1 by (by rewrite Hstep).
    apply second_child_copying; [done|]. apply Hcs. left.
  - intros x Hx. apply Hcs. by right.
Qed.


Lemma make_copy_eq ns node cur cur_node st :
  make_copy ns node cur cur_node st =
  let st1 := with_data (alter_data set_visited cur) st in
  if negb (d_needed st1 cur) then
    let st2 := (emplace_second cur_node st1).2 in
    let st3 := with_data (alter_data (fun c => set_to_second c (s_next st1)) cur) st2 in
    let r := foldl (second_child ns) (st3, []) (children cur_node) in
    let st5 :=
      set_second_nodes r.1
        (update (s_second_nodes r.1) (s_next st1) (fun n => set_children n r.2)) in
    if decide (type cur_node = INPUT) then
      push_new_input cur
        (with_data (alter_data (fun c => set_to_first c (s_next st5)) cur)
           (emplace_first cur_node st5).2)
    else st5
  else
    let cs := (fun child => ptr (to_first (data_at (s_data st1) child)))
                <$> children cur_node in
    let st2 := (emplace_first (set_children cur_node cs) st1).2 in
    let st3 := with_data (alter_data (fun c => set_to_first c (s_next st1)) cur) st2 in
    if used_in_result (data_at (s_data st3) cur) then
      push_new_input cur
        (with_data (alter_data (fun c => set_to_second c (s_next st3)) cur)
           (emplace_second (input_node_of node) st3).2)
    else st3.
Proof.
  unfold make_copy, d_needed. cbv zeta.
  destruct (negb _).
  - cbn [emplace_second fst snd].
    destruct (foldl (second_child ns) _ (children cur_node)) as [st4 cs]. cbn [fst snd].
    by destruct (decide (type cur_node = INPUT)).
  - cbn [emplace_first fst snd]. by destruct (used_in_result _).
Qed.

Lemma make_copy_inv ns idx done st cur cur_node :
  split_inv ns idx done [] st →
  cur ∉ done → deref ns cur = Some cur_node →
  (∀ c, c ∈ children cur_node → c ∈ done) →
  split_inv ns idx (done ++ [cur]) [] (make_copy ns cur_node cur cur_node st).
Proof.
  intros Hinv0 Hcur Hnode Hchildren.
  assert (Hs0 : d_second st cur = None).
  { destruct (d_second st cur) as [s|] eqn:Hs; [|done].
    destruct (si_second _ _ _ _ _ Hinv0 cur s Hs) as ([?|Hx] & _); [done|].
    by apply elem_of_nil in Hx. }
  assert (Hf0 : d_first st cur = None).
  { destruct (d_first st cur) as [f|] eqn:Hf; [|done].
    destruct (si_first _ _ _ _ _ Hinv0 cur f Hf) as ([?|Hx] & _); [done|].
    by apply elem_of_nil in Hx. }
  assert (HNI0 : cur ∉ s_new_inputs st).
  { intros Hx. destruct (si_inputs _ _ _ _ _ Hinv0 cur Hx) as (_ & _ & [? Hs]). congruence. }
  pose proof (split_inv_set_visited ns idx done st cur Hinv0) as Hinv1.
  rewrite make_copy_eq. cbv zeta.
  set (st1 := with_data (alter_data set_visited cur) st) in *.
  assert (Hs1 : d_second st1 cur = None).
  { unfold st1. by rewrite d_second_alter, decide_True. }
  assert (Hf1 : d_first st1 cur = None).
  { unfold st1. by rewrite d_first_alter, decide_True. }
  assert (Hpend : cur ∈ [cur]) by left.
  destruct (d_needed st1 cur) eqn:Hneeded; cbn [negb].
  - (* needed by a split node: the copy goes to [first] *)
    set (cs := (fun child => ptr (to_first (data_at (s_data st1) child)))
                 <$> children cur_node).
    destruct (split_inv_emplace_first ns idx done [cur] st1 (set_children cur_node cs) Hinv1)
      as (Hinv2 & Hnew2).
    set (st2 := (emplace_first (set_children cur_node cs) st1).2) in *.
    pose proof (split_inv_set_first ns idx done [cur] st2 cur (s_next st1) cur_node
                  (set_children cur_node cs) Hinv2 (or_intror Hpend) Hnode Hnew2
                  (conj eq_refl eq_refl)) as Hinv3.
    set (st3 := with_data (alter_data (fun c => set_to_first c (s_next st1)) cur) st2) in *.
    assert (Hs3 : d_second st3 cur = None).
    { unfold st3. by rewrite d_second_alter, decide_True. }
    assert (Hf3 : d_first st3 cur = Some (s_next st1)).
    { unfold st3. by rewrite d_first_alter, decide_True. }
    assert (Hn3 : d_needed st3 cur = true).
    { unfold st3. by rewrite d_needed_alter, decide_True. }
    destruct (used_in_result (data_at (s_data st3) cur)) eqn:Hused.
    + destruct (split_inv_emplace_second ns idx done [cur] st3 (input_node_of cur_node) Hinv3)
        as (Hinv4 & Hnew4 & Hunused4).
      set (st4 := (emplace_second (input_node_of cur_node) st3).2) in *.
      pose proof (split_inv_set_second ns idx done [cur] st4 cur (s_next st3) cur_node
                    (input_node_of cur_node) true Hinv4 Hs3 (or_intror Hpend) Hnode Hnew4
                    (conj eq_refl eq_refl) Hunused4 (or_introl Hpend)
                    (fun _ => ex_intro _ _ Hf3)) as Hinv5.
      cbn [id] in Hinv5.
      set (st5 := with_data (alter_data (fun c => set_to_second c (s_next st3)) cur) st4) in *.
      assert (Hs5 : d_second (push_new_input cur st5) cur = Some (s_next st3)).
      { change (d_second st5 cur = Some (s_next st3)). unfold st5.
        by rewrite d_second_alter, decide_True. }
      assert (Hn5 : d_needed (push_new_input cur st5) cur = true).
      { change (d_needed st5 cur = true). unfold st5.
        rewrite d_needed_alter, decide_True by done. exact Hn3. }
      assert (Hf5 : d_first (push_new_input cur st5) cur = Some (s_next st1)).
      { change (d_first st5 cur = Some (s_next st1)). unfold st5.
        rewrite d_first_alter, decide_True by done. exact Hf3. }
      apply split_inv_finalize; [exact Hinv5| |].
      * rewrite Hn5, Hf5, Hs5. split; [by eexists|]. intros _. by eexists.
      * intros s m. rewrite Hs5. intros [= <-] Hm.
        change (deref (s_second_nodes st4) (s_next st3) = Some m) in Hm.
        assert (m = input_node_of cur_node) as -> by congruence.
        change (s_new_inputs (push_new_input cur st5)) with (s_new_inputs st5 ++ [cur]).
        split; [intros _; apply elem_of_app; right; left | done].
    + apply split_inv_finalize; [exact Hinv3| |].
      * rewrite Hn3, Hf3. split; [by eexists|]. intros Hidx.
        apply (si_used _ _ _ _ _ Hinv3) in Hidx. congruence.
      * intros s m. rewrite Hs3. done.
  - (* not needed: the copy goes to [second] *)
    destruct (split_inv_emplace_second ns idx done [cur] st1 cur_node Hinv1)
      as (Hinv2 & Hnew2 & Hunused2).
    set (st2 := (emplace_second cur_node st1).2) in *.
    assert (Htriv : false = true → is_Some (d_first st2 cur)) by done.
    pose proof (split_inv_set_second ns idx done [cur] st2 cur (s_next st1) cur_node
                  cur_node false Hinv2 Hs1 (or_intror Hpend) Hnode Hnew2
                  (conj eq_refl eq_refl) Hunused2 (or_introl Hpend) Htriv) as Hinv3.
    cbn [id] in Hinv3.
    set (st3 := with_data (alter_data (fun c => set_to_second c (s_next st1)) cur) st2) in *.
    assert (Hcopying : copying ns idx done cur (s_next st1) cur_node st3 st3).
    { split; [done|]. split; [|split; [|split; [|split]]]; try done.
      unfold st3. by rewrite d_second_alter, decide_True. }
    pose proof (second_children_copying ns idx done cur (s_next st1) cur_node st3 st3 []
                  (children cur_node) Hcopying Hchildren) as Hfold.
    set (r := foldl (second_child ns) (st3, []) (children cur_node)) in *.
    destruct Hfold as (Hinv4 & Hs4 & Hcopy4 & Hf4 & Hn4 & HNI4).
    pose proof (split_inv_update_children ns idx done [cur] r.1 (s_next st1) r.2 Hinv4)
      as Hinv5.
    set (st5 := set_second_nodes r.1 _) in *.
    assert (Hs5 : d_second st5 cur = Some (s_next st1)) by exact Hs4.
    assert (Hcopy5 : deref (s_second_nodes st5) (s_next st1)
                     = Some (set_children cur_node r.2)).
    { change (deref (update (s_second_nodes r.1) (s_next st1)
                       (fun n => set_children n r.2)) (s_next st1)
              = Some (set_children cur_node r.2)).
      by rewrite deref_update, decide_True, Hcopy4. }
    assert (Hf5 : d_first st5 cur = None).
    { change (d_first r.1 cur = None). rewrite Hf4. unfold st3.
      rewrite d_first_alter, decide_True by done. simpl. exact Hf1. }
    assert (Hn5 : d_needed st5 cur = false).
    { change (d_needed r.1 cur = false). rewrite Hn4. unfold st3.
      rewrite d_needed_alter, decide_True by done. simpl. exact Hneeded. }
    destruct (decide (type cur_node = INPUT)) as [Hty|Hty].
    + destruct (split_inv_emplace_first ns idx done [cur] st5 cur_node Hinv5)
        as (Hinv6 & Hnew6).
      set (st6 := (emplace_first cur_node st5).2) in *.
      pose proof (split_inv_set_first ns idx done [cur] st6 cur (s_next st5) cur_node
                    cur_node Hinv6 (or_intror Hpend) Hnode Hnew6
                    (conj eq_refl eq_refl)) as Hinv7.
      set (st7 := with_data (alter_data (fun c => set_to_first c (s_next st5)) cur) st6) in *.
      assert (Hs7 : d_second st7 cur = Some (s_next st1)).
      { unfold st7. rewrite d_second_alter, decide_True by done. exact Hs5. }
      assert (Hf7 : d_first st7 cur = Some (s_next st5)).
      { unfold st7. by rewrite d_first_alter, decide_True. }
      pose proof (split_inv_push_pending ns idx done [cur] st7 cur Hinv7 Hpend HNI4
                    (ex_intro _ _ Hf7) (ex_intro _ _ Hs7)) as Hinv8.
      assert (Hn7 : d_needed (push_new_input cur st7) cur = false).
      { change (d_needed st7 cur = false). unfold st7.
        rewrite d_needed_alter, decide_True by done. exact Hn5. }
      apply split_inv_finalize; [exact Hinv8| |].
      * rewrite Hn7. change (d_second (push_new_input cur st7) cur) with (d_second st7 cur).
        rewrite Hs7. by eexists.
      * intros s m. change (d_second (push_new_input cur st7) cur) with (d_second st7 cur).
        rewrite Hs7. intros [= <-] Hm.
        change (deref (s_second_nodes st5) (s_next st1) = Some m) in Hm.
        assert (m = set_children cur_node r.2) as -> by congruence.
        change (s_new_inputs (push_new_input cur st7)) with (s_new_inputs st7 ++ [cur]).
        split; [intros _; apply elem_of_app; right; left | done].
    + apply split_inv_finalize; [exact Hinv5| |].
      * rewrite Hn5, Hs5. by eexists.
      * intros s m. rewrite Hs5. intros [= <-] Hm.
        change (deref (s_second_nodes st5) (s_next st1) = Some m) in Hm.
        assert (m = set_children cur_node r.2) as -> by congruence.
        split; [done | intros Hx; by destruct HNI4].
Qed.


(** *** The second search on a store that lists children first *)

Lemma skip_visited_all data cs i :
  (∀ c, c ∈ cs → visited (data_at data c) = true) →
  skip_visited data cs i = i + length cs.
Proof.
  revert i. induction cs as [|c cs IH]; intros i Hcs; simpl; [lia|].
  rewrite Hcs by left. rewrite IH by (intros x Hx; apply Hcs; by right). lia.
Qed.

Lemma split_dfs_single fuel ns node a cur_node st :
  deref ns a = Some cur_node →
  (∀ c, c ∈ children cur_node → visited (data_at (s_data st) c) = true) →
  split_dfs (S fuel) ns node [mkFrame a 0] st = Some (make_copy ns node a cur_node st).
Proof.
  intros Hd Hvis. cbn [split_dfs f_node next_child_to_visit]. rewrite Hd.
  rewrite drop_0, skip_visited_all by done. cbn [Nat.add].
  rewrite (lookup_ge_None_2 (children cur_node)) by done.
  by destruct fuel.
Qed.

Lemma children_first_closed ns : children_first ns → closed_store ns.
Proof.
  intros Hcf a n c Hd Hc. apply deref_Some_In in Hd.
  apply list_elem_of_lookup in Hd as [i Hi].
  pose proof (Hcf i a n c Hi Hc) as Hin.
  apply list_elem_of_fmap in Hin as (p & -> & Hp).
  apply list_elem_of_fmap. exists p. split; [done|].
  apply list_elem_of_lookup in Hp as [j Hj]. apply lookup_take_Some in Hj as [Hj _].
  by eapply list_elem_of_lookup_2.
Qed.

Lemma split_move_nodes_inv ns idx pre todo st :
  ns = pre ++ todo → NoDup ns.*1 → children_first ns →
  split_inv ns idx pre.*1 [] st →
  ∃ st', split_move_nodes (split_fuel ns) ns todo st = Some st' ∧
         split_inv ns idx ns.*1 [] st'.
Proof.
  intros Hns Hnd Hcf.
  assert (∃ k, split_fuel ns = S k) as [k ->]
    by (exists (2 * length ns + 1); unfold split_fuel; lia).
  revert pre st Hns.
  induction todo as [|[a node] todo IH]; intros pre st Hns Hinv.
  - exists st. split; [done|]. rewrite app_nil_r in Hns. by rewrite <- Hns in Hinv.
  - cbn [split_move_nodes].
    assert (Hlook : ns !! length pre = Some (a, node)).
    { rewrite Hns. by rewrite list_lookup_middle. }
    assert (Hin : (a, node) ∈ ns) by (by eapply list_elem_of_lookup_2).
    assert (Hd : deref ns a = Some node) by (by apply In_deref_NoDup).
    assert (Hapre : a ∉ pre.*1).
    { rewrite Hns, fmap_app in Hnd. apply NoDup_app in Hnd as (_ & Hdisj & _).
      intros Ha. apply (Hdisj a Ha). csimpl. left. }
    assert (Hvis : visited (data_at (s_data st) a) = false).
    { destruct (visited (data_at (s_data st) a)) eqn:Hv; [|done].
      apply (si_visited _ _ _ _ _ Hinv) in Hv as [?|Hv]; [done|].
      by apply elem_of_nil in Hv. }
    rewrite Hvis.
    assert (Hchildren : ∀ c, c ∈ children node → c ∈ pre.*1).
    { intros c Hc. pose proof (Hcf _ _ _ _ Hlook Hc) as Hx.
      by rewrite Hns, take_app_length in Hx. }
    rewrite (split_dfs_single _ ns node a node st Hd).
    2:{ intros c Hc. apply (si_visited _ _ _ _ _ Hinv). left. by apply Hchildren. }
    pose proof (make_copy_inv ns idx pre.*1 st a node Hinv Hapre Hd Hchildren) as Hinv'.
    destruct (IH (pre ++ [(a, node)]) (make_copy ns node a node st)) as (st' & Hrun & Hfin).
    + by rewrite <- app_assoc.
    + by rewrite fmap_app.
    + by exists st'.
Qed.


Lemma split_inv_init ns idx data :
  same_but_needed
    (foldl (fun data node => alter_data set_used_in_result node data) ∅ idx) data →
  split_inv ns idx [] [] (mkSplit data [] [] [] (fresh_addr ns)).
Proof.
  intros Hsame.
  assert (Hd : ∀ a, visited (data_at data a) = false ∧
                    (used_in_result (data_at data a) = true ↔ a ∈ idx) ∧
                    to_second (data_at data a) = None ∧
                    to_first (data_at data a) = None).
  { intros a. destruct (Hsame a) as (-> & -> & -> & ->).
    rewrite data_at_used_in_result. destruct (decide (a ∈ idx)); simpl; naive_solver. }
  split; unfold d_second, d_first, d_needed; cbn [s_data s_first_nodes s_second_nodes
    s_new_inputs s_next fmap list_fmap app].
  - intros x Hx. by apply elem_of_nil in Hx.
  - constructor.
  - intros a. destruct (Hd a) as (-> & _). split; [done|].
    intros [Hx|Hx]; by apply elem_of_nil in Hx.
  - intros a. apply Hd.
  - intros a s. destruct (Hd a) as (_ & _ & -> & _). done.
  - intros a f. destruct (Hd a) as (_ & _ & _ & ->). done.
  - intros a Ha. by apply elem_of_nil in Ha.
  - constructor.
  - intros a Ha. by apply elem_of_nil in Ha.
  - intros a a' s. destruct (Hd a) as (_ & _ & -> & _). done.
Qed.

(** On a DAG that stores children before their parents both searches end,
    and the state they leave describes every node of the store. *)
Lemma split_spec d split_nodes :
  wf_dag d →
  ∃ st, split d split_nodes = Some (first_of d st, second_of d st) ∧
        split_inv (nodes d) (index d) (nodes d).*1 [] st.
Proof.
  intros [Hnd Hcf Hidx]. unfold split.
  destruct (mark_split_nodes_terminates (nodes d) split_nodes (nodes d)
    (foldl (fun data node => alter_data set_used_in_result node data) ∅ (index d)))
    as (data1 & -> & Hsame); [by apply children_first_closed|].
  destruct (split_move_nodes_inv (nodes d) (index d) [] (nodes d)
    (mkSplit data1 [] [] [] (fresh_addr (nodes d)))) as (st & -> & Hinv);
    [done|done|done|by apply split_inv_init|].
  exists st. split; [|done].
  unfold first_of, second_of, d_first, d_second. by rewrite !foldl_Index_insert.
Qed.


(** *** merge on the two halves *)

Lemma omap_ext_in {A B} (f g : A → option B) (l : list A) :
  (∀ a, a ∈ l → f a = g a) → omap f l = omap g l.
Proof.
  induction l as [|x l IH]; intros Hfg; [done|]. csimpl.
  rewrite (Hfg x) by left. rewrite IH; [done|]. intros a Ha. apply Hfg. by right.
Qed.

Lemma omap_fmap_list {A B C} (f : B → option C) (h : A → B) (l : list A) :
  omap f (h <$> l) = omap (fun a => f (h a)) l.
Proof. induction l as [|x l IH]; [done|]. csimpl. by rewrite IH. Qed.

Lemma deref_fmap_node (f : nat * Node → Node) ns a :
  deref ((fun p => (p.1, f p)) <$> ns) a
  = match deref ns a with Some n => Some (f (a, n)) | None => None end.
Proof.
  induction ns as [|[b m] ns IH]; csimpl; [done|].
  destruct (decide (a = b)) as [->|]; [done | apply IH].
Qed.




Lemma nil_of_occurrences (l : list nat) : (∀ p, occurrences p l = 0) → l = [].
Proof.
  destruct l as [|x l]; [done|]. intros H. specialize (H x).
  rewrite occurrences_cons, decide_True in H by done. lia.
Qed.

Lemma folded_from_sig ns0 ns a :
  Forall2 folded_from ns0 ns → sig_of <$> deref ns a = sig_of <$> deref ns0 a.
Proof.
  induction 1 as [|[b0 m0] [b m] ns0 ns [Hb Hm] _ IH]; [done|].
  simpl in *. subst b. destruct (decide (a = b0)); [|done].
  by destruct Hm as [->|[_ ->]].
Qed.

(** Pruning keeps the result columns. *)
Lemma removeUnusedActions_names_types d :
  getNamesAndTypesList (removeUnusedActions_dag d) = getNamesAndTypesList d.
Proof.
  unfold getNamesAndTypesList, removeUnusedActions_dag. cbn [nodes index].
  apply omap_ext_in. intros a Ha.
  pose proof (prune_run_inv d) as Hinv.
  rewrite deref_filter, decide_True by (apply (inv_seed _ _ _ _ Hinv); by left).
  apply (folded_from_sig _ _ a (inv_shape _ _ _ _ Hinv)).
Qed.


Lemma same_sig_eq n m : same_sig n m → sig_of m = sig_of n.
Proof. intros [Hn Ht]. unfold sig_of. by rewrite Hn, Ht. Qed.




(** On such a DAG the index of the second half shows, entry by entry, the
    names and the types of the index of the original. *)
Lemma split_second_index_names d split_nodes :
  wf_dag d →
  ∃ first second,
    split d split_nodes = Some (first, second) ∧
    getNamesAndTypesList second = getNamesAndTypesList d.
Proof.
  intros Hwf. destruct (split_spec d split_nodes Hwf) as (st & Hsplit & Hinv).
  exists (first_of d st), (second_of d st). split; [done|].
  unfold getNamesAndTypesList. cbn [nodes index second_of].
  rewrite omap_fmap_list. apply omap_ext_in. intros a Ha.
  assert (Hs : ∃ s, d_second st a = Some s).
  { pose proof (si_done _ _ _ _ _ Hinv a (wf_index d Hwf a Ha)) as Hdone.
    destruct (d_needed st a); [by apply Hdone | done]. }
  destruct Hs as [s Hs]. rewrite Hs. cbn [ptr default from_option id].
  destruct (si_second _ _ _ _ _ Hinv a s Hs) as (_ & n & ms & Hn & Hms & Hsig & _).
  rewrite Hn, Hms. simpl. f_equal. apply (same_sig_eq _ _ Hsig).
Qed.

Lemma children_firstb_correct (pre ns : list (nat * Node)) :
  children_firstb pre.*1 ns = true →
  ∀ i a n c, ns !! i = Some (a, n) → c ∈ children n → c ∈ (pre ++ take i ns).*1.
Proof.
  revert pre. induction ns as [|[b m] ns IH]; intros pre Hb i a n c Hi Hc; [done|].
  cbn [children_firstb] in Hb. apply andb_prop in Hb as [Hhere Hrest].
  destruct i as [|i]; simpl in Hi.
  - injection Hi as -> ->. rewrite take_0, app_nil_r.
    rewrite forallb_forall in Hhere. apply list_elem_of_In in Hc.
    pose proof (Hhere c Hc) as Hx. by apply bool_decide_eq_true in Hx.
  - specialize (IH (pre ++ [(b, m)])). rewrite fmap_app in IH.
    specialize (IH Hrest i a n c Hi Hc).
    by rewrite <- app_assoc in IH.
Qed.

Lemma wf_dagb_correct d : wf_dagb d = true → wf_dag d.
Proof.
  unfold wf_dagb. intros H. apply andb_prop in H as [H Hidx].
  apply andb_prop in H as [Hnd Hcf]. split.
  - by apply bool_decide_eq_true in Hnd.
  - intros i a n c Hi Hc. by apply (children_firstb_correct [] (nodes d) Hcf i a n c).
  - intros a Ha. rewrite forallb_forall in Hidx. apply list_elem_of_In in Ha.
    pose proof (Hidx a Ha) as Hx. by apply bool_decide_eq_true in Hx.
Qed.


End SplitFacts.

(** ** The other members *)

Section IndexFacts.
Context `{RT : Runtime}.
Implicit Types (ns : list (nat * Node)) (a b : nat) (n : Node) (d : ActionsDAG)
  (idx : list nat).

Lemma Index_find_cons ns a idx name :
  Index_find ns (a :: idx) name
  = if has_name ns name a then Some a else Index_find ns idx name.
Proof.
  unfold Index_find. cbn [list_find].
  destruct (decide (has_name ns name a = true)) as [->|Hne]; [done|].
  apply not_true_is_false in Hne. rewrite Hne.
  by destruct (list_find _ idx) as [[? ?]|].
Qed.

Lemma Index_find_nil ns name : Index_find ns [] name = None.
Proof. done. Qed.

Lemma Index_find_Some ns idx name a :
  Index_find ns idx name = Some a → a ∈ idx ∧ name_of ns a = Some name.
Proof.
  induction idx as [|b idx IH]; [done|]. rewrite Index_find_cons.
  destruct (has_name ns name b) eqn:Hb.
  - intros [= ->]. split; [left|]. by apply bool_decide_eq_true in Hb.
  - intros H. destruct (IH H). split; [by right | done].
Qed.

Lemma Index_find_None ns idx name :
  Index_find ns idx name = None ↔ ∀ a, a ∈ idx → name_of ns a ≠ Some name.
Proof.
  induction idx as [|b idx IH].
  - split; [|done]. intros _ a Ha. by apply elem_of_nil in Ha.
  - rewrite Index_find_cons. destruct (has_name ns name b) eqn:Hb.
    + split; [done|]. intros H. apply bool_decide_eq_true in Hb.
      by destruct (H b ltac:(left)).
    + apply bool_decide_eq_false in Hb. rewrite IH. split.
      * intros H a Ha. apply elem_of_cons in Ha as [->|Ha]; [done | by apply H].
      * intros H a Ha. apply H. by right.
Qed.

Lemma Index_find_ext ns ns' idx name :
  (∀ a, a ∈ idx → name_of ns' a = name_of ns a) →
  Index_find ns' idx name = Index_find ns idx name.
Proof.
  induction idx as [|b idx IH]; intros Hext; [done|].
  rewrite !Index_find_cons. unfold has_name. rewrite (Hext b) by left.
  rewrite IH; [done|]. intros a Ha. apply Hext. by right.
Qed.

Lemma Index_find_app ns idx1 idx2 name :
  Index_find ns (idx1 ++ idx2) name
  = match Index_find ns idx1 name with
    | Some a => Some a
    | None => Index_find ns idx2 name
    end.
Proof.
  induction idx1 as [|b idx1 IH]; [done|]. cbn [app]. rewrite !Index_find_cons.
  by destruct (has_name ns name b).
Qed.

Lemma Index_find_filter_same ns idx name :
  Index_find ns (filter (fun b => has_name ns name b = false) idx) name = None.
Proof.
  apply Index_find_None. intros a Ha. apply list_elem_of_filter in Ha as [Ha _].
  by apply bool_decide_eq_false in Ha.
Qed.

Lemma Index_find_filter_other ns idx name name0 :
  name ≠ name0 →
  Index_find ns (filter (fun b => has_name ns name0 b = false) idx) name
  = Index_find ns idx name.
Proof.
  intros Hne. induction idx as [|b idx IH]; [done|].
  rewrite filter_cons. destruct (decide (has_name ns name0 b = false)) as [Hb|Hb].
  - rewrite !Index_find_cons. by rewrite IH.
  - rewrite Index_find_cons, IH. apply not_false_is_true in Hb.
    apply bool_decide_eq_true in Hb.
    unfold has_name at 1. rewrite bool_decide_eq_false_2; [done|]. congruence.
Qed.

(** The names of the old nodes, read in the store after a push. *)
Lemma name_of_push ns a n :
  a ∈ ns.*1 → name_of (ns ++ [(fresh_addr ns, n)]) a = name_of ns a.
Proof.
  intros Ha. unfold name_of. rewrite deref_app.
  destruct (deref ns a) eqn:Hd; [done|]. by apply deref_None in Hd.
Qed.

Lemma Index_replace_elem ns idx a b :
  b ∈ Index_replace ns idx a → b ∈ idx ∨ b = a.
Proof.
  unfold Index_replace. destruct (name_of ns a); rewrite elem_of_app;
    intros [Hb|Hb]; try (right; by apply list_elem_of_singleton in Hb).
  - left. by apply list_elem_of_filter in Hb as [_ ?].
  - by left.
Qed.

End IndexFacts.

Section BuilderMore.
Context `{RT : Runtime}.
Variable getNestedType : DataType -> option DataType.
Variable default_can_replace : bool.
Implicit Types (ns : list (nat * Node)) (a b : nat) (n : Node) (d : ActionsDAG)
  (idx : list nat).

(** The two ways addNode ends. *)
Lemma addNode_cases node can_replace d r d' :
  addNode node can_replace d = (r, d') →
  (r = Throw DUPLICATE_COLUMN ∧ d' = d) ∨
  (r = Ok (fresh_addr (nodes d)) ∧
   d' = {| nodes := nodes d ++ [(fresh_addr (nodes d), node)];
           index := Index_replace (nodes d ++ [(fresh_addr (nodes d), node)]) (index d)
                      (fresh_addr (nodes d));
           inputs := if decide (type node = INPUT)
                     then inputs d ++ [fresh_addr (nodes d)] else inputs d;
           settings := settings d |}).
Proof.
  unfold addNode. destruct (_ && _); intros [= <- <-]; [by left | by right].
Qed.

Lemma addNode_getNode node can_replace d res d' :
  (∀ a, a ∈ index d → a ∈ (nodes d).*1) →
  addNode node can_replace d = (Ok res, d') →
  getNode (result_name node) d' = (Ok res, d') ∧
  ∀ name, name ≠ result_name node →
    Index_find (nodes d') (index d') name = Index_find (nodes d) (index d) name.
Proof.
  intros Hidx Hadd. apply addNode_cases in Hadd as [[? _]|[[= ->] ->]]; [done|].
  set (ns' := nodes d ++ [(fresh_addr (nodes d), node)]).
  assert (Hname : name_of ns' (fresh_addr (nodes d)) = Some (result_name node)).
  { unfold name_of, ns'. by rewrite deref_push_fresh. }
  assert (Hold : ∀ a, a ∈ index d → name_of ns' a = name_of (nodes d) a).
  { intros a Ha. apply name_of_push. by apply Hidx. }
  unfold getNode. cbn [nodes index]. fold ns'. unfold Index_replace. rewrite Hname.
  split.
  - rewrite Index_find_app, Index_find_filter_same, Index_find_cons.
    unfold has_name. by rewrite Hname, bool_decide_eq_true_2.
  - intros name Hne. rewrite Index_find_app, Index_find_filter_other by done.
    rewrite (Index_find_ext (nodes d) ns') by done.
    destruct (Index_find (nodes d) (index d) name); [done|].
    rewrite Index_find_cons. unfold has_name. rewrite Hname.
    rewrite bool_decide_eq_false_2; [done|]. congruence.
Qed.


Lemma addNode_pushed node can_replace d r d' :
  (∀ c, c ∈ children node → c ∈ (nodes d).*1) →
  (type node = ARRAY_JOIN → column node = None) →
  addNode node can_replace d = (r, d') →
  ((∃ e, r = Throw e) ∧ d' = d) ∨ pushed d r d'.
Proof.
  intros Hc Haj Hadd. apply addNode_cases in Hadd as [[-> ->]|[-> ->]].
  - left. split; [by eexists | done].
  - right. by exists node.
Qed.

Lemma mapM_deref_in ns cs child_nodes c :
  mapM (deref ns) cs = Some child_nodes → c ∈ cs → c ∈ ns.*1.
Proof.
  intros Hm Hc. apply mapM_Some_1 in Hm.
  apply list_elem_of_lookup in Hc as [i Hi].
  destruct (Forall2_lookup_l _ _ _ _ _ Hm Hi) as (n & _ & Hd).
  by eapply deref_Some_addr.
Qed.

Lemma builder_pushes m d r d' :
  builder_call getNestedType default_can_replace m →
  m d = (r, d') →
  ((∃ e, r = Throw e) ∧ d' = d) ∨ pushed d r d'.
Proof.
  assert (Hthrow : ∀ e, ((∃ e', Throw e = Throw (A:=nat) e') ∧ d = d) ∨ pushed d (Throw e) d).
  { intros e. left. split; [by eexists | done]. }
  destruct 1 as [name ty cr|col cr|col cr|name alias cr|child alias cr|src res|func cs name cr].
  - apply addNode_pushed; [|done]. intros c Hc. by apply elem_of_nil in Hc.
  - apply addNode_pushed; [|done]. intros c Hc. by apply elem_of_nil in Hc.
  - unfold addColumn. destruct (c_column col); [|intros [= <- <-]; apply Hthrow].
    apply addNode_pushed; [|done]. intros x Hx. by apply elem_of_nil in Hx.
  - unfold addAlias, bind, getNode.
    destruct (Index_find _ _ _) as [child|]; [|intros [= <- <-]; apply Hthrow].
    unfold addAlias_node, bind, node_at.
    destruct (deref (nodes d) child) as [cn|] eqn:Hd; [|intros [= <- <-]; apply Hthrow].
    apply addNode_pushed; [|done]. intros x Hx. apply list_elem_of_singleton in Hx as ->.
    by eapply deref_Some_addr.
  - unfold addAlias_node, bind, node_at.
    destruct (deref (nodes d) child) as [cn|] eqn:Hd; [|intros [= <- <-]; apply Hthrow].
    apply addNode_pushed; [|done]. intros x Hx. apply list_elem_of_singleton in Hx as ->.
    by eapply deref_Some_addr.
  - unfold addArrayJoin, bind, getNode.
    destruct (Index_find _ _ _) as [child|]; [|intros [= <- <-]; apply Hthrow].
    unfold node_at.
    destruct (deref (nodes d) child) as [cn|] eqn:Hd; [|intros [= <- <-]; apply Hthrow].
    destruct (getNestedType (result_type cn)); [|intros [= <- <-]; apply Hthrow].
    apply addNode_pushed; [|done]. intros x Hx. apply list_elem_of_singleton in Hx as ->.
    by eapply deref_Some_addr.
  - unfold addFunction.
    destruct (mapM _ _) as [child_nodes|] eqn:Hm; [|intros [= <- <-]; apply Hthrow].
    apply addNode_pushed; [|done]. intros x Hx. by eapply mapM_deref_in.
Qed.

(** X1.  A node that addNode has stored is the one getNode returns for its
    name, whatever the index held under that name before; the other names
    resolve as they did. *)
Theorem addNode_then_getNode node can_replace d res d' :
  (∀ a, a ∈ index d → a ∈ (nodes d).*1) →
  addNode node can_replace d = (Ok res, d') →
  getNode (result_name node) d' = (Ok res, d') ∧
  ∀ name, name ≠ result_name node →
    Index_find (nodes d') (index d') name = Index_find (nodes d) (index d) name.
Proof. apply addNode_getNode. Qed.

(** X2.  Each call that adds a node either throws and leaves the DAG as it
    was, or pushes exactly one node at a fresh address, with every child in
    the store, puts it in the index in place of the entries of its name, and
    appends it to the inputs when it is an INPUT. *)
Theorem builder_call_pushes m d r d' :
  builder_call getNestedType default_can_replace m →
  m d = (r, d') →
  ((∃ e, r = Throw e) ∧ d' = d) ∨ pushed d r d'.
Proof. apply builder_pushes. Qed.

End BuilderMore.

Section BuiltFacts.
Context `{RT : Runtime}.
Variable getNestedType : DataType -> option DataType.
Variable default_can_replace : bool.
Variable USE_EMBEDDED_COMPILER : bool.
Implicit Types (ns : list (nat * Node)) (a b : nat) (n : Node) (d : ActionsDAG)
  (idx : list nat).

Lemma children_first_push ns a n :
  children_first ns → (∀ c, c ∈ children n → c ∈ ns.*1) →
  children_first (ns ++ [(a, n)]).
Proof.
  intros Hcf Hc i b m c Hi Hin.
  destruct (decide (i < length ns)) as [Hlt|Hge].
  - rewrite lookup_app_l in Hi by done. rewrite take_app_le by lia. eauto.
  - rewrite lookup_app_r in Hi by lia.
    destruct (i - length ns) as [|k] eqn:Hk; [|done]. injection Hi as <- <-.
    replace i with (length ns) by lia. rewrite take_app_length. by apply Hc.
Qed.

Lemma pushed_wf d r d' : wf_dag d → pushed d r d' → wf_dag d'.
Proof.
  intros [Hnd Hcf Hidx] (n & _ & -> & Hc & _). split; cbn [nodes index].
  - rewrite fmap_app. apply NoDup_app. split; [done|]. split; [|apply NoDup_singleton].
    intros x Hx Hx'. csimpl in Hx'. apply list_elem_of_singleton in Hx' as ->.
    by apply fresh_addr_fresh in Hx.
  - by apply children_first_push.
  - intros a Ha. rewrite fmap_app, elem_of_app.
    apply Index_replace_elem in Ha as [Ha| ->]; [left; by apply Hidx|].
    right. csimpl. left.
Qed.

Lemma pushed_plain d r d' :
  array_joins_plain (nodes d) → pushed d r d' → array_joins_plain (nodes d').
Proof.
  intros Hp (n & _ & -> & _ & Haj) a m Hin Hty. cbn [nodes] in Hin.
  apply elem_of_app in Hin as [Hin|Hin]; [by eapply Hp|].
  apply list_elem_of_singleton in Hin. injection Hin as -> ->. by apply Haj.
Qed.

(** *** The pruner on a well-formed DAG *)

Lemma folded_from_children_first ns0 ns :
  Forall2 folded_from ns0 ns → children_first ns0 → children_first ns.
Proof.
  intros HF Hcf i a n c Hi Hc.
  destruct (Forall2_lookup_r _ _ _ _ _ HF Hi) as ([a0 n0] & Hi0 & Ha & Hn).
  simpl in Ha, Hn. subst a0.
  rewrite (folded_from_addrs (take i ns0) (take i ns)) by (by apply Forall2_take).
  apply (Hcf i a n0 c Hi0). destruct Hn as [->|[_ ->]]; [done|].
  by apply elem_of_nil in Hc.
Qed.

Lemma children_first_filter (V : gset nat) ns (seen seen' : list nat) :
  (∀ i a n c, ns !! i = Some (a, n) → c ∈ children n → c ∈ seen ++ (take i ns).*1) →
  (∀ a n c, (a, n) ∈ ns → a ∈ V → c ∈ children n → c ∈ V) →
  (∀ c, c ∈ seen → c ∈ V → c ∈ seen') →
  ∀ i a n c, filter (fun p => p.1 ∈ V) ns !! i = Some (a, n) → c ∈ children n →
             c ∈ seen' ++ (take i (filter (fun p => p.1 ∈ V) ns)).*1.
Proof.
  revert seen seen'. induction ns as [|[b m] ns IH]; intros seen seen' Hcf Hcl Hseen;
    [done|].
  assert (Hrest : ∀ i a n c, ns !! i = Some (a, n) → c ∈ children n →
                             c ∈ (seen ++ [b]) ++ (take i ns).*1).
  { intros i a n c Hi Hc. rewrite <- app_assoc. apply (Hcf (S i) a n c Hi Hc). }
  assert (Hcl' : ∀ a n c, (a, n) ∈ ns → a ∈ V → c ∈ children n → c ∈ V).
  { intros a n c Hin. apply Hcl. by right. }
  rewrite filter_cons. cbn [fst]. destruct (decide (b ∈ V)) as [Hb|Hb].
  - intros [|i] a n c Hi Hc.
    + cbn [lookup list_lookup] in Hi. injection Hi as <- <-.
      cbn [take fmap list_fmap]. rewrite app_nil_r.
      assert (HcV : c ∈ V) by (apply (Hcl b m c); [left|done|done]).
      apply Hseen; [|done].
      specialize (Hcf 0 b m c eq_refl Hc). by rewrite take_0, app_nil_r in Hcf.
    + cbn [lookup list_lookup] in Hi. cbn [take fmap list_fmap fst].
      change (seen' ++ b :: (take i (filter (fun p => p.1 ∈ V) ns)).*1)
        with (seen' ++ [b] ++ (take i (filter (fun p => p.1 ∈ V) ns)).*1).
      rewrite app_assoc.
      apply (IH (seen ++ [b]) (seen' ++ [b]) Hrest Hcl') with (a := a) (n := n); [|done..].
      intros x Hx HxV. rewrite elem_of_app in Hx |- *.
      destruct Hx as [Hx|Hx]; [left; by apply Hseen | by right].
  - intros i a n c. apply (IH (seen ++ [b]) seen' Hrest Hcl').
    intros x Hx HxV. apply elem_of_app in Hx as [Hx|Hx]; [by apply Hseen|].
    apply list_elem_of_singleton in Hx as ->. done.
Qed.

Lemma removeUnusedActions_wf d : wf_dag d → wf_dag (removeUnusedActions_dag d).
Proof.
  intros [Hnd Hcf Hidx].
  pose proof (prune_run_inv d) as Hinv. pose proof (prune_run_stack d) as Hstack.
  pose proof (inv_shape _ _ _ _ Hinv) as HF.
  pose proof (folded_from_addrs _ _ HF) as Haddrs.
  unfold removeUnusedActions_dag. split; cbn [nodes index].
  - eapply sublist_NoDup; [|apply fmap_sublist, sublist_filter]. by rewrite Haddrs.
  - intros i a n c Hi Hc.
    apply (children_first_filter (visited_nodes (prune_run d)) (p_nodes (prune_run d))
             [] [] ) with (a := a) (n := n); [| |done|done|done].
    + apply (folded_from_children_first _ _ HF Hcf).
    + intros b m x Hin Hb Hx.
      eapply (inv_closed _ _ _ _ Hinv b m); [done| | |done].
      * rewrite Hstack. apply not_elem_of_nil.
      * apply In_deref_NoDup; [by rewrite Haddrs | done].
  - intros a Ha.
    assert (HaV : a ∈ visited_nodes (prune_run d))
      by (apply (inv_seed _ _ _ _ Hinv); by left).
    specialize (Hidx a Ha). rewrite <- Haddrs in Hidx.
    apply list_elem_of_fmap in Hidx as ([b m] & -> & Hin).
    apply list_elem_of_fmap. exists (b, m). split; [done|].
    by apply list_elem_of_filter.
Qed.

Lemma removeUnusedActions_plain d :
  array_joins_plain (nodes d) → array_joins_plain (nodes (removeUnusedActions_dag d)).
Proof.
  intros Hp a n Hin Hty. cbn [removeUnusedActions_dag nodes] in Hin.
  apply list_elem_of_filter in Hin as [_ Hin].
  pose proof (inv_shape _ _ _ _ (prune_run_inv d)) as HF.
  destruct (folded_from_origin _ _ _ _ HF Hin) as (n0 & Hin0 & [->|[_ ->]]).
  - by eapply Hp.
  - done.
Qed.


(** *** Runs of pushes *)

Lemma pushes_trans d1 d2 d3 : pushes d1 d2 → pushes d2 d3 → pushes d1 d3.
Proof. induction 1; [done|]. intros. eapply pushes_step; eauto. Qed.

Lemma pushes_one d r d' : pushed d r d' → pushes d d'.
Proof. intros. eapply pushes_step; [done | apply pushes_refl]. Qed.

Lemma pushes_wf d d' : pushes d d' → wf_dag d → wf_dag d'.
Proof. induction 1; [done|]. intros. eauto using pushed_wf. Qed.

Lemma pushes_plain d d' :
  pushes d d' → array_joins_plain (nodes d) → array_joins_plain (nodes d').
Proof. induction 1; [done|]. intros. eauto using pushed_plain. Qed.

Lemma pushed_deref d r d' a n :
  pushed d r d' → deref (nodes d) a = Some n → deref (nodes d') a = Some n.
Proof. intros (m & _ & -> & _) Hd. cbn [nodes]. by apply deref_push_old. Qed.

Lemma pushes_deref d d' a n :
  pushes d d' → deref (nodes d) a = Some n → deref (nodes d') a = Some n.
Proof. induction 1; [done|]. intros. eauto using pushed_deref. Qed.

Lemma pushes_store d d' a : pushes d d' → a ∈ (nodes d).*1 → a ∈ (nodes d').*1.
Proof.
  induction 1 as [|d r d1 d2 (m & _ & -> & _) _ IH]; [done|]. intros Ha. apply IH.
  cbn [nodes]. rewrite fmap_app, elem_of_app. by left.
Qed.

Lemma pushes_settings d d' : pushes d d' → settings d' = settings d.
Proof.
  induction 1 as [|d r d1 d2 (m & _ & -> & _) _ IH]; [done|]. by rewrite IH.
Qed.

(** *** Resolving names *)

Lemma get_nodes_spec names d r d' :
  get_nodes names d = (r, d') →
  d' = d ∧
  match r with
  | Ok children =>
      Forall2 (fun name a => Index_find (nodes d) (index d) name = Some a) names children
  | Throw e =>
      e = UNKNOWN_IDENTIFIER ∧
      ∃ name, name ∈ names ∧ Index_find (nodes d) (index d) name = None
  end.
Proof.
  revert r d'. induction names as [|name names IH]; intros r d'; cbn [get_nodes].
  - intros [= <- <-]. split; [done | constructor].
  - unfold bind at 1, getNode.
    destruct (Index_find (nodes d) (index d) name) as [a|] eqn:Hf.
    + unfold bind. destruct (get_nodes names d) as [[l|e] d1] eqn:Hg.
      * destruct (IH _ _ eq_refl) as [-> HF]. intros [= <- <-].
        split; [done | by constructor].
      * destruct (IH _ _ eq_refl) as [-> (-> & nm & Hin & Hnone)]. intros [= <- <-].
        split; [done|]. split; [done|]. exists nm. split; [by right | done].
    + intros [= <- <-]. split; [done|]. split; [done|]. exists name. split; [left | done].
Qed.

(** *** addAliases *)

Lemma add_alias_item_spec item child d r d' :
  child ∈ (nodes d).*1 →
  add_alias_item item child d = (r, d') →
  ∃ res, r = Ok res ∧ alias_result d d' item child res ∧
         (d' = d ∧ res = child ∨ pushed d r d' ∧ inputs d' = inputs d).
Proof.
  intros Hchild. unfold add_alias_item, alias_result.
  destruct (decide (item.2 ≠ EmptyString ∧ item.1 ≠ item.2)) as [[H1 H2]|Hno].
  - rewrite bool_decide_eq_false_2, bool_decide_eq_true_2 by done. cbn [negb andb].
    unfold bind, node_at.
    destruct (deref (nodes d) child) as [c|] eqn:Hd; [|by apply deref_None in Hd].
    intros Hadd.
    pose proof Hadd as Hadd'. apply addNode_cases in Hadd' as [[? _]|[-> ->]].
    { pose proof (addNode_can_replace
        {| children := [child]; type := ALIAS; result_name := item.2;
           result_type := result_type c; function_builder := None;
           function_base := None; function := None; column := column c;
           allow_constant_folding := allow_constant_folding c |} d) as [d1 Hok].
      rewrite Hok in Hadd. by simplify_eq. }
    eexists. split; [done|]. split.
    + split; [apply fresh_addr_fresh|]. eexists c, _. split; [done|].
      cbn [nodes]. rewrite deref_push_fresh. done.
    + right. split; [|done]. eexists. split; [done|]. split; [done|]. split; [|done].
      intros x Hx. by apply list_elem_of_singleton in Hx as ->.
  - assert (negb (bool_decide (item.2 = EmptyString)) && bool_decide (item.1 ≠ item.2)
            = false) as ->.
    { apply andb_false_iff. destruct (decide (item.2 = EmptyString)) as [He|He].
      - left. by rewrite bool_decide_eq_true_2.
      - right. apply bool_decide_eq_false_2. intros Hne. apply Hno. done. }
    intros [= <- <-]. exists child. split; [done|]. split; [done|]. by left.
Qed.

Lemma alias_result_later d d1 d2 item child res :
  pushes d1 d2 → alias_result d d1 item child res → alias_result d d2 item child res.
Proof.
  intros Hp. unfold alias_result. destruct (decide _); [|done].
  intros (Hfresh & c & n & Hc & Hn & Hrest). split; [done|].
  exists c, n. split; [done|]. split; [by eapply pushes_deref | done].
Qed.

Lemma alias_result_earlier d0 d d' item child res :
  pushes d0 d → child ∈ (nodes d0).*1 →
  alias_result d d' item child res → alias_result d0 d' item child res.
Proof.
  intros Hp Hchild. unfold alias_result. destruct (decide _); [|done].
  intros (Hfresh & c & n & Hc & Hn & Hrest). split.
  - intros Hin. apply Hfresh. by eapply pushes_store.
  - destruct (deref (nodes d0) child) as [c0|] eqn:Hd0; [|by apply deref_None in Hd0].
    pose proof (pushes_deref _ _ _ _ Hp Hd0) as Hd. assert (c0 = c) as -> by congruence.
    by exists c, n.
Qed.


Lemma add_alias_items_spec d0 aliases required_nodes d r d' :
  pushes d0 d →
  Forall2 (fun (_ : string * string) child => child ∈ (nodes d0).*1) aliases required_nodes →
  add_alias_items aliases required_nodes d = (r, d') →
  ∃ result_nodes,
    r = Ok result_nodes ∧ pushes d d' ∧ inputs d' = inputs d ∧
    Forall2 (fun ic res => alias_result d0 d' ic.1 ic.2 res)
      (zip aliases required_nodes) result_nodes.
Proof.
  intros Hp HF. revert d r d' Hp.
  induction HF as [|item child aliases required_nodes Hchild _ IH]; intros d r d' Hp.
  - intros [= <- <-]. exists []. split_and!; [done|apply pushes_refl|done|constructor].
  - cbn [add_alias_items]. unfold bind at 1.
    destruct (add_alias_item item child d) as [r1 d1] eqn:H1.
    destruct (add_alias_item_spec item child d r1 d1) as (res & -> & Hres & Hstep);
      [by eapply pushes_store | done |].
    assert (Hp1 : pushes d d1 ∧ inputs d1 = inputs d).
    { destruct Hstep as [[-> _]|[Hpushed Hin]]; [split; [apply pushes_refl | done]|].
      split; [by eapply pushes_one | done]. }
    destruct Hp1 as [Hp1 Hin1]. unfold bind.
    destruct (add_alias_items aliases required_nodes d1) as [r2 d2] eqn:H2.
    destruct (IH d1 r2 d2) as (l & -> & Hp2 & Hin2 & HF2);
      [by eapply pushes_trans | done |].
    intros [= <- <-]. exists (res :: l).
    split_and!; [done | by eapply pushes_trans | congruence |].
    cbn [zip zip_with]. constructor; [|done]. cbn [fst snd].
    eapply alias_result_later; [exact Hp2|].
    by eapply alias_result_earlier.
Qed.

Lemma addAliases_nodes_resolved aliases d r d' :
  (∀ a, a ∈ index d → a ∈ (nodes d).*1) →
  addAliases_nodes aliases d = (r, d') →
  match r with
  | Throw e =>
      e = UNKNOWN_IDENTIFIER ∧ d' = d ∧
      ∃ name, name ∈ aliases.*1 ∧ Index_find (nodes d) (index d) name = None
  | Ok result_nodes =>
      pushes d d' ∧ inputs d' = inputs d ∧
      Forall2 (fun item res =>
                 ∃ child, Index_find (nodes d) (index d) item.1 = Some child ∧
                          alias_result d d' item child res)
        aliases result_nodes
  end.
Proof.
  intros Hidx. unfold addAliases_nodes, bind.
  destruct (get_nodes aliases.*1 d) as [[required_nodes|e] d1] eqn:Hg;
    destruct (get_nodes_spec _ _ _ _ Hg) as [-> Hspec].
  - intros Hitems.
    assert (HF : Forall2 (fun (_ : string * string) child => child ∈ (nodes d).*1)
                   aliases required_nodes).
    { apply Forall2_fmap_l in Hspec. eapply Forall2_impl; [exact Hspec|].
      intros item child Hf. apply Index_find_Some in Hf as [Hin _]. by apply Hidx. }
    destruct (add_alias_items_spec d aliases required_nodes d r d' (pushes_refl d) HF Hitems)
      as (l & -> & Hp & Hin & Hres).
    split; [done|]. split; [done|].
    apply Forall2_fmap_l in Hspec. clear HF Hitems Hg.
    revert l Hres. induction Hspec as [|item child aliases required_nodes Hf _ IH];
      intros l Hres; cbn [zip zip_with] in Hres.
    + apply Forall2_nil_inv_l in Hres as ->. constructor.
    + apply Forall2_cons_inv_l in Hres as (res & l' & Hr & Hl & ->).
      constructor; [exists child; split; [exact Hf | exact Hr] | apply IH; exact Hl].
  - intros [= <- <-]. destruct Hspec as (-> & name & Hin & Hnone). eauto.
Qed.

(** X7.  addAliases resolves every name in the DAG as it is at the call.
    When a name is not in the index it throws UNKNOWN_IDENTIFIER and the DAG
    is untouched; otherwise it does not throw, only pushes nodes, and gives
    for each item the node its name stands for, or a new ALIAS of that node
    when the alias is not empty and differs from the name. *)
Theorem addAliases_nodes_spec aliases d r d' :
  (∀ a, a ∈ index d → a ∈ (nodes d).*1) →
  addAliases_nodes aliases d = (r, d') →
  match r with
  | Throw e =>
      e = UNKNOWN_IDENTIFIER ∧ d' = d ∧
      ∃ name, name ∈ aliases.*1 ∧ Index_find (nodes d) (index d) name = None
  | Ok result_nodes =>
      pushes d d' ∧ inputs d' = inputs d ∧
      Forall2 (fun item res =>
                 ∃ child, Index_find (nodes d) (index d) item.1 = Some child ∧
                          alias_result d d' item child res)
        aliases result_nodes
  end.
Proof. apply addAliases_nodes_resolved. Qed.

Lemma getNames_fst d : getNames d = (getNamesAndTypesList d).*1.
Proof.
  unfold getNames, getNamesAndTypesList, name_of.
  induction (index d) as [|a idx IH]; [done|]. csimpl.
  destruct (deref (nodes d) a); csimpl; by rewrite IH.
Qed.



(** *** The other members on a well-formed DAG *)

Lemma wf_dag_index d idx st :
  wf_dag d → (∀ a, a ∈ idx → a ∈ (nodes d).*1) →
  wf_dag {| nodes := nodes d; index := idx; inputs := inputs d; settings := st |}.
Proof. intros [? ? ?] Hidx. by split. Qed.

Lemma resolve_required_in ns idx required_names (nodes_set : gset nat) acc required_nodes :
  resolve_required ns idx required_names nodes_set acc = Ok required_nodes →
  ∀ a, a ∈ required_nodes → a ∈ acc ∨ a ∈ idx.
Proof.
  revert nodes_set acc. induction required_names as [|name rest IH];
    intros nodes_set acc; cbn [resolve_required].
  - intros [= <-] a Ha. by left.
  - destruct (Index_find ns idx name) as [it|] eqn:Hf; [|done].
    apply Index_find_Some in Hf as [Hit _].
    destruct (decide (it ∈ nodes_set)); intros Hr a Ha.
    + by eapply IH.
    + destruct (IH _ _ Hr a Ha) as [Hacc|?]; [|by right].
      apply elem_of_app in Hacc as [?|Hx]; [by left|].
      apply list_elem_of_singleton in Hx as ->. by right.
Qed.

Lemma removeUnusedActions_names_wf required_names d r d' :
  wf_dag d → array_joins_plain (nodes d) →
  removeUnusedActions_names required_names d = (r, d') →
  wf_dag d' ∧ array_joins_plain (nodes d').
Proof.
  intros Hwf Hp. unfold removeUnusedActions_names.
  destruct (resolve_required _ _ _ _ _) as [required_nodes|e] eqn:Hr;
    [|by intros [= <- <-]].
  unfold removeUnusedActions_nodes, removeUnusedActions. intros [= <- <-].
  rewrite foldl_Index_insert. cbn [app]. split.
  - apply removeUnusedActions_wf. apply wf_dag_index; [done|].
    intros a Ha. destruct (resolve_required_in _ _ _ _ _ _ Hr a Ha) as [Hx|Hx].
    + by apply elem_of_nil in Hx.
    + by apply (wf_index d Hwf).
  - by apply removeUnusedActions_plain.
Qed.

Lemma tryRestoreColumn_spec column_name d r d' :
  tryRestoreColumn column_name d = (r, d') →
  nodes d' = nodes d ∧ inputs d' = inputs d ∧ settings d' = settings d ∧
  (index d' = index d ∨
   ∃ a n, (a, n) ∈ nodes d ∧ result_name n = column_name ∧
          index d' = Index_replace (nodes d) (index d) a).
Proof.
  unfold tryRestoreColumn. destruct (Index_contains _ _ _).
  { intros [= <- <-]. split_and!; try done. by left. }
  destruct (list_find _ _) as [[i [a n]]|] eqn:Hf.
  - intros [= <- <-]. split_and!; try done. right. exists a, n.
    apply list_find_Some in Hf as (Hi & Hn & _).
    apply list_elem_of_lookup_2 in Hi. rewrite elem_of_reverse in Hi.
    split; [exact Hi|]. split; [exact Hn | done].
  - intros [= <- <-]. split_and!; try done. by left.
Qed.

Lemma tryRestoreColumn_wf column_name d r d' :
  wf_dag d → tryRestoreColumn column_name d = (r, d') → wf_dag d'.
Proof.
  intros [Hnd Hcf Hidx] Ht.
  destruct (tryRestoreColumn_spec _ _ _ _ Ht) as (Hn & _ & _ & Hi).
  split; rewrite ?Hn; [done|done|].
  destruct Hi as [->|(a & n & Hin & _ & ->)]; [done|].
  intros b Hb. apply Index_replace_elem in Hb as [Hb| ->]; [by apply Hidx|].
  apply list_elem_of_fmap. by exists (a, n).
Qed.

Lemma addFunction_names_spec func argument_names result_name all_settings d r d' :
  addFunction_names USE_EMBEDDED_COMPILER func argument_names result_name all_settings d
  = (r, d') →
  match get_nodes argument_names
          {| nodes := nodes d; index := index d; inputs := inputs d;
             settings := read_context USE_EMBEDDED_COMPILER all_settings (settings d) |} with
  | (Ok children, _) =>
      addFunction func children result_name false
        {| nodes := nodes d; index := index d; inputs := inputs d;
           settings := read_context USE_EMBEDDED_COMPILER all_settings (settings d) |}
      = (r, d')
  | (Throw e, _) =>
      r = Throw UNKNOWN_IDENTIFIER ∧
      d' = {| nodes := nodes d; index := index d; inputs := inputs d;
              settings := read_context USE_EMBEDDED_COMPILER all_settings (settings d) |}
  end.
Proof.
  unfold addFunction_names, bind.
  set (d1 := {| nodes := nodes d; index := index d; inputs := inputs d;
                settings := read_context USE_EMBEDDED_COMPILER all_settings (settings d) |}).
  intros H.
  destruct (get_nodes argument_names d1) as [[children|e] d2] eqn:Hg;
    destruct (get_nodes_spec _ _ _ _ Hg) as [-> Hspec]; [done|].
  destruct Hspec as [-> _]. by simplify_eq.
Qed.

(** X3.  Every DAG that the members of the class make out of an empty one
    is well formed: the nodes have distinct addresses, each is stored after
    its children, the index points into the store, and no ARRAY_JOIN node
    carries a column. *)
Theorem built_well_formed d :
  built getNestedType default_can_replace USE_EMBEDDED_COMPILER d →
  wf_dag d ∧ array_joins_plain (nodes d).
Proof.
  induction 1 as [st|m d r d' _ [Hwf Hp] Hcall Hm
                  |func names name ctx d r d' _ [Hwf Hp] Hf
                  |d r d' _ [Hwf Hp] Hr
                  |names d r d' _ [Hwf Hp] Hr
                  |aliases d r d' _ [Hwf Hp] Ha
                  |projection d r d' _ [Hwf Hp] Hpr
                  |name d r d' _ [Hwf Hp] Ht
                  |d r d' _ [Hwf Hp] Hpi].
  - split.
    + split; cbn [nodes index]; [constructor | done |].
      intros a Ha. by apply elem_of_nil in Ha.
    + intros a n Hin. by apply elem_of_nil in Hin.
  - destruct (builder_pushes _ _ _ _ _ _ Hcall Hm) as [[_ ->]|Hpushed]; [done|].
    split; [by eapply pushed_wf | by eapply pushed_plain].
  - apply addFunction_names_spec in Hf.
    set (d1 := {| nodes := nodes d; index := index d; inputs := inputs d;
                  settings := read_context USE_EMBEDDED_COMPILER ctx (settings d) |}) in *.
    assert (Hwf1 : wf_dag d1) by (destruct Hwf; by split).
    destruct (get_nodes names d1) as [[children|e] d2].
    + destruct (builder_pushes _ _ _ d1 _ _
                  (call_addFunction getNestedType default_can_replace
                     func children name false) Hf) as [[_ ->]|Hpushed]; [done|].
      split; [by eapply pushed_wf | by eapply (pushed_plain d1)].
    + destruct Hf as [_ ->]. done.
  - unfold removeUnusedActions in Hr. injection Hr as <- <-.
    split; [by apply removeUnusedActions_wf | by apply removeUnusedActions_plain].
  - by eapply removeUnusedActions_names_wf.
  - unfold addAliases, bind in Ha.
    destruct (addAliases_nodes aliases d) as [[l|e] d1] eqn:Hal;
      pose proof (addAliases_nodes_resolved _ _ _ _ (wf_index d Hwf) Hal) as Hspec;
      cbn in Hspec.
    + injection Ha as <- <-. destruct Hspec as (Hpushes & _).
      split; [by eapply pushes_wf | by eapply pushes_plain].
    + injection Ha as <- <-. by destruct Hspec as (_ & -> & _).
  - unfold project in Hpr. unfold bind at 1 in Hpr.
    destruct (addAliases_nodes projection d) as [[l|e] d1] eqn:Hal;
      pose proof (addAliases_nodes_resolved _ _ _ _ (wf_index d Hwf) Hal) as Hspec;
      cbn in Hspec.
    + destruct Hspec as (Hpushes & _ & HF).
      unfold bind, removeUnusedActions_nodes, removeUnusedActions, projectInput in Hpr.
      injection Hpr as <- <-. rewrite foldl_Index_insert. cbn [app].
      assert (Hwf1 : wf_dag {| nodes := nodes d1; index := l; inputs := inputs d1;
                               settings := settings d1 |}).
      { apply wf_dag_index; [by eapply pushes_wf|].
        intros a Ha. apply list_elem_of_lookup in Ha as [i Hi].
        destruct (Forall2_lookup_r _ _ _ _ _ HF Hi) as (item & _ & child & Hfind & Hres).
        unfold alias_result in Hres. destruct (decide _).
        - destruct Hres as (_ & c & n & _ & Hn & _). by eapply deref_Some_addr.
        - subst a. apply Index_find_Some in Hfind as [Hin _].
          eapply pushes_store; [done|]. by apply (wf_index d Hwf). }
      split.
      * destruct (removeUnusedActions_wf _ Hwf1) as [? ? ?]. by split.
      * apply (removeUnusedActions_plain
                 {| nodes := nodes d1; index := l; inputs := inputs d1;
                    settings := settings d1 |}).
        cbn [nodes]. exact (pushes_plain _ _ Hpushes Hp).
    + injection Hpr as <- <-. by destruct Hspec as (_ & -> & _).
  - split; [by eapply tryRestoreColumn_wf|].
    destruct (tryRestoreColumn_spec _ _ _ _ Ht) as (-> & _). done.
  - unfold projectInput in Hpi. injection Hpi as <- <-.
    split; [destruct Hwf; by split | done].
Qed.

End BuiltFacts.

Section ConstructFacts.
Context `{RT : Runtime}.
Implicit Types (ns : list (nat * Node)) (a b : nat) (n : Node) (d : ActionsDAG)
  (idx : list nat).

Lemma construct_inputs_pushed source d :
  construct_inputs source d = (Ok tt, pushed_inputs (input_node <$> source) d).
Proof.
  revert d. induction source as [|c source IH]; intros d; [done|].
  cbn [construct_inputs]. unfold bind.
  assert (Hnode : (if is_const (c_column c) then addInput_column c true
                   else addInput (c_name c) (c_type c) true) d
                  = addNode (input_node c) true d).
  { unfold input_node, addInput_column, addInput. by destruct (is_const (c_column c)). }
  rewrite Hnode. unfold addNode. rewrite andb_false_r.
  assert (Hty : type (input_node c) = INPUT)
    by (unfold input_node; by destruct (is_const _)).
  rewrite decide_True by done. rewrite IH. done.
Qed.

Lemma construct_names_pushed inputs_ d :
  construct_names inputs_ d
  = (Ok tt, pushed_inputs ((fun input => new_Node INPUT input.1 input.2) <$> inputs_) d).
Proof.
  revert d. induction inputs_ as [|input inputs_ IH]; intros d; [done|].
  cbn [construct_names]. unfold bind, addInput, addNode. rewrite andb_false_r.
  rewrite decide_True by done. rewrite IH. done.
Qed.

Lemma pushed_inputs_pushes new d :
  Forall (fun n => type n = INPUT ∧ children n = []) new →
  pushes d (pushed_inputs new d).
Proof.
  intros HF. revert d. induction HF as [|n new [Hty Hc] _ IH]; intros d;
    [apply pushes_refl|].
  cbn [pushed_inputs]. eapply pushes_step; [|apply IH].
  exists n. split; [done|]. rewrite decide_True by done. split; [done|].
  split; [|by rewrite Hty]. intros c. rewrite Hc. intros Hx. by apply elem_of_nil in Hx.
Qed.

Lemma pushed_inputs_nodes new d :
  ∃ added, nodes (pushed_inputs new d) = nodes d ++ added ∧ added.*2 = new ∧
           inputs (pushed_inputs new d) = inputs d ++ added.*1.
Proof.
  revert d. induction new as [|n new IH]; intros d; cbn [pushed_inputs].
  - exists []. by rewrite !app_nil_r.
  - destruct (IH {| nodes := nodes d ++ [(fresh_addr (nodes d), n)];
                    index := Index_replace (nodes d ++ [(fresh_addr (nodes d), n)])
                               (index d) (fresh_addr (nodes d));
                    inputs := inputs d ++ [fresh_addr (nodes d)];
                    settings := settings d |}) as (added & H1 & H2 & H3).
    cbn [nodes inputs] in H1, H3.
    exists ((fresh_addr (nodes d), n) :: added). rewrite H1, H3, <- !app_assoc.
    csimpl. by rewrite H2.
Qed.

(** X4.  The constructors never throw, whatever names repeat.  They store
    one INPUT node for each given column, in order, and nothing else; every
    one of them is in the list of inputs, so the required columns are the
    given names and types in the given order; the resulting DAG is well
    formed. *)
Theorem constructors_inputs source inputs_ :
  (∃ d, construct_inputs source empty_DAG = (Ok tt, d) ∧
        (nodes d).*2 = input_node <$> source ∧
        inputs d = (nodes d).*1 ∧
        getRequiredColumns d = (fun c => (c_name c, c_type c)) <$> source ∧
        empty d = true ∧ wf_dag d) ∧
  (∃ d, construct_names inputs_ empty_DAG = (Ok tt, d) ∧
        (nodes d).*2 = (fun input => new_Node INPUT input.1 input.2) <$> inputs_ ∧
        inputs d = (nodes d).*1 ∧
        getRequiredColumns d = inputs_ ∧
        empty d = true ∧ wf_dag d).
Proof.
  assert (Hgen : ∀ new, Forall (fun n => type n = INPUT ∧ children n = []) new →
    let d := pushed_inputs new empty_DAG in
    (nodes d).*2 = new ∧ inputs d = (nodes d).*1 ∧
    getRequiredColumns d = (fun n => (result_name n, result_type n)) <$> new ∧
    empty d = true ∧ wf_dag d).
  { intros new HF d.
    destruct (pushed_inputs_nodes new empty_DAG) as (added & H0 & H1 & H2).
    fold d in H0, H2. cbn [nodes inputs empty_DAG app] in H0, H2.
    rewrite <- H0 in H1, H2.
    assert (Hwf : wf_dag d).
    { apply (pushes_wf empty_DAG); [by apply pushed_inputs_pushes|].
      split; cbn; [constructor|done|]. intros a Ha. by apply elem_of_nil in Ha. }
    split_and!; try done.
    - unfold getRequiredColumns. rewrite H2, <- H1.
      pose proof (wf_nodup d Hwf) as Hnd. clear -Hnd.
      induction (nodes d) as [|[a n] ns IH]; [done|].
      csimpl in *. apply NoDup_cons in Hnd as [Hnot Hnd].
      rewrite decide_True by done. csimpl. f_equal.
      rewrite <- (IH Hnd). apply omap_ext_in. intros b Hb.
      rewrite decide_False; [done|]. intros ->. done.
    - unfold empty. apply forallb_forall. intros [a n] Hin. apply bool_decide_eq_true.
      apply list_elem_of_In in Hin.
      assert (Hn : n ∈ (nodes d).*2) by (apply list_elem_of_fmap; by exists (a, n)).
      rewrite H1 in Hn. rewrite Forall_forall in HF. by apply HF. }
  split.
  - eexists. split; [apply construct_inputs_pushed|].
    destruct (Hgen (input_node <$> source)) as (H1 & H2 & H3 & H4 & H5).
    { apply Forall_fmap, Forall_forall. intros c _. unfold input_node. cbn.
      by destruct (is_const (c_column c)). }
    split_and!; try done. rewrite H3, <- list_fmap_compose. apply list_fmap_ext.
    intros i c _. unfold input_node. cbn. by destruct (is_const (c_column c)).
  - eexists. split; [apply construct_names_pushed|].
    destruct (Hgen ((fun input => new_Node INPUT input.1 input.2) <$> inputs_))
      as (H1 & H2 & H3 & H4 & H5).
    { apply Forall_fmap, Forall_forall. by intros c _. }
    split_and!; try done. rewrite H3, <- list_fmap_compose.
    rewrite <- (list_fmap_id inputs_) at 2. apply list_fmap_ext. by intros i [? ?] _.
Qed.

End ConstructFacts.

Section MemberFacts.
Context `{RT : Runtime}.
Variable getNestedType : DataType -> option DataType.
Variable default_can_replace : bool.
Variable USE_EMBEDDED_COMPILER : bool.
Implicit Types (ns : list (nat * Node)) (a b : nat) (n : Node) (d : ActionsDAG)
  (idx : list nat).

(** X5.  addArrayJoin on a DAG whose index points into the store.  It
    throws UNKNOWN_IDENTIFIER exactly when the source name is not in the
    index, and TYPE_MISMATCH exactly when the source is there and its type
    is not an array type; the only other error is the DUPLICATE_COLUMN of
    addNode; a call that throws changes nothing.  A call that returns has
    pushed an ARRAY_JOIN node without column, of the nested type, whose one
    child is the source, and getNode finds it under the result name. *)
Theorem addArrayJoin_spec source_name result_name d r d' :
  (∀ a, a ∈ index d → a ∈ (nodes d).*1) →
  addArrayJoin getNestedType default_can_replace source_name result_name d = (r, d') →
  (r = Throw UNKNOWN_IDENTIFIER ↔ Index_find (nodes d) (index d) source_name = None) ∧
  (r = Throw TYPE_MISMATCH ↔
     ∃ child c, Index_find (nodes d) (index d) source_name = Some child ∧
                deref (nodes d) child = Some c ∧ getNestedType (result_type c) = None) ∧
  (∀ e, r = Throw e →
     (e = UNKNOWN_IDENTIFIER ∨ e = TYPE_MISMATCH ∨ e = DUPLICATE_COLUMN) ∧ d' = d) ∧
  (∀ res, r = Ok res →
     ∃ child c nested,
       Index_find (nodes d) (index d) source_name = Some child ∧
       deref (nodes d) child = Some c ∧ getNestedType (result_type c) = Some nested ∧
       (res ∉ (nodes d).*1) ∧
       deref (nodes d') res
       = Some (set_children (new_Node ARRAY_JOIN result_name nested) [child]) ∧
       getNode result_name d' = (Ok res, d')).
Proof.
  intros Hidx. unfold addArrayJoin, bind, getNode.
  destruct (Index_find (nodes d) (index d) source_name) as [child|] eqn:Hf.
  2:{ intros [= <- <-]. split; [done|]. split; [|split].
      - split; [done|]. intros (? & ? & ? & _). done.
      - intros e [= <-]. split; [by left | done].
      - done. }
  pose proof (Index_find_Some _ _ _ _ Hf) as [Hin _].
  unfold node_at.
  destruct (deref (nodes d) child) as [c|] eqn:Hd;
    [|apply deref_None in Hd; by specialize (Hidx child Hin)].
  destruct (getNestedType (result_type c)) as [nested|] eqn:Hn.
  2:{ intros [= <- <-]. split; [done|]. split; [|split].
      - split; [|done]. intros _. by exists child, c.
      - intros e [= <-]. split; [right; by left | done].
      - done. }
  intros Hadd. pose proof Hadd as Hadd'.
  apply addNode_cases in Hadd' as [[-> ->]|[-> Hd']].
  - split; [done|]. split; [|split].
    + split; [done|]. intros (? & ? & ? & ? & ?). simplify_eq.
    + intros e [= <-]. split; [right; by right | done].
    + done.
  - split; [done|]. split; [|split].
    + split; [done|]. intros (? & ? & ? & ? & ?). simplify_eq.
    + done.
    + intros res [= <-]. exists child, c, nested. split_and!; try done.
      * apply fresh_addr_fresh.
      * rewrite Hd'. cbn [nodes]. apply deref_push_fresh.
      * by destruct (addNode_getNode _ _ _ _ _ Hidx Hadd) as [Hg _].
Qed.

Lemma get_nodes_names ns idx names children child_nodes :
  Forall2 (fun name a => Index_find ns idx name = Some a) names children →
  mapM (deref ns) children = Some child_nodes →
  result_name <$> child_nodes = names.
Proof.
  intros HF Hm. apply mapM_Some_1 in Hm. revert child_nodes Hm.
  induction HF as [|name a names children Hf _ IH]; intros child_nodes Hm.
  - by apply Forall2_nil_inv_l in Hm as ->.
  - apply Forall2_cons_inv_l in Hm as (n & rest & Hd & Hrest & ->).
    csimpl. rewrite (IH _ Hrest). f_equal.
    apply Index_find_Some in Hf as [_ Hname]. unfold name_of in Hname.
    rewrite Hd in Hname. by injection Hname.
Qed.

(** X6.  addFunction by argument names writes the settings of the context
    into the DAG before it looks at the arguments.  When an argument name
    is not in the index it throws UNKNOWN_IDENTIFIER with the nodes, the
    index and the inputs untouched and the settings already overwritten.
    When it returns, the children of the new FUNCTION node are the first
    index entries of the argument names, in order, and with an empty result
    name the node is named after the function and the argument names as
    they were given. *)
Theorem addFunction_names_behaviour func argument_names name all_settings d r d' :
  (∀ a, a ∈ index d → a ∈ (nodes d).*1) →
  addFunction_names USE_EMBEDDED_COMPILER func argument_names name all_settings d
  = (r, d') →
  ((∃ name, name ∈ argument_names ∧ Index_find (nodes d) (index d) name = None) →
     r = Throw UNKNOWN_IDENTIFIER ∧
     d' = {| nodes := nodes d; index := index d; inputs := inputs d;
             settings := read_context USE_EMBEDDED_COMPILER all_settings (settings d) |}) ∧
  (∀ e, r = Throw e →
     (e = UNKNOWN_IDENTIFIER ∨ e = DUPLICATE_COLUMN) ∧
     d' = {| nodes := nodes d; index := index d; inputs := inputs d;
             settings := read_context USE_EMBEDDED_COMPILER all_settings (settings d) |}) ∧
  (∀ res, r = Ok res →
     ∃ n, deref (nodes d') res = Some n ∧ type n = FUNCTION ∧
          Forall2 (fun name a => Index_find (nodes d) (index d) name = Some a)
            argument_names (children n) ∧
          (name = EmptyString →
             result_name n = default_result_name (getName func) argument_names) ∧
          (name ≠ EmptyString → result_name n = name) ∧
          settings d'
          = read_context USE_EMBEDDED_COMPILER all_settings (settings d)).
Proof.
  intros Hidx Hcall. apply addFunction_names_spec in Hcall.
  set (d1 := {| nodes := nodes d; index := index d; inputs := inputs d;
                settings := read_context USE_EMBEDDED_COMPILER all_settings (settings d) |})
    in *.
  destruct (get_nodes argument_names d1) as [[children|e] d2] eqn:Hg;
    destruct (get_nodes_spec _ _ _ _ Hg) as [-> Hspec]; cbn [nodes index d1] in Hspec.
  2:{ destruct Hcall as [-> ->]. split_and!; try done.
      intros e' [= <-]. split; [by left | done]. }
  assert (Hm : ∃ child_nodes, mapM (deref (nodes d)) children = Some child_nodes).
  { destruct (mapM (deref (nodes d)) children) as [l|] eqn:Hm; [by eexists|].
    exfalso. apply mapM_None_1, Exists_exists in Hm as (a & Ha & Hnone).
    apply list_elem_of_lookup in Ha as [i Hi].
    destruct (Forall2_lookup_r _ _ _ _ _ Hspec Hi) as (nm & _ & Hf).
    apply Index_find_Some in Hf as [Hin _]. apply deref_None in Hnone.
    by specialize (Hidx a Hin). }
  destruct Hm as [child_nodes Hm].
  unfold addFunction in Hcall. cbn [nodes d1] in Hcall. rewrite Hm in Hcall.
  pose proof Hcall as Hcall'. apply addNode_cases in Hcall' as [[-> ->]|[-> Hd']].
  - split_and!; try done.
    + intros (nm & Hin & Hnone). exfalso.
      apply list_elem_of_lookup in Hin as [i Hi].
      destruct (Forall2_lookup_l _ _ _ _ _ Hspec Hi) as (a & _ & Hf). congruence.
    + intros e [= <-]. split; [by right | done].
  - split_and!; try done.
    + intros (nm & Hin & Hnone). exfalso.
      apply list_elem_of_lookup in Hin as [i Hi].
      destruct (Forall2_lookup_l _ _ _ _ _ Hspec Hi) as (a & _ & Hf). congruence.
    + intros res [= <-]. eexists. split.
      { rewrite Hd'. cbn [nodes d1]. apply deref_push_fresh. }
      split; [done|]. split; [done|].
      cbn [result_name function_node].
      rewrite (get_nodes_names _ _ _ _ _ Hspec Hm).
      split_and!.
      * intros ->. by rewrite bool_decide_eq_true_2.
      * intros Hne. by rewrite bool_decide_eq_false_2.
      * by rewrite Hd'.
Qed.

End MemberFacts.

Section RemoveFacts.
Context `{RT : Runtime}.
Implicit Types (ns : list (nat * Node)) (a b : nat) (n : Node) (d : ActionsDAG)
  (idx : list nat).

Lemma erase_node_filter ns a (V : gset nat) :
  NoDup ns.*1 → (∀ b, b ∈ ns.*1 → b ∈ V ↔ b ≠ a) →
  erase_node ns a = filter (fun p => p.1 ∈ V) ns.
Proof.
  induction ns as [|[b m] ns IH]; intros Hnd HV; [done|].
  csimpl in Hnd. apply NoDup_cons in Hnd as [Hnot Hnd].
  cbn [erase_node]. rewrite filter_cons. cbn [fst].
  assert (HV' : ∀ x, x ∈ ns.*1 → x ∈ V ↔ x ≠ a).
  { intros x Hx. apply HV. csimpl. by right. }
  destruct (decide (b = a)) as [->|Hne].
  - rewrite decide_False by (rewrite HV; [tauto | csimpl; left]).
    symmetry. apply filter_all. intros [x n] Hin. cbn. apply HV'.
    + apply list_elem_of_fmap. by exists (x, n).
    + intros ->. apply Hnot. apply list_elem_of_fmap. by exists (a, n).
  - rewrite decide_True by (rewrite HV; [done | csimpl; left]).
    by rewrite IH.
Qed.

Lemma erase_first_filter idx a :
  NoDup idx → erase_first idx a = filter (fun b => b ≠ a) idx.
Proof.
  induction idx as [|b idx IH]; intros Hnd; [done|].
  apply NoDup_cons in Hnd as [Hnot Hnd]. cbn [erase_first]. rewrite filter_cons.
  destruct (decide (b = a)) as [->|Hne].
  - rewrite decide_False by tauto. symmetry. apply filter_all.
    intros x Hx ->. done.
  - rewrite decide_True by done. by rewrite IH.
Qed.

(** X9.  removeUnusedInput on a well-formed DAG whose index has no entry
    twice.  It throws LOGICAL_ERROR, and changes nothing, when no input has
    the name or when the first input of that name is a child of some node.
    Otherwise it removes that input from the list of inputs, from the store
    and from the index, keeps every other node and entry, and leaves a
    well-formed DAG: no child pointer and no index entry is left dangling. *)
Theorem removeUnusedInput_spec column_name d r d' :
  wf_dag d → NoDup (index d) →
  removeUnusedInput column_name d = (r, d') →
  match r with
  | Throw e =>
      e = LOGICAL_ERROR ∧ d' = d ∧
      ((∀ it, it ∈ inputs d → name_of (nodes d) it ≠ Some column_name) ∨
       ∃ pos input a n,
         inputs d !! pos = Some input ∧ name_of (nodes d) input = Some column_name ∧
         (∀ j it, inputs d !! j = Some it → j < pos →
                  name_of (nodes d) it ≠ Some column_name) ∧
         (a, n) ∈ nodes d ∧ input ∈ children n)
  | Ok _ =>
      ∃ pos input,
        inputs d !! pos = Some input ∧ name_of (nodes d) input = Some column_name ∧
        (∀ j it, inputs d !! j = Some it → j < pos →
                 name_of (nodes d) it ≠ Some column_name) ∧
        (∀ a n, (a, n) ∈ nodes d → input ∉ children n) ∧
        inputs d' = delete pos (inputs d) ∧
        deref (nodes d') input = None ∧
        (∀ a, a ≠ input → deref (nodes d') a = deref (nodes d) a) ∧
        (∀ a, a ∈ index d' ↔ a ∈ index d ∧ a ≠ input) ∧
        settings d' = settings d ∧
        wf_dag d'
  end.
Proof.
  intros [Hnd Hcf Hidx] Hndi. unfold removeUnusedInput.
  destruct (list_find _ (inputs d)) as [[pos input]|] eqn:Hf.
  2:{ intros [= <- <-]. split; [done|]. split; [done|]. left.
      intros it Hit Hname. apply list_find_None in Hf. rewrite Forall_forall in Hf.
      by apply (Hf it). }
  apply list_find_Some in Hf as (Hpos & Hname & Hfirst).
  destruct (existsb _ (nodes d)) eqn:Hex.
  { intros [= <- <-]. split; [done|]. split; [done|]. right.
    apply existsb_exists in Hex as ([a n] & Hin & Hc).
    apply bool_decide_eq_true in Hc. apply list_elem_of_In in Hin.
    exists pos, input, a, n. split_and!; done. }
  intros [= <- <-].
  assert (Hnochild : ∀ a n, (a, n) ∈ nodes d → input ∉ children n).
  { intros a n Hin Hc. apply not_true_iff_false in Hex. apply Hex.
    apply existsb_exists. exists (a, n). split; [by apply list_elem_of_In|].
    by apply bool_decide_eq_true. }
  set (V := (list_to_set (nodes d).*1 ∖ {[input]} : gset nat)).
  assert (HV : ∀ b, b ∈ (nodes d).*1 → b ∈ V ↔ b ≠ input).
  { intros b Hb. unfold V. rewrite elem_of_difference, elem_of_list_to_set.
    rewrite elem_of_singleton. tauto. }
  assert (Hnodes : erase_node (nodes d) input = filter (fun p => p.1 ∈ V) (nodes d))
    by (by apply erase_node_filter).
  exists pos, input. cbn [nodes index inputs settings].
  rewrite (erase_first_filter _ _ Hndi), Hnodes.
  split; [done|]. split; [done|]. split; [done|]. split; [done|]. split; [done|].
  split; [|split; [|split; [|split; [done|]]]].
  - rewrite deref_filter, decide_False; [done|]. unfold V. set_solver.
  - intros a Ha. rewrite deref_filter.
    destruct (decide (a ∈ V)) as [|HaV]; [done|].
    destruct (deref (nodes d) a) as [n|] eqn:Hd; [|done].
    exfalso. apply HaV, HV; [by eapply deref_Some_addr | done].
  - intros a. rewrite list_elem_of_filter. tauto.
  - split; cbn [nodes index].
    + eapply sublist_NoDup; [exact Hnd | apply fmap_sublist, sublist_filter].
    + intros i a n c Hi Hc.
      apply (children_first_filter V (nodes d) [] []) with (a := a) (n := n);
        [done| |done|done|done].
      intros b m x Hin Hb Hx. apply HV.
      * apply list_elem_of_lookup in Hin as [j Hj].
        specialize (Hcf j b m x Hj Hx).
        apply list_elem_of_fmap in Hcf as (p & -> & Hp).
        apply list_elem_of_fmap. exists p. split; [done|].
        apply list_elem_of_lookup in Hp as [k Hk]. apply lookup_take_Some in Hk as [Hk _].
        by eapply list_elem_of_lookup_2.
      * intros ->. by apply (Hnochild b m).
    + intros a Ha. apply list_elem_of_filter in Ha as [Hne Ha].
      specialize (Hidx a Ha). apply list_elem_of_fmap in Hidx as ([b m] & -> & Hin).
      apply list_elem_of_fmap. exists (b, m). split; [done|].
      apply list_elem_of_filter. split; [|done]. cbn. apply HV; [|done].
      apply list_elem_of_fmap. by exists (b, m).
Qed.

End RemoveFacts.

Section RestoreFacts.
Context `{RT : Runtime}.
Implicit Types (ns : list (nat * Node)) (a b : nat) (n : Node) (d : ActionsDAG)
  (idx : list nat).

Lemma Index_contains_true ns idx name :
  Index_contains ns idx name = true ↔ is_Some (Index_find ns idx name).
Proof. unfold Index_contains. apply bool_decide_eq_true. Qed.

(** X10.  tryRestoreColumn never throws and touches nothing but the index.
    It returns true exactly when the index or the store has a node of that
    name.  When the index has the name the DAG is unchanged; otherwise the
    last node of that name in the store is put in the index, where getNode
    then finds it, and the other names resolve as before.  When it returns
    false the DAG is unchanged. *)
Theorem tryRestoreColumn_restores column_name d r d' :
  NoDup (nodes d).*1 →
  tryRestoreColumn column_name d = (r, d') →
  ∃ found,
    r = Ok found ∧ nodes d' = nodes d ∧ inputs d' = inputs d ∧
    settings d' = settings d ∧
    (found = true ↔
       is_Some (Index_find (nodes d) (index d) column_name) ∨
       ∃ a n, (a, n) ∈ nodes d ∧ result_name n = column_name) ∧
    (is_Some (Index_find (nodes d) (index d) column_name) ∨ found = false → d' = d) ∧
    (Index_find (nodes d) (index d) column_name = None → found = true →
       ∃ a pre n post,
         nodes d = pre ++ (a, n) :: post ∧ result_name n = column_name ∧
         (∀ p, p ∈ post → result_name p.2 ≠ column_name) ∧
         getNode column_name d' = (Ok a, d')) ∧
    (∀ name, name ≠ column_name →
       Index_find (nodes d') (index d') name = Index_find (nodes d) (index d) name).
Proof.
  intros Hnd. unfold tryRestoreColumn.
  destruct (Index_contains (nodes d) (index d) column_name) eqn:Hc.
  { apply Index_contains_true in Hc. intros [= <- <-]. exists true.
    split_and!; try done.
    - split; [by left | done].
    - intros Hnone. rewrite Hnone in Hc. by destruct Hc. }
  assert (Hnone : Index_find (nodes d) (index d) column_name = None).
  { destruct (Index_find _ _ _) eqn:Hf; [|done].
    apply not_true_iff_false in Hc. destruct Hc. apply Index_contains_true. by eexists. }
  destruct (list_find _ (reverse (nodes d))) as [[i [a n]]|] eqn:Hf.
  - intros [= <- <-]. exists true. apply list_find_Some in Hf as (Hi & Hn & Hfirst).
    cbn [snd] in Hn.
    assert (Hin : (a, n) ∈ nodes d).
    { apply list_elem_of_lookup_2 in Hi. by rewrite elem_of_reverse in Hi. }
    assert (Hname : name_of (nodes d) a = Some column_name).
    { unfold name_of. rewrite (In_deref_NoDup _ _ _ Hnd Hin). simpl. by rewrite Hn. }
    cbn [nodes index inputs settings]. unfold Index_replace. rewrite Hname.
    split_and!; try done.
    + split; [|done]. intros _. right. by exists a, n.
    + intros [Hs|?]; [|done]. rewrite Hnone in Hs. by destruct Hs.
    + intros _ _. exists a, (reverse (drop (S i) (reverse (nodes d)))), n,
        (reverse (take i (reverse (nodes d)))).
      split_and!; try done.
      * rewrite <- (reverse_involutive (nodes d)) at 1.
        rewrite <- (take_drop_middle _ _ _ Hi) at 1.
        rewrite reverse_app, reverse_cons, <- app_assoc. done.
      * intros p Hp. rewrite elem_of_reverse in Hp.
        apply list_elem_of_lookup in Hp as [j Hj]. apply lookup_take_Some in Hj as [Hj Hlt].
        by apply (Hfirst j p).
      * unfold getNode. cbn [nodes index].
        rewrite Index_find_app, Index_find_filter_same, Index_find_cons.
        unfold has_name. by rewrite Hname, bool_decide_eq_true_2.
    + intros name Hne. rewrite Index_find_app, Index_find_filter_other by done.
      destruct (Index_find (nodes d) (index d) name); [done|].
      rewrite Index_find_cons. unfold has_name. rewrite Hname.
      rewrite bool_decide_eq_false_2; [done|]. congruence.
  - intros [= <- <-]. exists false. split_and!; try done.
    split; [done|]. intros [Hs|(a & n & Hin & Hn)].
    + rewrite Hnone in Hs. by destruct Hs.
    + apply list_find_None in Hf. rewrite Forall_forall in Hf.
      destruct (Hf (a, n)); [by rewrite elem_of_reverse | done].
Qed.

End RestoreFacts.

Section PruneMore.
Context `{RT : Runtime}.
Implicit Types (ns : list (nat * Node)) (a b : nat) (n : Node) (d : ActionsDAG)
  (idx : list nat).

Lemma folded_from_argument ns0 ns a :
  Forall2 folded_from ns0 ns → argument_of <$> deref ns a = argument_of <$> deref ns0 a.
Proof.
  induction 1 as [|[b0 m0] [b m] ns0 ns [Hb Hm] _ IH]; [done|].
  simpl in *. subst b. destruct (decide (a = b0)); [|done].
  by destruct Hm as [->|[_ ->]].
Qed.

Lemma omap_filter_sublist {A B} (f : A → option B) (P : A → Prop)
    `{∀ x, Decision (P x)} (l : list A) :
  omap f (filter P l) `sublist_of` omap f l.
Proof.
  induction l as [|x l IH]; [done|]. rewrite filter_cons. csimpl.
  destruct (decide (P x)); csimpl; destruct (f x); try done.
  - by apply sublist_skip.
  - by apply sublist_cons.
Qed.

Lemma prune_observable d :
  getResultColumns (removeUnusedActions_dag d) = getResultColumns d ∧
  getRequiredColumns (removeUnusedActions_dag d) `sublist_of` getRequiredColumns d.
Proof.
  pose proof (prune_run_inv d) as Hinv.
  pose proof (inv_shape _ _ _ _ Hinv) as HF. split.
  - unfold getResultColumns, removeUnusedActions_dag. cbn [nodes index].
    apply omap_ext_in. intros a Ha.
    rewrite deref_filter, decide_True by (apply (inv_seed _ _ _ _ Hinv); by left).
    apply (folded_from_argument _ _ a HF).
  - unfold getRequiredColumns, removeUnusedActions_dag. cbn [nodes inputs].
    rewrite (omap_ext_in _
      (fun a => (fun n => (result_name n, result_type n)) <$> deref (nodes d) a)).
    + apply omap_filter_sublist.
    + intros a Ha. apply list_elem_of_filter in Ha as [HaV _].
      rewrite deref_filter, decide_True by done.
      apply (folded_from_sig _ _ a HF).
Qed.

(** X11.  The pruner shows the same result columns after as before: the
    names, the types and the columns of the index entries, in order.  The
    required columns it leaves are required columns it found, in their
    order. *)
Theorem removeUnusedActions_observable d :
  getResultColumns (removeUnusedActions_dag d) = getResultColumns d ∧
  getRequiredColumns (removeUnusedActions_dag d) `sublist_of` getRequiredColumns d.
Proof. apply prune_observable. Qed.

Lemma reach_visited d a :
  reach (index d) (is_array_join (nodes d)) (p_nodes (prune_run d)) a →
  a ∈ visited_nodes (prune_run d) ∧
  reach (index d) (is_array_join (nodes d)) (nodes (removeUnusedActions_dag d)) a.
Proof.
  pose proof (prune_run_inv d) as Hinv. pose proof (prune_run_stack d) as Hstack.
  induction 1 as [a Ha|a Ha|b n a _ [HbV IH] Hd Hf Hc].
  - split; [apply (inv_seed _ _ _ _ Hinv); by left | by apply reach_index].
  - split; [apply (inv_seed _ _ _ _ Hinv); by right | by apply reach_array_join].
  - split.
    + eapply (inv_closed _ _ _ _ Hinv b n); [done| |done|done].
      rewrite Hstack. apply not_elem_of_nil.
    + eapply reach_child; [exact IH| |exact Hf|exact Hc].
      cbn [removeUnusedActions_dag nodes]. by rewrite deref_filter, decide_True.
Qed.

Lemma reach_pruned_visited d a :
  reach (index d) (is_array_join (nodes d)) (nodes (removeUnusedActions_dag d)) a →
  a ∈ visited_nodes (prune_run d).
Proof.
  pose proof (prune_run_inv d) as Hinv. pose proof (prune_run_stack d) as Hstack.
  induction 1 as [a Ha|a Ha|b n a _ HbV Hd Hf Hc].
  - apply (inv_seed _ _ _ _ Hinv); by left.
  - apply (inv_seed _ _ _ _ Hinv); by right.
  - cbn [removeUnusedActions_dag nodes] in Hd. rewrite deref_filter, decide_True in Hd by done.
    eapply (inv_closed _ _ _ _ Hinv b n); [done| |done|done].
    rewrite Hstack. apply not_elem_of_nil.
Qed.

(** X12.  The pruner keeps exactly the nodes in use: an address of the
    store is in the pruned store if and only if the node is reached from an
    index entry, or from an ARRAY_JOIN node of the store, along the children
    of the nodes that are left. *)
Theorem removeUnusedActions_keeps_reachable d a :
  a ∈ (nodes (removeUnusedActions_dag d)).*1 ↔
  a ∈ (nodes d).*1 ∧
  reach (index d) (is_array_join (nodes d)) (nodes (removeUnusedActions_dag d)) a.
Proof.
  pose proof (prune_run_inv d) as Hinv.
  pose proof (folded_from_addrs _ _ (inv_shape _ _ _ _ Hinv)) as Haddrs.
  assert (Hmem : a ∈ (nodes (removeUnusedActions_dag d)).*1 ↔
                 a ∈ visited_nodes (prune_run d) ∧ a ∈ (nodes d).*1).
  { cbn [removeUnusedActions_dag nodes]. rewrite <- Haddrs, !list_elem_of_fmap. split.
    - intros ([b n] & -> & Hin). apply list_elem_of_filter in Hin as [? ?].
      split; [done|]. by exists (b, n).
    - intros [HV ([b n] & -> & Hin)]. exists (b, n). split; [done|].
      by apply list_elem_of_filter. }
  rewrite Hmem. split.
  - intros [HV Hin]. split; [done|].
    by apply reach_visited, (inv_reach _ _ _ _ Hinv).
  - intros [Hin Hr]. split; [|done]. by apply reach_pruned_visited.
Qed.

(** X13.  Pruning a well-formed DAG gives a well-formed DAG: the nodes
    that are left are still stored after their children, so no child
    pointer and no index entry is left dangling. *)
Theorem removeUnusedActions_well_formed d :
  wf_dag d →
  wf_dag (removeUnusedActions_dag d) ∧
  closed_store (nodes (removeUnusedActions_dag d)).
Proof.
  intros Hwf. pose proof (removeUnusedActions_wf d Hwf) as Hwf'.
  split; [done|]. apply children_first_closed, (wf_order _ Hwf').
Qed.

End PruneMore.

Section CloneFacts.
Context `{RT : Runtime}.
Implicit Types (ns : list (nat * Node)) (a b : nat) (n : Node) (d : ActionsDAG)
  (idx : list nat).

Lemma position_of ns a : a ∈ ns.*1 → ∃ i n, ns !! i = Some (a, n).
Proof.
  intros Ha. apply list_elem_of_fmap in Ha as ([b n] & -> & Hin).
  apply list_elem_of_lookup in Hin as [i Hi]. by exists i, n.
Qed.

Lemma lookup_addr ns i a n : ns !! i = Some (a, n) → a ∈ ns.*1.
Proof.
  intros Hi. apply list_elem_of_fmap. exists (a, n). split; [done|].
  by eapply list_elem_of_lookup_2.
Qed.

(** *** The numbers of the dump *)

Lemma dump_numbers_gen ns (m0 : gmap nat nat) :
  NoDup ns.*1 → (∀ x, x ∈ ns.*1 → m0 !! x = None) →
  (∀ a, a ∉ ns.*1 →
        foldl (fun map p => <[p.1 := size map]> map) m0 ns !! a = m0 !! a) ∧
  (∀ i a n, ns !! i = Some (a, n) →
        foldl (fun map p => <[p.1 := size map]> map) m0 ns !! a = Some (size m0 + i)).
Proof.
  revert m0. induction ns as [|[b m] ns IH]; intros m0 Hnd Hfree.
  - split; [done|]. intros i a n Hi. done.
  - csimpl in Hnd. apply NoDup_cons in Hnd as [Hnot Hnd]. cbn [foldl fst].
    assert (Hb : m0 !! b = None) by (apply Hfree; csimpl; left).
    destruct (IH (<[b := size m0]> m0) Hnd) as [IH1 IH2].
    { intros x Hx. rewrite lookup_insert_ne; [apply Hfree; csimpl; by right|].
      intros ->. done. }
    rewrite map_size_insert_None in IH2 by done. split.
    + intros a Ha. csimpl in Ha. apply not_elem_of_cons in Ha as [Hne Ha].
      rewrite IH1 by done. by rewrite lookup_insert_ne.
    + intros [|i] a n Hi; simpl in Hi.
      * injection Hi as <- <-. rewrite IH1 by done.
        rewrite lookup_insert_eq. f_equal. lia.
      * rewrite (IH2 i a n Hi). f_equal. lia.
Qed.

Lemma dump_numbers_lookup ns i a n :
  NoDup ns.*1 → ns !! i = Some (a, n) → number_of (dump_numbers ns) a = i.
Proof.
  intros Hnd Hi. unfold number_of, dump_numbers.
  destruct (dump_numbers_gen ns ∅ Hnd) as [_ H]; [by intros|].
  rewrite (H i a n Hi). by rewrite map_size_empty.
Qed.

Lemma dump_numbers_None ns a :
  NoDup ns.*1 → a ∉ ns.*1 → number_of (dump_numbers ns) a = 0.
Proof.
  intros Hnd Ha. unfold number_of, dump_numbers.
  destruct (dump_numbers_gen ns ∅ Hnd) as [H _]; [by intros|].
  by rewrite (H a Ha), lookup_empty.
Qed.

(** *** The map of the copies *)

Lemma copy_map_gen (g : nat → nat) ns k (m0 : gmap nat nat) :
  NoDup ns.*1 →
  (∀ a, a ∉ ns.*1 →
        foldl (fun map ip => <[ip.2.1 := g ip.1]> map) m0
          (imap (fun i p => (k + i, p)) ns) !! a = m0 !! a) ∧
  (∀ i a n, ns !! i = Some (a, n) →
        foldl (fun map ip => <[ip.2.1 := g ip.1]> map) m0
          (imap (fun i p => (k + i, p)) ns) !! a = Some (g (k + i))).
Proof.
  revert k m0. induction ns as [|[b m] ns IH]; intros k m0 Hnd.
  - split; [done|]. intros i a n Hi. done.
  - csimpl in Hnd. apply NoDup_cons in Hnd as [Hnot Hnd]. cbn [imap foldl fst snd].
    rewrite (imap_ext _ (fun i p => (S k + i, p))) by (intros; unfold compose; cbn; f_equal; lia).
    destruct (IH (S k) (<[b := g (k + 0)]> m0) Hnd) as [IH1 IH2]. split.
    + intros a Ha. csimpl in Ha. apply not_elem_of_cons in Ha as [Hne Ha].
      rewrite IH1 by done. by rewrite lookup_insert_ne.
    + intros [|i] a n Hi; simpl in Hi.
      * injection Hi as <- <-. rewrite IH1 by done. by rewrite lookup_insert_eq.
      * rewrite (IH2 i a n Hi). do 2 f_equal. lia.
Qed.

Lemma copy_of_stored ns i a n :
  NoDup ns.*1 → ns !! i = Some (a, n) → copy_of (copy_map ns) a = clone_addr ns i.
Proof.
  intros Hnd Hi. unfold copy_of, copy_map.
  destruct (copy_map_gen (clone_addr ns) ns 0 ∅ Hnd) as [_ H].
  rewrite (imap_ext pair (fun i p => (0 + i, p))) by done.
  by rewrite (H i a n Hi).
Qed.

Lemma copy_of_missing ns a :
  NoDup ns.*1 → a ∉ ns.*1 → copy_of (copy_map ns) a = nullptr.
Proof.
  intros Hnd Ha. unfold copy_of, copy_map.
  destruct (copy_map_gen (clone_addr ns) ns 0 ∅ Hnd) as [H _].
  rewrite (imap_ext pair (fun i p => (0 + i, p))) by done.
  by rewrite (H a Ha), lookup_empty.
Qed.

Lemma clone_lookup d i :
  nodes (clone d) !! i
  = (fun p => (clone_addr (nodes d) i,
               set_children p.2 (copy_of (copy_map (nodes d)) <$> children p.2)))
      <$> nodes d !! i.
Proof. unfold clone. cbn [nodes]. by rewrite list_lookup_imap. Qed.

Lemma clone_addrs d a :
  a ∈ (nodes (clone d)).*1 ↔ ∃ i, i < length (nodes d) ∧ a = clone_addr (nodes d) i.
Proof.
  rewrite list_elem_of_fmap. split.
  - intros ([b n] & -> & Hin). apply list_elem_of_lookup in Hin as [i Hi].
    rewrite clone_lookup in Hi.
    destruct (nodes d !! i) as [p|] eqn:Hp; [|done]. injection Hi as <- _.
    exists i. split; [by eapply lookup_lt_Some | done].
  - intros (i & Hlt & ->). apply lookup_lt_is_Some_2 in Hlt as [p Hp].
    eexists. split; [|eapply list_elem_of_lookup_2; rewrite clone_lookup, Hp; done]. done.
Qed.

Lemma clone_NoDup d : NoDup (nodes (clone d)).*1.
Proof.
  apply NoDup_alt. intros i j a Hi Hj. rewrite list_lookup_fmap, clone_lookup in Hi, Hj.
  destruct (nodes d !! i); [|done]. destruct (nodes d !! j); [|done].
  cbn in Hi, Hj. unfold clone_addr in *. simplify_eq. lia.
Qed.

Lemma clone_fresh d a : a ∈ (nodes (clone d)).*1 → (a ∉ (nodes d).*1) ∧ a ≠ nullptr.
Proof.
  intros Ha. apply clone_addrs in Ha as (i & _ & ->). unfold clone_addr. split.
  - intros Hin. apply fresh_addr_gt in Hin. lia.
  - unfold fresh_addr, nullptr. lia.
Qed.

Lemma clone_deref d i a n :
  NoDup (nodes d).*1 → nodes d !! i = Some (a, n) →
  deref (nodes (clone d)) (copy_of (copy_map (nodes d)) a)
  = Some (set_children n (copy_of (copy_map (nodes d)) <$> children n)).
Proof.
  intros Hnd Hi. rewrite (copy_of_stored _ _ _ _ Hnd Hi).
  apply In_deref_NoDup; [apply clone_NoDup|].
  eapply list_elem_of_lookup_2. rewrite clone_lookup, Hi. done.
Qed.

Lemma clone_deref_missing d a :
  NoDup (nodes d).*1 → a ∉ (nodes d).*1 →
  deref (nodes (clone d)) (copy_of (copy_map (nodes d)) a) = None.
Proof.
  intros Hnd Ha. rewrite (copy_of_missing _ _ Hnd Ha). apply deref_None.
  intros Hin. by apply clone_fresh in Hin as [_ ?].
Qed.

Lemma clone_number d c :
  NoDup (nodes d).*1 →
  number_of (dump_numbers (nodes (clone d))) (copy_of (copy_map (nodes d)) c)
  = number_of (dump_numbers (nodes d)) c.
Proof.
  intros Hnd. destruct (decide (c ∈ (nodes d).*1)) as [Hc|Hc].
  - apply position_of in Hc as (i & n & Hi).
    rewrite (copy_of_stored _ _ _ _ Hnd Hi), (dump_numbers_lookup _ _ _ _ Hnd Hi).
    eapply dump_numbers_lookup; [apply clone_NoDup|]. rewrite clone_lookup, Hi. done.
  - rewrite (copy_of_missing _ _ Hnd Hc), (dump_numbers_None _ _ Hnd Hc).
    apply dump_numbers_None; [apply clone_NoDup|].
    intros Hin. by apply clone_fresh in Hin as [_ ?].
Qed.

(** X14.  clone copies the DAG to fresh addresses and rewires it: the
    clone has the dump of the original, line for line, the same result
    columns and required columns and the same settings, and shares no node
    with it; the clone of a well-formed DAG is well formed. *)
Theorem clone_same_dump d :
  NoDup (nodes d).*1 →
  dumpDAG (clone d) = dumpDAG d ∧
  getResultColumns (clone d) = getResultColumns d ∧
  getRequiredColumns (clone d) = getRequiredColumns d ∧
  settings (clone d) = settings d ∧
  (∀ a, a ∈ (nodes (clone d)).*1 → a ∉ (nodes d).*1) ∧
  (wf_dag d → wf_dag (clone d)).
Proof.
  intros Hnd.
  assert (Hview : ∀ {B} (f : Node → B),
    (∀ n cs, f (set_children n cs) = f n) →
    ∀ l : list nat,
      omap (fun a => f <$> deref (nodes (clone d)) a)
        (copy_of (copy_map (nodes d)) <$> l)
      = omap (fun a => f <$> deref (nodes d) a) l).
  { intros B f Hf l. rewrite omap_fmap_list. apply omap_ext_in. intros a _.
    destruct (decide (a ∈ (nodes d).*1)) as [Ha|Ha].
    - apply position_of in Ha as (i & n & Hi).
      rewrite (clone_deref _ _ _ _ Hnd Hi).
      rewrite (In_deref_NoDup _ _ _ Hnd (list_elem_of_lookup_2 _ _ _ Hi)).
      simpl. by rewrite Hf.
    - rewrite (clone_deref_missing _ _ Hnd Ha).
      apply deref_None in Ha. by rewrite Ha. }
  split_and!.
  - unfold dumpDAG. f_equal.
    + apply list_eq. intros i. rewrite !list_lookup_fmap, clone_lookup.
      destruct (nodes d !! i) as [[a n]|] eqn:Hi; [|done]. cbn [fmap option_fmap option_map].
      f_equal. unfold dump_line. cbn [fst snd set_children type children column
        result_type result_name function_base].
      f_equal.
      * rewrite (dump_numbers_lookup _ _ _ _ Hnd Hi).
        eapply dump_numbers_lookup; [apply clone_NoDup|]. rewrite clone_lookup, Hi. done.
      * rewrite <- list_fmap_compose. apply list_fmap_ext. intros j c _.
        unfold compose. by apply clone_number.
    + unfold clone at 2. cbn [index]. rewrite foldl_Index_insert. cbn [app].
      rewrite <- list_fmap_compose. apply list_fmap_ext. intros j c _.
      unfold compose. by apply clone_number.
  - unfold getResultColumns. unfold clone at 2. cbn [index].
    rewrite foldl_Index_insert. cbn [app]. by apply Hview.
  - unfold getRequiredColumns. unfold clone at 2. cbn [inputs]. by apply Hview.
  - done.
  - intros a Ha. by apply clone_fresh in Ha as [? _].
  - intros [_ Hcf Hidx]. split.
    + apply clone_NoDup.
    + intros i a n c Hi Hc. rewrite clone_lookup in Hi.
      destruct (nodes d !! i) as [[a0 n0]|] eqn:Hi0; [|done].
      cbn in Hi. injection Hi as <- <-. cbn [children set_children] in Hc.
      apply list_elem_of_fmap in Hc as (c0 & -> & Hc0).
      specialize (Hcf i a0 n0 c0 Hi0 Hc0).
      apply position_of in Hcf as (j & m & Hj). apply lookup_take_Some in Hj as [Hj Hlt].
      rewrite (copy_of_stored _ _ _ _ Hnd Hj).
      apply list_elem_of_fmap. eexists (clone_addr (nodes d) j, _). split; [done|].
      eapply (list_elem_of_lookup_2 _ j). rewrite lookup_take_lt by done.
      rewrite clone_lookup, Hj. done.
    + intros a Ha. unfold clone in Ha. cbn [index] in Ha.
      rewrite foldl_Index_insert in Ha. cbn [app] in Ha.
      apply list_elem_of_fmap in Ha as (a0 & -> & Ha0).
      specialize (Hidx a0 Ha0). apply position_of in Hidx as (i & n & Hi).
      rewrite (copy_of_stored _ _ _ _ Hnd Hi). apply clone_addrs.
      exists i. split; [by eapply lookup_lt_Some | done].
Qed.

End CloneFacts.

Section MergeMore.
Context `{RT : Runtime}.
Implicit Types (ns : list (nat * Node)) (a b : nat) (n : Node) (d : ActionsDAG)
  (idx : list nat).

Lemma named_app ns name l1 l2 : named ns name (l1 ++ l2) = named ns name l1 + named ns name l2.
Proof. unfold named. by rewrite filter_app, length_app. Qed.

Lemma named_cons ns name a l :
  named ns name (a :: l) = (if decide (key_of ns a = name) then 1 else 0) + named ns name l.
Proof. unfold named. rewrite filter_cons. by destruct (decide _). Qed.

Lemma merge_inputs_total second_nodes second_inputs st :
  ∃ st', merge_inputs false second_nodes second_inputs st = Ok st'.
Proof.
  revert st. induction second_inputs as [|node rest IH]; intros st; cbn [merge_inputs].
  - by eexists.
  - destruct (default [] (first_result st !! _)); apply IH.
Qed.

Lemma drop_tail {A} (l : list A) k x q : drop k l = x :: q → drop (S k) l = q.
Proof.
  intros H. replace (S k) with (k + 1) by lia. by rewrite <- drop_drop, H.
Qed.

Lemma merge_inputs_throws first_nodes first_index second_nodes pre rest st :
  (∀ name, default [] (first_result st !! name)
           = drop (named second_nodes name pre)
               (filter (fun a => key_of first_nodes a = name) first_index)) →
  (∀ name, named second_nodes name pre ≤ named first_nodes name first_index) →
  (∀ e, merge_inputs true second_nodes rest st = Throw e → e = LOGICAL_ERROR) ∧
  (merge_inputs true second_nodes rest st = Throw LOGICAL_ERROR ↔
   ∃ name, named first_nodes name first_index < named second_nodes name (pre ++ rest)).
Proof.
  revert pre st. induction rest as [|node rest IH]; intros pre st Hq Hle.
  - cbn [merge_inputs]. split; [done|]. split; [done|].
    intros [name Hlt]. rewrite app_nil_r in Hlt. specialize (Hle name). lia.
  - cbn [merge_inputs]. fold (key_of second_nodes node).
    set (s := key_of second_nodes node).
    destruct (default [] (first_result st !! s)) as [|front queue] eqn:Hfront.
    + split; [by intros e [= <-]|]. split; [|done]. intros _. exists s.
      rewrite Hq in Hfront. apply (f_equal length) in Hfront.
      rewrite length_drop in Hfront. cbn [length] in Hfront.
      fold (named first_nodes s first_index) in Hfront.
      rewrite named_app, named_cons. fold s. rewrite decide_True by done. lia.
    + replace (pre ++ node :: rest) with ((pre ++ [node]) ++ rest)
        by (by rewrite <- app_assoc).
      assert (Hone : ∀ name, named second_nodes name (pre ++ [node])
                = named second_nodes name pre + (if decide (s = name) then 1 else 0)).
      { intros name. rewrite named_app, named_cons. fold s.
        replace (named second_nodes name []) with 0 by done. lia. }
      rewrite Hq in Hfront.
      apply IH.
      * intros name. cbn [first_result]. rewrite Hone.
        destruct (decide (s = name)) as [<-|Hne].
        -- rewrite lookup_insert_eq. cbn [default from_option id].
           rewrite Nat.add_1_r. symmetry. by eapply drop_tail.
        -- rewrite lookup_insert_ne by done. rewrite Hq. by rewrite Nat.add_0_r.
      * intros name. rewrite Hone. specialize (Hle name).
        destruct (decide (s = name)) as [<-|Hne]; [|lia].
        apply (f_equal length) in Hfront. rewrite length_drop in Hfront.
        cbn [length] in Hfront. fold (named first_nodes s first_index) in Hfront. lia.
Qed.

(** X15.  merge throws only LOGICAL_ERROR, and only when first has
    project_input set: it does so exactly when, for some name, second has
    more inputs of that name than the index of first has entries of it.  In
    every other case it returns a DAG. *)
Theorem merge_throws first second :
  (∀ e, merge first second = Throw e →
     e = LOGICAL_ERROR ∧ project_input (settings first) = true) ∧
  (merge first second = Throw LOGICAL_ERROR ↔
     project_input (settings first) = true ∧
     ∃ name, named (nodes first) name (index first)
             < named (nodes second) name (inputs second)).
Proof.
  assert (Hm : ∀ e, merge first second = Throw e ↔
    merge_inputs (project_input (settings first)) (nodes second) (inputs second)
      (mkMergeInputs (build_first_result (nodes first) (index first)) (inputs first) ∅ ∅)
    = Throw e).
  { intros e. unfold merge, merge_before_prune.
    destruct (merge_inputs _ _ _ _) as [mi|e']; [done|]. split; congruence. }
  destruct (project_input (settings first)) eqn:Hpi.
  - destruct (merge_inputs_throws (nodes first) (index first) (nodes second) []
                (inputs second)
                (mkMergeInputs (build_first_result (nodes first) (index first))
                   (inputs first) ∅ ∅)) as [He Hiff].
    { intros name. cbn [first_result]. by rewrite build_first_result_spec. }
    { intros name. unfold named at 1. simpl. lia. }
    split.
    + intros e Hthrow. apply Hm in Hthrow. split; [by apply He | done].
    + rewrite Hm, Hiff. cbn [app]. tauto.
  - destruct (merge_inputs_total (nodes second) (inputs second)
                (mkMergeInputs (build_first_result (nodes first) (index first))
                   (inputs first) ∅ ∅)) as [st' Hok].
    split.
    + intros e Hthrow. apply Hm in Hthrow. congruence.
    + rewrite Hm, Hok. split; [done | by intros [? _]].
Qed.

End MergeMore.

Section SplitMore.
Context `{RT : Runtime}.
Implicit Types (ns : list (nat * Node)) (a b : nat) (n : Node) (d : ActionsDAG)
  (idx : list nat).

(** X16.  split on a well-formed DAG, for any set of split nodes: both
    searches end, the index of the first half lists, name by name and type
    by type, exactly the columns that the second half requires as inputs,
    in the same order, and no node is shared by the two halves. *)
Theorem split_first_feeds_second d split_nodes :
  wf_dag d →
  ∃ first second,
    split d split_nodes = Some (first, second) ∧
    getNamesAndTypesList first = getRequiredColumns second ∧
    length (index first) = length (inputs second) ∧
    NoDup ((nodes first).*1 ++ (nodes second).*1) ∧
    settings first = settings d ∧ settings second = settings d.
Proof.
  intros Hwf. destruct (split_spec d split_nodes Hwf) as (st & Hsplit & Hinv).
  exists (first_of d st), (second_of d st). split; [done|].
  split_and!; [|cbn [index inputs first_of second_of]; by rewrite !length_fmap
             |apply (si_nodup _ _ _ _ _ Hinv)|done|done].
  unfold getNamesAndTypesList, getRequiredColumns.
  cbn [nodes index inputs first_of second_of]. rewrite !omap_fmap_list.
  apply omap_ext_in. intros a Ha.
  destruct (si_inputs _ _ _ _ _ Hinv a Ha) as (_ & [f Hf] & [s Hs]).
  destruct (si_second _ _ _ _ _ Hinv a s Hs) as (_ & n & ms & Hn & Hms & Hsig & _).
  destruct (si_first _ _ _ _ _ Hinv a f Hf) as (_ & n' & mf & Hn' & Hmf & Hsig').
  assert (n' = n) as -> by congruence.
  rewrite Hf, Hs. cbn [ptr default from_option id]. rewrite Hmf, Hms. simpl. f_equal.
  destruct Hsig as [-> ->], Hsig' as [-> ->]. done.
Qed.

(** X17.  On a well-formed DAG the index of the second half shows, entry
    by entry, the names and the types of the index of the original. *)
Theorem split_keeps_result_names d split_nodes :
  wf_dag d →
  ∃ first second,
    split d split_nodes = Some (first, second) ∧
    getNamesAndTypesList second = getNamesAndTypesList d ∧
    length (index second) = length (index d).
Proof.
  intros Hwf. destruct (split_spec d split_nodes Hwf) as (st & Hsplit & Hinv).
  destruct (split_second_index_names d split_nodes Hwf) as (first & second & Hs & Hnames).
  exists first, second. split; [done|]. split; [done|].
  rewrite Hsplit in Hs. injection Hs as <- <-. cbn [index second_of].
  by rewrite length_fmap.
Qed.

End SplitMore.

Section ConvertMore.
Context `{RT : Runtime}.
Variable func_builder_materialize : FunctionOverloadResolver.
Variable CastOverloadResolver_createImpl : string * string -> FunctionOverloadResolver.
Implicit Types (ns : list (nat * Node)) (a b : nat) (d : ActionsDAG).

Abbreviation converting_loop :=
  (convert_columns func_builder_materialize CastOverloadResolver_createImpl).

Lemma add_rename_name res_elem src d res d' :
  add_rename res_elem src d = (Ok res, d') →
  name_of (nodes d') res = Some (c_name res_elem).
Proof.
  unfold add_rename, bind, node_at, ret.
  destruct (deref (nodes d) src) as [s|] eqn:Hd; [|done].
  destruct (bool_decide (result_name s ≠ c_name res_elem)) eqn:Hb.
  - unfold addAlias_node, bind, node_at. rewrite Hd. intros Hadd.
    apply addNode_Ok in Hadd as (_ & _ & _ & _ & Hnew). unfold name_of. by rewrite Hnew.
  - intros [= <- <-]. apply bool_decide_eq_false in Hb.
    unfold name_of. rewrite Hd. simpl. f_equal.
    destruct (decide (result_name s = c_name res_elem)); [done|]. by destruct Hb.
Qed.

Lemma convert_columns_names mode icv result k m d proj d' :
  converting_loop mode icv result k m d = (Ok proj, d') →
  Forall2 (fun a r => name_of (nodes d') a = Some (c_name r)) proj result.
Proof.
  revert k m d proj. induction result as [|r rest IH]; intros k m d proj; simpl.
  - unfold ret. intros [= <- <-]. constructor.
  - unfold bind.
    destruct (select_source mode r k m d) as [[sel|e] d1] eqn:Hsel; [|done].
    destruct (check_constants _ _ _ _) as [[s1|e] d2] eqn:H1; [|done].
    destruct (add_cast _ _ _ _) as [[s2|e] d3] eqn:H2; [|done].
    destruct (add_materialize _ _ _ _) as [[s3|e] d4] eqn:H3; [|done].
    destruct (add_rename _ _ _) as [[s4|e] d5] eqn:H4; [|done].
    destruct (convert_columns _ _ _ _ rest _ _ _) as [[p|e] d6] eqn:H5; [|done].
    unfold ret. intros [= <- <-]. constructor; [|by eapply IH].
    apply add_rename_name in H4.
    apply convert_columns_extends in H5 as [_ Hext].
    unfold name_of in *. destruct (deref (nodes d5) s4) as [n|] eqn:Hn; [|done].
    by rewrite (Hext _ _ Hn).
Qed.

(** X18.  When makeConvertingActions returns, the DAG shows one result
    column for each column asked for, under the names asked for and in
    their order, it only requires columns of the source, and it has
    project_input set. *)
Theorem makeConvertingActions_names source result mode icv d :
  makeConvertingActions func_builder_materialize CastOverloadResolver_createImpl
    source result mode icv = Ok d →
  getNames d = c_name <$> result ∧
  getRequiredColumns d `sublist_of` ((fun c => (c_name c, c_type c)) <$> source) ∧
  project_input (settings d) = true.
Proof.
  unfold makeConvertingActions.
  destruct (_ && _); [done|]. unfold bind.
  destruct (construct_inputs_spec source empty_DAG) as (d0 & addrs & Hc & _ & Hin0 & Hall).
  rewrite Hc. cbn [snd].
  destruct (convert_columns _ _ _ _ _ _ _ d0) as [[proj|e] d1] eqn:Hconv; [|done].
  unfold removeUnusedActions_nodes, removeUnusedActions, projectInput.
  intros [= <-]. cbn [settings set_project_input project_input]. split; [|split; [|done]].
  - rewrite getNames_fst.
    change (getNamesAndTypesList _) with
      (getNamesAndTypesList (removeUnusedActions_dag
         {| nodes := nodes d1; index := foldl Index_insert [] proj;
            inputs := inputs d1; settings := settings d1 |})).
    rewrite removeUnusedActions_names_types, <- getNames_fst.
    unfold getNames. cbn [nodes index]. rewrite foldl_Index_insert. cbn [app].
    apply convert_columns_names in Hconv.
    induction Hconv as [|a r proj result Hn _ IH]; [done|].
    csimpl. rewrite Hn. csimpl. by rewrite IH.
  - pose proof (proj2 (prune_observable
         {| nodes := nodes d1; index := foldl Index_insert [] proj;
            inputs := inputs d1; settings := settings d1 |})) as Hsub.
    eapply (@transitivity _ sublist _); [exact Hsub|].
    unfold getRequiredColumns. cbn [nodes inputs].
    apply convert_columns_extends in Hconv as [Hin1 Hext].
    rewrite Hin1, Hin0. cbn [inputs empty_DAG app].
    assert (Heq : omap (fun a => (fun n => (result_name n, result_type n))
                                   <$> deref (nodes d1) a) addrs
                  = (fun c => (c_name c, c_type c)) <$> source).
    { clear Hin0 Hc Hsub. induction Hall as [|a c addrs source (n & Hd & _ & Hnm & Hty) _ IH];
        [done|].
      csimpl. rewrite (Hext _ _ Hd). csimpl. by rewrite Hnm, Hty, IH. }
    by rewrite Heq.
Qed.


(** *** The errors of makeConvertingActions *)

Lemma addNode_replace_Ok node d :
  ∃ d', addNode node true d = (Ok (fresh_addr (nodes d)), d') ∧
        deref (nodes d') (fresh_addr (nodes d)) = Some node ∧
        ∀ a n, deref (nodes d) a = Some n → deref (nodes d') a = Some n.
Proof.
  destruct (addNode_can_replace node d) as [d' Hadd]. exists d'. split; [done|].
  apply addNode_Ok in Hadd as (_ & Hn & _ & _ & Hd). split; [done|].
  intros a n Ha. rewrite Hn. by apply deref_push_old.
Qed.

Lemma check_constants_errors res_elem src icv d x d' :
  is_Some (deref (nodes d) src) →
  check_constants res_elem src icv d = (x, d') →
  match x with
  | Ok res => is_Some (deref (nodes d') res)
  | Throw e => e = ILLEGAL_COLUMN
  end.
Proof.
  intros [s Hs]. unfold check_constants, bind, node_at, ret, throw.
  destruct (c_column res_elem) as [rc|] eqn:Hrc; [|intros [= <- <-]; by eexists].
  destruct (isColumnConst rc); [|intros [= <- <-]; by eexists].
  rewrite Hs. destruct (column s) as [sc|]; [|by intros [= <- <-]].
  destruct (isColumnConst sc); [|by intros [= <- <-]].
  destruct icv.
  - unfold addColumn. rewrite Hrc.
    edestruct addNode_replace_Ok as (d1 & -> & Hnew & _). intros [= <- <-]. by eexists.
  - destruct (negb _); intros [= <- <-]; [done | by eexists].
Qed.

Lemma add_cast_Ok res_elem src d :
  is_Some (deref (nodes d) src) →
  ∃ res d', add_cast CastOverloadResolver_createImpl res_elem src d = (Ok res, d') ∧
            is_Some (deref (nodes d') res).
Proof.
  intros [s Hs]. unfold add_cast, bind, node_at, ret. rewrite Hs.
  destruct (negb _); [|eexists _, _; split; [done | by eexists]].
  unfold addColumn. cbn [c_column].
  edestruct addNode_replace_Ok as (d1 & -> & Hnew & Hold).
  unfold addFunction. cbn [mapM]. rewrite (Hold _ _ Hs), Hnew. cbn.
  edestruct addNode_replace_Ok as (d2 & -> & Hnew2 & _).
  eexists _, _. split; [done | by eexists].
Qed.

Lemma add_materialize_Ok res_elem src d :
  is_Some (deref (nodes d) src) →
  ∃ res d', add_materialize func_builder_materialize res_elem src d = (Ok res, d') ∧
            is_Some (deref (nodes d') res).
Proof.
  intros [s Hs]. unfold add_materialize, bind, node_at, ret. rewrite Hs.
  destruct (_ && _); [|eexists _, _; split; [done | by eexists]].
  unfold addFunction. cbn [mapM]. rewrite Hs. cbn.
  edestruct addNode_replace_Ok as (d2 & -> & Hnew2 & _).
  eexists _, _. split; [done | by eexists].
Qed.

Lemma add_rename_Ok res_elem src d :
  is_Some (deref (nodes d) src) →
  ∃ res d', add_rename res_elem src d = (Ok res, d') ∧ is_Some (deref (nodes d') res).
Proof.
  intros [s Hs]. unfold add_rename, bind, node_at, ret. rewrite Hs.
  destruct (bool_decide _); [|eexists _, _; split; [done | by eexists]].
  unfold addAlias_node, bind, node_at. rewrite Hs.
  edestruct addNode_replace_Ok as (d2 & -> & Hnew2 & _).
  eexists _, _. split; [done | by eexists].
Qed.

Lemma convert_columns_errors mode icv result k m d x d' :
  (∀ a, a ∈ inputs d → is_Some (deref (nodes d) a)) →
  (mode = Position → k + length result ≤ length (inputs d)) →
  (∀ name pos, pos ∈ default [] (m !! name) → pos < length (inputs d)) →
  converting_loop mode icv result k m d = (x, d') →
  match x with
  | Ok _ => True
  | Throw e => e = ILLEGAL_COLUMN ∨ (mode = Name ∧ e = THERE_IS_NO_COLUMN)
  end.
Proof.
  revert k m d x d'. induction result as [|r rest IH]; intros k m d x d' Hin Hpos Hq.
  - simpl. unfold ret. by intros [= <- <-].
  - cbn [convert_columns]. unfold bind at 1.
    destruct (select_source mode r k m d) as [[sel|e] d1] eqn:Hsel.
    2:{ intros [= <- <-]. unfold select_source in Hsel. destruct mode.
        - specialize (Hpos eq_refl). cbn [length] in Hpos.
          destruct (inputs d !! k) eqn:Hk; [done|].
          apply lookup_ge_None in Hk. lia.
        - destruct (default [] (m !! c_name r)) as [|front queue] eqn:Hfront.
          + injection Hsel as <- _. right. done.
          + destruct (inputs d !! front) eqn:Hk; [done|].
            apply lookup_ge_None in Hk.
            specialize (Hq (c_name r) front). rewrite Hfront in Hq.
            specialize (Hq ltac:(left)). lia. }
    assert (Hsrc : is_Some (deref (nodes d) sel.1) ∧ d1 = d ∧
                   ∀ name pos, pos ∈ default [] (sel.2 !! name) → pos < length (inputs d)).
    { unfold select_source in Hsel. destruct mode.
      - destruct (inputs d !! k) as [src|] eqn:Hk; [|done]. injection Hsel as <- <-.
        split; [|done]. apply Hin. by eapply list_elem_of_lookup_2.
      - destruct (default [] (m !! c_name r)) as [|front queue] eqn:Hfront; [done|].
        destruct (inputs d !! front) as [src|] eqn:Hk; [|done]. injection Hsel as <- <-.
        split; [apply Hin; by eapply list_elem_of_lookup_2|]. split; [done|].
        intros name pos. cbn [snd]. destruct (decide (c_name r = name)) as [<-|Hne].
        + rewrite lookup_insert_eq. cbn. intros Hp. apply (Hq (c_name r)).
          rewrite Hfront. by right.
        + rewrite lookup_insert_ne by done. apply Hq. }
    destruct Hsrc as (Hsrc & -> & Hq'). unfold bind at 1.
    destruct (check_constants r sel.1 icv d) as [[s1|e] d2] eqn:H1;
      pose proof (check_constants_errors _ _ _ _ _ _ Hsrc H1) as He1; cbn in He1.
    2:{ intros [= <- <-]. by left. }
    unfold bind at 1.
    destruct (add_cast_Ok r s1 d2 He1) as (s2 & d3 & H2 & He2). rewrite H2.
    unfold bind at 1.
    destruct (add_materialize_Ok r s2 d3 He2) as (s3 & d4 & H3 & He3). rewrite H3.
    unfold bind at 1.
    destruct (add_rename_Ok r s3 d4 He3) as (s4 & d5 & H4 & He4). rewrite H4.
    unfold bind.
    destruct (convert_columns _ _ _ _ rest _ _ _) as [[p|e] d6] eqn:H5;
      [by intros [= <- <-]|].
    intros [= <- <-].
    assert (Hext : extends d d5).
    { apply check_constants_extends in H1. apply add_cast_extends in H2.
      apply add_materialize_extends in H3. apply add_rename_extends in H4.
      eauto using extends_trans. }
    destruct Hext as [Hinputs Hderef].
    apply (IH (S k) sel.2 d5 (Throw e) d6); [| | |done].
    + rewrite Hinputs. intros a Ha. destruct (Hin a Ha) as [n Hn].
      exists n. by apply Hderef.
    + intros Hm. specialize (Hpos Hm). cbn [length] in Hpos. rewrite Hinputs. lia.
    + rewrite Hinputs. done.
Qed.

(** X19.  makeConvertingActions throws nothing but
    NUMBER_OF_COLUMNS_DOESNT_MATCH, THERE_IS_NO_COLUMN and ILLEGAL_COLUMN:
    the first exactly when the mode is Position and source and result differ
    in length, the second only with mode Name. *)
Theorem makeConvertingActions_errors source result mode icv :
  (makeConvertingActions func_builder_materialize CastOverloadResolver_createImpl
     source result mode icv = Throw NUMBER_OF_COLUMNS_DOESNT_MATCH ↔
     mode = Position ∧ length source ≠ length result) ∧
  (∀ e, makeConvertingActions func_builder_materialize CastOverloadResolver_createImpl
          source result mode icv = Throw e →
     e = NUMBER_OF_COLUMNS_DOESNT_MATCH ∨ e = ILLEGAL_COLUMN ∨
     (mode = Name ∧ e = THERE_IS_NO_COLUMN)).
Proof.
  assert (Hbody : ¬ (mode = Position ∧ length source ≠ length result) →
    ∀ e, makeConvertingActions func_builder_materialize CastOverloadResolver_createImpl
           source result mode icv = Throw e →
         e = ILLEGAL_COLUMN ∨ (mode = Name ∧ e = THERE_IS_NO_COLUMN)).
  { intros Hguard e. unfold makeConvertingActions.
    destruct (bool_decide (mode = Position) && bool_decide (length source ≠ length result))
      eqn:Hg.
    { apply andb_true_iff in Hg as [H1 H2]. apply bool_decide_eq_true in H1, H2.
      by destruct Hguard. }
    unfold bind.
    destruct (construct_inputs_spec source empty_DAG) as (d0 & addrs & Hc & _ & Hin0 & Hall).
    rewrite Hc. cbn [snd]. cbn [inputs empty_DAG app] in Hin0.
    destruct (convert_columns _ _ _ _ _ _ _ d0) as [[proj|e'] d1] eqn:Hconv; [done|].
    intros [= <-].
    pose proof (Forall2_length _ _ _ Hall) as Hlen.
    apply (convert_columns_errors _ _ _ _ _ _ _ _) in Hconv; [done| | |].
    - rewrite Hin0. intros a Ha. apply list_elem_of_lookup in Ha as [i Hi].
      destruct (Forall2_lookup_l _ _ _ _ _ Hall Hi) as (c & _ & n & Hn & _). by exists n.
    - intros ->. rewrite Hin0, Hlen. cbn.
      destruct (decide (length source = length result)) as [->|Hne]; [done|].
      by destruct Hguard.
    - intros name pos. destruct mode; cbn [initial_inputs_map].
      + rewrite lookup_empty. cbn. intros Hp. by apply elem_of_nil in Hp.
      + rewrite build_inputs_map_spec, lookup_empty. cbn [default app].
        intros Hp. apply list_elem_of_lookup in Hp as [j Hj].
        apply positions_of_lookup in Hj as [_ Hj]. apply lookup_lt_Some in Hj.
        rewrite length_fmap in Hj. lia. }
  split.
  - split.
    + intros Hthrow. destruct (decide (mode = Position ∧ length source ≠ length result))
        as [|Hno]; [done|].
      destruct (Hbody Hno _ Hthrow) as [?|[_ ?]]; done.
    + intros [-> Hne]. unfold makeConvertingActions.
      by rewrite !bool_decide_eq_true_2.
  - intros e Hthrow.
    destruct (decide (mode = Position ∧ length source ≠ length result)) as [[-> Hne]|Hno].
    + left. unfold makeConvertingActions in Hthrow.
      rewrite !bool_decide_eq_true_2 in Hthrow by done. cbn in Hthrow. congruence.
    + right. destruct (Hbody Hno _ Hthrow) as [?|?]; [by left | by right].
Qed.

End ConvertMore.

Section ArrayJoinFacts.
Context `{RT : Runtime}.
Implicit Types (ns : list (nat * Node)) (a b : nat) (n : Node) (d : ActionsDAG)
  (idx : list nat) (ajc : gset string).

Lemma skip_seen_all (V : gset nat) cs i :
  (∀ c, c ∈ cs → c ∈ V) → skip_seen V cs i = i + length cs.
Proof.
  revert i. induction cs as [|c cs IH]; intros i Hcs; simpl; [lia|].
  rewrite decide_True by (apply Hcs; left).
  rewrite IH by (intros x Hx; apply Hcs; by right). lia.
Qed.

Lemma array_join_dfs_single fuel ns ajc a n (chosen V : gset nat) :
  deref ns a = Some n → (∀ c, c ∈ children n → c ∈ V) →
  array_join_dfs (S fuel) ns ajc [mkFrame a 0] (chosen, V)
  = Some (if depend_on_array_join ajc chosen n then chosen else {[a]} ∪ chosen, V).
Proof.
  intros Hd Hc. cbn [array_join_dfs f_node next_child_to_visit fst snd]. rewrite Hd.
  rewrite drop_0, skip_seen_all by done. cbn [Nat.add].
  rewrite (lookup_ge_None_2 (children n)) by done. by destruct fuel.
Qed.

Lemma array_join_search_fold fuel ns ajc pre todo (chosen V : gset nat) :
  ns = pre ++ todo → NoDup ns.*1 → children_first ns →
  (∀ x, x ∈ V ↔ x ∈ pre.*1) →
  ∃ V', array_join_search (S fuel) ns ajc todo (chosen, V)
        = Some (foldl (fun split_nodes p =>
                         if depend_on_array_join ajc split_nodes p.2
                         then split_nodes else {[p.1]} ∪ split_nodes) chosen todo, V').
Proof.
  intros Hns Hnd Hcf. revert pre chosen V Hns.
  induction todo as [|[a n] todo IH]; intros pre chosen V Hns HV.
  - by eexists.
  - cbn [array_join_search foldl fst snd].
    assert (Hlook : ns !! length pre = Some (a, n)).
    { rewrite Hns. by rewrite list_lookup_middle. }
    assert (Hd : deref ns a = Some n).
    { apply In_deref_NoDup; [done | by eapply list_elem_of_lookup_2]. }
    assert (Ha : a ∉ V).
    { rewrite HV. rewrite Hns, fmap_app in Hnd. apply NoDup_app in Hnd as (_ & Hdisj & _).
      intros Hin. apply (Hdisj a Hin). csimpl. left. }
    rewrite decide_False by done.
    rewrite (array_join_dfs_single fuel ns ajc a n chosen ({[a]} ∪ V) Hd).
    2:{ intros c Hc. pose proof (Hcf _ _ _ _ Hlook Hc) as Hx.
        rewrite Hns, take_app_length in Hx. apply elem_of_union_r. by apply HV. }
    apply (IH (pre ++ [(a, n)])).
    + by rewrite <- app_assoc.
    + intros x. rewrite fmap_app, elem_of_app, elem_of_union, HV. csimpl.
      rewrite list_elem_of_singleton, elem_of_singleton. tauto.
Qed.

Lemma depend_false ajc (chosen : gset nat) n :
  depend_on_array_join ajc chosen n = false ↔
  ¬ (type n = INPUT ∧ result_name n ∈ ajc) ∧ ∀ c, c ∈ children n → c ∈ chosen.
Proof.
  unfold depend_on_array_join. rewrite orb_false_iff, andb_false_iff.
  rewrite !bool_decide_eq_false. split.
  - intros [Hin Hex]. split; [tauto|]. intros c Hc.
    destruct (decide (c ∈ chosen)) as [|Hno]; [done|]. exfalso.
    apply not_true_iff_false in Hex. apply Hex. apply existsb_exists.
    exists c. split; [by apply list_elem_of_In | by apply bool_decide_eq_true].
  - intros [Hin Hall]. split.
    + destruct (decide (type n = INPUT)); [right; tauto | by left].
    + apply not_true_iff_false. intros Hex. apply existsb_exists in Hex as (c & Hc & Hno).
      apply bool_decide_eq_true in Hno. apply Hno, Hall. by apply list_elem_of_In.
Qed.

Lemma depend_ext ajc (chosen chosen' : gset nat) n :
  (∀ c, c ∈ children n → c ∈ chosen ↔ c ∈ chosen') →
  depend_on_array_join ajc chosen n = depend_on_array_join ajc chosen' n.
Proof.
  intros Hext.
  destruct (depend_on_array_join ajc chosen' n) eqn:H'.
  - apply not_false_iff_true. intros H. apply not_false_iff_true in H'. apply H'.
    apply depend_false in H as [H1 H2]. apply depend_false. split; [done|].
    intros c Hc. apply Hext; [done | by apply H2].
  - apply depend_false in H' as [H1 H2]. apply depend_false. split; [done|].
    intros c Hc. apply Hext; [done | by apply H2].
Qed.

Lemma children_first_prefix ns p : children_first (ns ++ [p]) → children_first ns.
Proof.
  intros Hcf i a n c Hi Hc.
  pose proof (lookup_lt_Some _ _ _ Hi) as Hlt.
  specialize (Hcf i a n c). rewrite lookup_app_l, take_app_le in Hcf by lia. auto.
Qed.

Lemma array_join_free_spec ajc ns :
  NoDup ns.*1 → children_first ns →
  (∀ a, a ∈ array_join_free ajc ns → a ∈ ns.*1) ∧
  (∀ i a n, ns !! i = Some (a, n) →
     a ∈ array_join_free ajc ns ↔
     depend_on_array_join ajc (array_join_free ajc ns) n = false).
Proof.
  induction ns as [|[b m] ns IH] using rev_ind; intros Hnd Hcf.
  - split; [|done]. intros a Ha. by apply not_elem_of_empty in Ha.
  - rewrite fmap_app in Hnd. apply NoDup_app in Hnd as (Hnd & Hdisj & _).
    assert (Hb : b ∉ ns.*1) by (intros Hin; apply (Hdisj b Hin); csimpl; left).
    destruct (IH Hnd (children_first_prefix _ _ Hcf)) as [IH1 IH2].
    unfold array_join_free in *. rewrite foldl_app. cbn [foldl fst snd].
    set (Sl := foldl _ ∅ ns) in *.
    set (Sf := if depend_on_array_join ajc Sl m then Sl else {[b]} ∪ Sl).
    assert (Hsame : ∀ x, x ≠ b → x ∈ Sf ↔ x ∈ Sl).
    { intros x Hx. unfold Sf. destruct (depend_on_array_join ajc Sl m); [done|].
      set_solver. }
    assert (Hdep : ∀ i a n, (ns ++ [(b, m)]) !! i = Some (a, n) →
                   depend_on_array_join ajc Sf n = depend_on_array_join ajc Sl n).
    { intros i a n Hi. apply depend_ext. intros c Hc. apply Hsame.
      intros ->. pose proof (Hcf i a n b Hi Hc) as Hin.
      apply Hb. apply list_elem_of_fmap in Hin as (p & -> & Hp).
      apply list_elem_of_lookup in Hp as [j Hj]. apply lookup_take_Some in Hj as [Hj Hlt].
      pose proof (lookup_lt_Some _ _ _ Hi) as Hlen. rewrite length_app in Hlen. cbn in Hlen.
      rewrite lookup_app_l in Hj by lia.
      apply list_elem_of_fmap. exists p. split; [done|]. by eapply list_elem_of_lookup_2. }
    split.
    + intros a Ha. rewrite fmap_app, elem_of_app. csimpl.
      destruct (decide (a = b)) as [->|Hne]; [right; left|].
      left. apply IH1. by apply Hsame.
    + intros i a n Hi. rewrite (Hdep i a n Hi).
      destruct (decide (i < length ns)) as [Hlt|Hge].
      * rewrite lookup_app_l in Hi by done.
        rewrite Hsame; [exact (IH2 i a n Hi)|]. intros ->. apply Hb.
        apply list_elem_of_fmap. exists (b, n). split; [done|].
        by eapply list_elem_of_lookup_2.
      * rewrite lookup_app_r in Hi by lia.
        destruct (i - length ns) as [|k]; [|done]. injection Hi as <- <-.
        unfold Sf. destruct (depend_on_array_join ajc Sl m) eqn:Hd.
        -- split; [|done]. intros Hin. apply IH1 in Hin. done.
        -- split; [done|]. intros _. set_solver.
Qed.

(** X20.  splitActionsBeforeArrayJoin on a well-formed DAG.  The search
    ends, and it chooses as split nodes exactly the nodes that do not depend
    on an array-joined column: a node is chosen if and only if it is not an
    INPUT named in array_joined_columns and all its children are chosen.
    The split then returns two halves; the first has project_input off, its
    index lists the columns the second requires, and the second shows the
    result columns of the original. *)
Theorem splitActionsBeforeArrayJoin_spec d ajc :
  wf_dag d →
  ∃ split_nodes first second,
    array_join_split_nodes d ajc = Some split_nodes ∧
    (∀ a, a ∈ split_nodes → a ∈ (nodes d).*1) ∧
    (∀ a n, deref (nodes d) a = Some n →
       a ∈ split_nodes ↔
       ¬ (type n = INPUT ∧ result_name n ∈ ajc) ∧ ∀ c, c ∈ children n → c ∈ split_nodes) ∧
    splitActionsBeforeArrayJoin d ajc = Some (first, second) ∧
    project_input (settings first) = false ∧
    getNamesAndTypesList first = getRequiredColumns second ∧
    getNamesAndTypesList second = getNamesAndTypesList d.
Proof.
  intros Hwf. pose proof Hwf as [Hnd Hcf Hidx].
  assert (Hsearch : array_join_split_nodes d ajc = Some (array_join_free ajc (nodes d))).
  { unfold array_join_split_nodes.
    assert (∃ k, split_fuel (nodes d) = S k) as [k ->]
      by (exists (2 * length (nodes d) + 1); unfold split_fuel; lia).
    destruct (array_join_search_fold k (nodes d) ajc [] (nodes d) ∅ ∅) as [V' ->];
      [done|done|done| |done].
    intros x. csimpl. rewrite elem_of_nil. set_solver. }
  destruct (array_join_free_spec ajc (nodes d) Hnd Hcf) as [Hsub Hiff].
  destruct (split_spec d (array_join_free ajc (nodes d)) Hwf) as (st & Hsplit & Hinv).
  destruct (split_second_index_names d (array_join_free ajc (nodes d)) Hwf)
    as (first & second & Hs & Hnames).
  rewrite Hsplit in Hs. injection Hs as <- <-.
  exists (array_join_free ajc (nodes d)),
    {| nodes := nodes (first_of d st); index := index (first_of d st);
       inputs := inputs (first_of d st);
       settings := set_project_input (settings (first_of d st)) false |},
    (second_of d st).
  split; [exact Hsearch|]. split; [exact Hsub|]. split; [|split; [|split; [|split]]].
  - intros a n Hd. apply deref_Some_In in Hd. apply list_elem_of_lookup in Hd as [i Hi].
    rewrite (Hiff i a n Hi). apply depend_false.
  - unfold splitActionsBeforeArrayJoin. rewrite Hsearch, Hsplit. done.
  - done.
  - unfold getNamesAndTypesList, getRequiredColumns.
    cbn [nodes index inputs first_of second_of fst]. rewrite !omap_fmap_list.
    apply omap_ext_in. intros a Ha.
    destruct (si_inputs _ _ _ _ _ Hinv a Ha) as (_ & [f Hf] & [s Hs']).
    destruct (si_second _ _ _ _ _ Hinv a s Hs') as (_ & n & ms & Hn & Hms & Hsig & _).
    destruct (si_first _ _ _ _ _ Hinv a f Hf) as (_ & n' & mf & Hn' & Hmf & Hsig').
    assert (n' = n) as -> by congruence.
    rewrite Hf, Hs'. cbn [ptr default from_option id]. rewrite Hmf, Hms. simpl. f_equal.
    destruct Hsig as [-> ->], Hsig' as [-> ->]. done.
  - exact Hnames.
Qed.

End ArrayJoinFacts.

Section FilterFacts.
Context `{RT : Runtime}.
Implicit Types (ns : list (nat * Node)) (a b : nat) (n : Node) (d : ActionsDAG)
  (idx : list nat) (st : SplitState).

Lemma keeps_marks_refl st : keeps_marks st st.
Proof. by split. Qed.

Lemma keeps_marks_trans st1 st2 st3 :
  keeps_marks st1 st2 → keeps_marks st2 st3 → keeps_marks st1 st3.
Proof.
  intros (H1 & H2 & H3) (H4 & H5 & H6). split_and!.
  - intros b. by rewrite H4, H1.
  - intros b. by rewrite H5, H2.
  - auto.
Qed.

Lemma keeps_marks_alter st (f : Data → Data) a :
  (∀ c, needed_by_split_node (f c) = needed_by_split_node c) →
  (∀ c, used_in_result (f c) = used_in_result c) →
  keeps_marks st (with_data (alter_data f a) st).
Proof.
  intros Hn Hu. split_and!; [| |done].
  - intros b. rewrite d_needed_alter. destruct (decide (b = a)) as [->|]; [|done].
    by rewrite Hn.
  - intros b. cbn [with_data s_data]. rewrite data_at_alter.
    destruct (decide (b = a)) as [->|]; [|done]. by rewrite Hu.
Qed.

Lemma keeps_marks_push st a : keeps_marks st (push_new_input a st).
Proof.
  split_and!; [done|done|]. intros x Hx. cbn. rewrite elem_of_app. by left.
Qed.

Lemma second_child_keeps ns acc child :
  keeps_marks acc.1 (second_child ns acc child).1.
Proof.
  unfold second_child. destruct (to_second _); [apply keeps_marks_refl|].
  destruct (deref ns child) as [cn|]; [|apply keeps_marks_refl].
  destruct (decide (type cn = COLUMN)); cbn [emplace_second fst snd].
  - apply (keeps_marks_trans _ (emplace_second cn acc.1).2); [by split|].
    by apply keeps_marks_alter.
  - eapply keeps_marks_trans; [|apply keeps_marks_push].
    apply (keeps_marks_trans _ (emplace_second (input_node_of cn) acc.1).2); [by split|].
    by apply keeps_marks_alter.
Qed.

Lemma second_children_keeps ns acc cs :
  keeps_marks acc.1 (foldl (second_child ns) acc cs).1.
Proof.
  revert acc. induction cs as [|c cs IH]; intros acc; [apply keeps_marks_refl|].
  cbn [foldl]. eapply keeps_marks_trans; [apply second_child_keeps | apply IH].
Qed.

Lemma make_copy_keeps ns node cur cur_node st :
  keeps_marks st (make_copy ns node cur cur_node st) ∧
  (d_needed st cur = true → used_in_result (data_at (s_data st) cur) = true →
   cur ∈ s_new_inputs (make_copy ns node cur cur_node st)).
Proof.
  rewrite make_copy_eq. cbv zeta.
  set (st1 := with_data (alter_data set_visited cur) st).
  assert (H1 : keeps_marks st st1) by (by apply keeps_marks_alter).
  assert (Hn1 : d_needed st1 cur = d_needed st cur) by apply H1.
  rewrite Hn1. destruct (d_needed st cur) eqn:Hneeded; cbn [negb].
  - set (cs := (fun child => ptr (to_first (data_at (s_data st1) child)))
                 <$> children cur_node).
    set (st2 := (emplace_first (set_children cur_node cs) st1).2).
    set (st3 := with_data (alter_data (fun c => set_to_first c (s_next st1)) cur) st2).
    assert (H3 : keeps_marks st st3).
    { eapply keeps_marks_trans; [exact H1|].
      apply (keeps_marks_trans _ st2); [by split | by apply keeps_marks_alter]. }
    assert (Hu3 : used_in_result (data_at (s_data st3) cur)
                  = used_in_result (data_at (s_data st) cur)) by apply H3.
    rewrite Hu3. destruct (used_in_result (data_at (s_data st) cur)) eqn:Hused.
    + split.
      * eapply keeps_marks_trans; [exact H3|].
        eapply keeps_marks_trans; [|apply keeps_marks_push].
        apply (keeps_marks_trans _ (emplace_second (input_node_of node) st3).2);
          [by split | by apply keeps_marks_alter].
      * intros _ _. cbn. rewrite elem_of_app. right. left.
    + split; [done|]. by intros _ ?.
  - split; [|by intros ?].
    set (st2 := (emplace_second cur_node st1).2).
    set (st3 := with_data (alter_data (fun c => set_to_second c (s_next st1)) cur) st2).
    set (r := foldl (second_child ns) (st3, []) (children cur_node)).
    set (st5 := set_second_nodes r.1 _).
    assert (H5 : keeps_marks st st5).
    { eapply keeps_marks_trans; [exact H1|].
      apply (keeps_marks_trans _ st2); [by split|].
      apply (keeps_marks_trans _ st3); [by apply keeps_marks_alter|].
      apply (keeps_marks_trans _ r.1); [apply (second_children_keeps ns (st3, []))|].
      by split. }
    destruct (decide (type cur_node = INPUT)); [|done].
    eapply keeps_marks_trans; [exact H5|].
    eapply keeps_marks_trans; [|apply keeps_marks_push].
    apply (keeps_marks_trans _ (emplace_first cur_node st5).2);
      [by split | by apply keeps_marks_alter].
Qed.

Lemma split_move_nodes_marks ns idx pre todo st :
  ns = pre ++ todo → NoDup ns.*1 → children_first ns →
  split_inv ns idx pre.*1 [] st →
  needed_results_are_inputs pre.*1 st →
  ∃ st', split_move_nodes (split_fuel ns) ns todo st = Some st' ∧
         keeps_marks st st' ∧ needed_results_are_inputs ns.*1 st'.
Proof.
  intros Hns Hnd Hcf.
  assert (∃ k, split_fuel ns = S k) as [k ->]
    by (exists (2 * length ns + 1); unfold split_fuel; lia).
  revert pre st Hns.
  induction todo as [|[a node] todo IH]; intros pre st Hns Hinv HJ.
  - exists st. split; [done|]. split; [apply keeps_marks_refl|].
    rewrite app_nil_r in Hns. by rewrite Hns.
  - cbn [split_move_nodes].
    assert (Hlook : ns !! length pre = Some (a, node)).
    { rewrite Hns. by rewrite list_lookup_middle. }
    assert (Hin : (a, node) ∈ ns) by (by eapply list_elem_of_lookup_2).
    assert (Hd : deref ns a = Some node) by (by apply In_deref_NoDup).
    assert (Hapre : a ∉ pre.*1).
    { rewrite Hns, fmap_app in Hnd. apply NoDup_app in Hnd as (_ & Hdisj & _).
      intros Ha. apply (Hdisj a Ha). csimpl. left. }
    assert (Hvis : visited (data_at (s_data st) a) = false).
    { destruct (visited (data_at (s_data st) a)) eqn:Hv; [|done].
      apply (si_visited _ _ _ _ _ Hinv) in Hv as [?|Hv]; [done|].
      by apply elem_of_nil in Hv. }
    rewrite Hvis.
    assert (Hchildren : ∀ c, c ∈ children node → c ∈ pre.*1).
    { intros c Hc. pose proof (Hcf _ _ _ _ Hlook Hc) as Hx.
      by rewrite Hns, take_app_length in Hx. }
    rewrite (split_dfs_single _ ns node a node st Hd).
    2:{ intros c Hc. apply (si_visited _ _ _ _ _ Hinv). left. by apply Hchildren. }
    pose proof (make_copy_inv ns idx pre.*1 st a node Hinv Hapre Hd Hchildren) as Hinv'.
    destruct (make_copy_keeps ns node a node st) as [Hk Hcur].
    destruct (IH (pre ++ [(a, node)]) (make_copy ns node a node st))
      as (st' & Hrun & Hk' & HJ').
    + by rewrite <- app_assoc.
    + by rewrite fmap_app.
    + destruct Hk as (Hkn & Hku & Hki).
      intros x Hx Hneeded Hused. rewrite Hkn in Hneeded. rewrite Hku in Hused.
      rewrite fmap_app in Hx. apply elem_of_app in Hx as [Hx|Hx].
      * apply Hki. by apply HJ.
      * csimpl in Hx. apply list_elem_of_singleton in Hx as ->. by apply Hcur.
    + exists st'. split; [done|]. split; [by eapply keeps_marks_trans | done].
Qed.

(** *** The marks of the first search *)

Lemma mark_step_keeps (data : gmap nat Data) rest cs a :
  needed_by_split_node (data_at data a) = true →
  needed_by_split_node
    (data_at (foldl (fun (st : gmap nat Data * list nat) child =>
                       if needed_by_split_node (data_at st.1 child) then st
                       else (alter_data set_needed child st.1, child :: st.2))
                (data, rest) cs).1 a) = true.
Proof.
  revert data rest. induction cs as [|c cs IH]; intros data rest Ha; [done|].
  cbn [foldl fst snd]. destruct (needed_by_split_node (data_at data c)); [by apply IH|].
  apply IH. cbn [fst]. rewrite data_at_alter. by destruct (decide (a = c)) as [->|].
Qed.

Lemma mark_needed_keeps fuel ns stack (data data' : gmap nat Data) a :
  mark_needed fuel ns stack data = Some data' →
  needed_by_split_node (data_at data a) = true →
  needed_by_split_node (data_at data' a) = true.
Proof.
  revert stack data. induction fuel as [|fuel IH]; intros stack data.
  - destruct stack; [|done]. by intros [= <-].
  - destruct stack as [|cur rest]; [by intros [= <-]|]. cbn [mark_needed].
    intros Hrun Ha. eapply IH; [exact Hrun|]. by apply mark_step_keeps.
Qed.

Lemma mark_split_nodes_marks fuel ns (split_nodes : gset nat) todo
    (data data' : gmap nat Data) a :
  mark_split_nodes fuel ns split_nodes todo data = Some data' →
  needed_by_split_node (data_at data a) = true ∨ (a ∈ split_nodes ∧ a ∈ todo.*1) →
  needed_by_split_node (data_at data' a) = true.
Proof.
  revert data. induction todo as [|[b m] todo IH]; intros data; cbn [mark_split_nodes].
  - intros [= <-] [?|[_ Hin]]; [done|]. by apply elem_of_nil in Hin.
  - intros Hrun Ha.
    assert (Hcases : needed_by_split_node (data_at data a) = true ∨
                     (a ∈ split_nodes ∧ a = b) ∨ (a ∈ split_nodes ∧ a ∈ todo.*1)).
    { destruct Ha as [?|[? Hin]]; [by left|]. csimpl in Hin.
      apply elem_of_cons in Hin as [->|?]; [right; by left | right; by right]. }
    clear Ha. destruct (decide (b ∈ split_nodes)) as [Hb|Hb].
    + destruct (needed_by_split_node (data_at data b)) eqn:Hnb.
      * apply (IH data Hrun). destruct Hcases as [?|[[_ ->]|?]]; [by left|by left|by right].
      * destruct (mark_needed fuel ns [b] (alter_data set_needed b data))
          as [data1|] eqn:Hm; [|done].
        apply (IH data1 Hrun). destruct Hcases as [Hn|[[_ ->]|?]]; [| |by right].
        -- left. eapply mark_needed_keeps; [exact Hm|]. rewrite data_at_alter.
           by destruct (decide (a = b)) as [->|].
        -- left. eapply mark_needed_keeps; [exact Hm|]. rewrite data_at_alter.
           by rewrite decide_True.
    + apply (IH data Hrun). destruct Hcases as [?|[[? ->]|?]]; [by left|done|by right].
Qed.

(** X21.  splitActionsForFilter on a well-formed DAG.  It throws
    LOGICAL_ERROR exactly when no index entry has the name.  Otherwise the
    split ends; the first half shows the filter column in its index, lists
    there the columns the second half requires, and the second half shows
    the result columns of the original. *)
Theorem splitActionsForFilter_spec column_name d :
  wf_dag d →
  (splitActionsForFilter column_name d = Throw LOGICAL_ERROR ↔
     ∀ a, a ∈ index d → name_of (nodes d) a ≠ Some column_name) ∧
  ((∃ a, a ∈ index d ∧ name_of (nodes d) a = Some column_name) →
     ∃ first second,
       splitActionsForFilter column_name d = Ok (Some (first, second)) ∧
       column_name ∈ getNames first ∧
       getNamesAndTypesList first = getRequiredColumns second ∧
       getNamesAndTypesList second = getNamesAndTypesList d).
Proof.
  intros Hwf. pose proof Hwf as [Hnd Hcf Hidx]. unfold splitActionsForFilter.
  destruct (list_find _ (index d)) as [[i it]|] eqn:Hf.
  2:{ apply list_find_None in Hf. rewrite Forall_forall in Hf. split.
      - split; [|done]. intros _ a Ha. by apply Hf.
      - intros (a & Ha & Hname). by destruct (Hf a Ha). }
  apply list_find_Some in Hf as (Hi & Hname & _).
  assert (Hit : it ∈ index d) by (by eapply list_elem_of_lookup_2).
  split.
  { split; [done|]. intros Hno. by destruct (Hno it Hit). }
  intros _.
  (* the two searches, with the marks they leave *)
  unfold split.
  destruct (mark_split_nodes_terminates (nodes d) {[it]} (nodes d)
    (foldl (fun data node => alter_data set_used_in_result node data) ∅ (index d)))
    as (data1 & Hmark & Hsame); [by apply children_first_closed|].
  rewrite Hmark.
  pose proof (split_inv_init (nodes d) (index d) data1 Hsame) as Hinit.
  destruct (split_move_nodes_marks (nodes d) (index d) [] (nodes d)
    (mkSplit data1 [] [] [] (fresh_addr (nodes d)))) as (st & Hrun & Hk & HJ);
    [done|done|done|done| |].
  { intros a Ha. by apply elem_of_nil in Ha. }
  destruct (split_move_nodes_inv (nodes d) (index d) [] (nodes d)
    (mkSplit data1 [] [] [] (fresh_addr (nodes d)))) as (st' & Hrun' & Hinv);
    [done|done|done|done|].
  rewrite Hrun in Hrun'. injection Hrun' as <-. rewrite Hrun.
  exists (first_of d st), (second_of d st).
  split; [unfold first_of, second_of, d_first, d_second; by rewrite !foldl_Index_insert|].
  assert (HitNI : it ∈ s_new_inputs st).
  { destruct Hk as (Hkn & Hku & _). apply HJ.
    - by apply Hidx.
    - rewrite Hkn. unfold d_needed. cbn [s_data].
      eapply mark_split_nodes_marks; [exact Hmark|]. right.
      split; [by apply elem_of_singleton | by apply Hidx].
    - by apply (si_used _ _ _ _ _ Hinv). }
  assert (Hfeeds : ∀ a, a ∈ s_new_inputs st →
            ∃ f s n ms mf, d_first st a = Some f ∧ d_second st a = Some s ∧
              deref (nodes d) a = Some n ∧
              deref (s_second_nodes st) s = Some ms ∧ same_sig n ms ∧
              deref (s_first_nodes st) f = Some mf ∧ same_sig n mf).
  { intros a Ha.
    destruct (si_inputs _ _ _ _ _ Hinv a Ha) as (_ & [f Hf] & [s Hs]).
    destruct (si_second _ _ _ _ _ Hinv a s Hs) as (_ & n & ms & Hn & Hms & Hsig & _).
    destruct (si_first _ _ _ _ _ Hinv a f Hf) as (_ & n' & mf & Hn' & Hmf & Hsig').
    assert (n' = n) as -> by congruence. by exists f, s, n, ms, mf. }
  split; [|split].
  - unfold getNames. cbn [nodes index first_of]. apply list_elem_of_omap.
    destruct (Hfeeds it HitNI) as (f & s & n & ms & mf & Hf & _ & Hn & _ & _ & Hmf & Hsig).
    exists (ptr (d_first st it)).
    split; [apply (list_elem_of_fmap_2 (fun input => ptr (d_first st input))); exact HitNI|].
    rewrite Hf. cbn [ptr default from_option id]. unfold name_of in *.
    rewrite Hmf. rewrite Hn in Hname. simpl in *. destruct Hsig as [-> _]. done.
  - unfold getNamesAndTypesList, getRequiredColumns.
    cbn [nodes index inputs first_of second_of]. rewrite !omap_fmap_list.
    apply omap_ext_in. intros a Ha.
    destruct (Hfeeds a Ha) as (f & s & n & ms & mf & Hf & Hs & _ & Hms & Hsig & Hmf & Hsig').
    rewrite Hf, Hs. cbn [ptr default from_option id]. rewrite Hmf, Hms. simpl. f_equal.
    destruct Hsig as [-> ->], Hsig' as [-> ->]. done.
  - unfold getNamesAndTypesList. cbn [nodes index second_of].
    rewrite omap_fmap_list. apply omap_ext_in. intros a Ha.
    assert (Hs : ∃ s, d_second st a = Some s).
    { pose proof (si_done _ _ _ _ _ Hinv a (Hidx a Ha)) as Hdone.
      destruct (d_needed st a); [by apply Hdone | done]. }
    destruct Hs as [s Hs]. rewrite Hs. cbn [ptr default from_option id].
    destruct (si_second _ _ _ _ _ Hinv a s Hs) as (_ & n & ms & Hn & Hms & Hsig & _).
    rewrite Hn, Hms. simpl. f_equal. destruct Hsig as [-> ->]. done.
Qed.

End FilterFacts.

Section RequiredFacts.
Context `{RT : Runtime}.
Implicit Types (ns : list (nat * Node)) (a b : nat) (n : Node) (d : ActionsDAG)
  (idx : list nat).

Lemma resolve_required_spec ns idx required_names (nodes_set : gset nat) acc seen :
  (∀ a, a ∈ nodes_set ↔ ∃ s, s ∈ seen ∧ Index_find ns idx s = Some a) →
  match resolve_required ns idx required_names nodes_set acc with
  | Throw e =>
      e = UNKNOWN_IDENTIFIER ∧
      ∃ name, name ∈ required_names ∧ Index_find ns idx name = None
  | Ok required_nodes =>
      (∀ name, name ∈ required_names → is_Some (Index_find ns idx name)) ∧
      ∃ new, required_nodes = acc ++ new ∧
             Forall2 (fun name a => Index_find ns idx name = Some a)
               (first_mentions seen required_names) new
  end.
Proof.
  revert nodes_set acc seen.
  induction required_names as [|name rest IH]; intros nodes_set acc seen Hset;
    cbn [resolve_required first_mentions].
  - split; [intros name Hn; by apply elem_of_nil in Hn|].
    exists []. by rewrite app_nil_r.
  - destruct (Index_find ns idx name) as [it|] eqn:Hf.
    2:{ split; [done|]. exists name. split; [left | done]. }
    assert (Hseen : it ∈ nodes_set ↔ name ∈ seen).
    { rewrite Hset. split.
      - intros (s & Hs & Hfs). apply Index_find_Some in Hf as [_ Hn1].
        apply Index_find_Some in Hfs as [_ Hn2]. congruence.
      - intros Hn. by exists name. }
    destruct (decide (it ∈ nodes_set)) as [Hin|Hnin].
    + rewrite decide_True by (by apply Hseen).
      specialize (IH nodes_set acc seen Hset).
      destruct (resolve_required ns idx rest nodes_set acc) as [req|e].
      * destruct IH as [Hall Hnew]. split; [|done].
        intros s Hs. apply elem_of_cons in Hs as [->|Hs]; [by rewrite Hf | by apply Hall].
      * destruct IH as (-> & s & Hs & Hnone). split; [done|].
        exists s. split; [by right | done].
    + rewrite decide_False by (by rewrite <- Hseen).
      assert (Hset' : ∀ a, a ∈ {[it]} ∪ nodes_set
                           ↔ ∃ s, s ∈ name :: seen ∧ Index_find ns idx s = Some a).
      { intros a. rewrite elem_of_union, elem_of_singleton, Hset. split.
        - intros [->|(s & Hs & Hfs)]; [exists name; split; [left | done]|].
          exists s. split; [by right | done].
        - intros (s & Hs & Hfs). apply elem_of_cons in Hs as [->|Hs].
          + left. congruence.
          + right. by exists s. }
      specialize (IH ({[it]} ∪ nodes_set) (acc ++ [it]) (name :: seen) Hset').
      destruct (resolve_required ns idx rest _ _) as [req|e].
      * destruct IH as [Hall (new & -> & HF)]. split.
        -- intros s Hs. apply elem_of_cons in Hs as [->|Hs]; [by rewrite Hf | by apply Hall].
        -- exists (it :: new). split; [by rewrite <- app_assoc|]. by constructor.
      * destruct IH as (-> & s & Hs & Hnone). split; [done|].
        exists s. split; [by right | done].
Qed.

(** X22.  removeUnusedActions by names.  When a required name is not in the
    index it throws UNKNOWN_IDENTIFIER and the DAG is untouched.  Otherwise
    it returns, and the index then holds, for each required name once and in
    the order of the first mentions, the node the index had under that name:
    the result columns are the required names without repetition. *)
Theorem removeUnusedActions_names_spec required_names d r d' :
  removeUnusedActions_names required_names d = (r, d') →
  match r with
  | Throw e =>
      e = UNKNOWN_IDENTIFIER ∧ d' = d ∧
      ∃ name, name ∈ required_names ∧ Index_find (nodes d) (index d) name = None
  | Ok _ =>
      (∀ name, name ∈ required_names → is_Some (Index_find (nodes d) (index d) name)) ∧
      getNames d' = first_mentions [] required_names ∧
      Forall2 (fun name a => Index_find (nodes d) (index d) name = Some a)
        (first_mentions [] required_names) (index d') ∧
      settings d' = settings d
  end.
Proof.
  unfold removeUnusedActions_names.
  pose proof (resolve_required_spec (nodes d) (index d) required_names ∅ [] []) as Hspec.
  destruct (resolve_required _ _ _ _ _) as [required_nodes|e].
  - unfold removeUnusedActions_nodes, removeUnusedActions. intros [= <- <-].
    destruct Hspec as [Hall (new & -> & HF)].
    { intros a. split; [set_solver|]. intros (s & Hs & _). by apply elem_of_nil in Hs. }
    split; [done|]. cbn [app] in *.
    rewrite getNames_fst, removeUnusedActions_names_types, <- getNames_fst.
    unfold getNames. cbn [nodes index settings removeUnusedActions_dag].
    rewrite foldl_Index_insert. cbn [app]. split; [|done].
    induction HF as [|name a names new Hf _ IH]; [done|].
    apply Index_find_Some in Hf as [_ Hn]. csimpl. rewrite Hn. csimpl. by rewrite IH.
  - intros [= <- <-]. destruct Hspec as (-> & Hmiss).
    { intros a. split; [set_solver|]. intros (s & Hs & _). by apply elem_of_nil in Hs. }
    done.
Qed.

End RequiredFacts.

Section MergeResult.
Context `{RT : Runtime}.
Implicit Types (ns : list (nat * Node)) (a b p : nat) (n : Node) (d : ActionsDAG)
  (idx : list nat).

(** The inputs of [second] that find no result column of [first] are
    appended to the inputs, in their order: as many of a name as the queue
    of that name falls short. *)
Lemma merge_inputs_unmatched fpi second_nodes second_inputs st st' :
  merge_inputs fpi second_nodes second_inputs st = Ok st' →
  ∃ unmatched,
    first_inputs st' = first_inputs st ++ unmatched ∧
    unmatched `sublist_of` second_inputs ∧
    (fpi = true → unmatched = []) ∧
    ∀ name,
      named second_nodes name unmatched
      = named second_nodes name second_inputs
        - length (default [] (first_result st !! name)) ∧
      length (default [] (first_result st' !! name))
      = length (default [] (first_result st !! name))
        - named second_nodes name second_inputs.
Proof.
  revert st. induction second_inputs as [|node rest IH]; intros st; cbn [merge_inputs].
  - intros [= <-]. exists []. rewrite app_nil_r. split_and!; try done.
    intros name. unfold named. simpl. lia.
  - fold (key_of second_nodes node). set (s := key_of second_nodes node).
    destruct (default [] (first_result st !! s)) as [|front queue] eqn:Hq.
    + destruct fpi; [done|]. intros Hm.
      destruct (IH _ Hm) as (unmatched & Hin & Hsub & _ & Hcount).
      cbn [first_inputs first_result] in *.
      exists (node :: unmatched). split; [by rewrite Hin, <- app_assoc|].
      split; [by constructor|]. split; [done|].
      intros name. destruct (Hcount name) as [H1 H2]. rewrite !named_cons. fold s.
      destruct (decide (s = name)) as [<-|Hne]; [|lia].
      rewrite Hq in *. cbn [length] in *. lia.
    + intros Hm. destruct (IH _ Hm) as (unmatched & Hin & Hsub & Hfpi & Hcount).
      cbn [first_inputs first_result] in *.
      exists unmatched. split; [done|]. split; [by constructor|]. split; [done|].
      intros name. destruct (Hcount name) as [H1 H2]. rewrite !named_cons. fold s.
      destruct (decide (s = name)) as [<-|Hne].
      * rewrite lookup_insert_eq in H1, H2. cbn [default from_option id] in H1, H2.
        rewrite Hq. cbn [length]. lia.
      * rewrite lookup_insert_ne in H1, H2 by done. lia.
Qed.

(** An input of [second] is mapped to an entry of the index of [first]
    that merge files under the same name. *)
Lemma merge_inputs_map_inv first_nodes first_index fpi second_nodes second_inputs st st' :
  merge_inv first_nodes first_index st →
  (∀ a f, inputs_map st !! a = Some f →
          key_of first_nodes f = key_of second_nodes a ∧ f ∈ first_index) →
  merge_inputs fpi second_nodes second_inputs st = Ok st' →
  ∀ a f, inputs_map st' !! a = Some f →
         key_of first_nodes f = key_of second_nodes a ∧ f ∈ first_index.
Proof.
  revert st. induction second_inputs as [|node rest IH]; intros st Hinv Hmap;
    cbn [merge_inputs].
  - by intros [= <-].
  - fold (key_of second_nodes node). set (s := key_of second_nodes node).
    destruct (default [] (first_result st !! s)) as [|front queue] eqn:Hq.
    + destruct fpi; [done|]. apply IH; [by destruct Hinv | done].
    + intros Hm.
      assert (Hstep : merge_inputs fpi second_nodes [node] st
                      = Ok (mkMergeInputs (<[s := queue]> (first_result st)) (first_inputs st)
                              (<[node := front]> (inputs_map st))
                              (<[front := S (default 0 (removed_first_result st !! front))]>
                                 (removed_first_result st)))).
      { cbn [merge_inputs]. fold (key_of second_nodes node). fold s. by rewrite Hq. }
      pose proof (merge_inputs_inv _ _ _ _ _ _ _ Hinv Hstep) as Hinv'.
      apply (IH _ Hinv'); [|done].
      intros a f. cbn [inputs_map]. destruct (decide (node = a)) as [<-|Hne].
      * rewrite lookup_insert_eq. intros [= <-].
        destruct Hinv as [Hkey Hcount]. split.
        -- apply (Hkey s). rewrite Hq. left.
        -- specialize (Hcount front). rewrite (Hkey s front) in Hcount by (rewrite Hq; left).
           rewrite Hq, occurrences_cons, decide_True in Hcount by done.
           destruct (decide (front ∈ first_index)) as [|Hnin]; [done|].
           assert (occurrences front first_index = 0); [|lia].
           unfold occurrences. clear -Hnin.
           induction first_index as [|x l IHl]; [done|].
           apply not_elem_of_cons in Hnin as [Hx Hl]. rewrite filter_cons.
           rewrite decide_False by done. by apply IHl.
      * rewrite lookup_insert_ne by done. apply Hmap.
Qed.

Lemma occurrences_0 p (l : list nat) : p ∉ l → occurrences p l = 0.
Proof.
  unfold occurrences. induction l as [|x l IH]; [done|]. intros Hnin.
  apply not_elem_of_cons in Hnin as [Hx Hl]. rewrite filter_cons.
  rewrite decide_False by done. by apply IH.
Qed.

Lemma occurrences_length (l1 l2 : list nat) :
  (∀ p, occurrences p l1 = occurrences p l2) → length l1 = length l2.
Proof.
  revert l2. induction l1 as [|x l1 IH]; intros l2 Hocc.
  - symmetry in Hocc. by rewrite (nil_of_occurrences l2).
  - assert (Hx : x ∈ l2).
    { destruct (decide (x ∈ l2)) as [|Hnin]; [done|].
      specialize (Hocc x). rewrite occurrences_cons, decide_True in Hocc by done.
      rewrite (occurrences_0 x l2) in Hocc by done. lia. }
    apply list_elem_of_split in Hx as (l2a & l2b & ->).
    rewrite length_app. cbn [length].
    rewrite (IH (l2a ++ l2b)); [rewrite length_app; lia|].
    intros p. specialize (Hocc p).
    rewrite occurrences_cons, !occurrences_app, occurrences_cons in Hocc.
    rewrite occurrences_app. lia.
Qed.

(** The entries of a name that stay in the index of [first] are as many as
    are left in the queue of that name. *)
Lemma survivors_named first_nodes first_index st name :
  merge_inv first_nodes first_index st →
  named first_nodes name (remove_second_inputs first_index (removed_first_result st))
  = length (default [] (first_result st !! name)).
Proof.
  intros [Hkey Hcount]. unfold named. apply occurrences_length. intros p.
  destruct (decide (key_of first_nodes p = name)) as [<-|Hne].
  - rewrite occurrences_filter_key, remove_second_inputs_occurrences.
    specialize (Hcount p). lia.
  - rewrite !occurrences_0; [done| |].
    + intros Hp. by apply Hkey in Hp.
    + rewrite list_elem_of_filter. tauto.
Qed.

Lemma sublist_omap {A B} (f : A → option B) (l1 l2 : list A) :
  l1 `sublist_of` l2 → omap f l1 `sublist_of` omap f l2.
Proof.
  induction 1 as [|x l1 l2 _ IH|x l1 l2 _ IH]; csimpl; [done| |].
  - destruct (f x); [by constructor | done].
  - destruct (f x); [by constructor | done].
Qed.

Lemma merged_deref_first ns ns' a : a ∈ ns.*1 → deref (ns ++ ns') a = deref ns a.
Proof.
  intros Ha. rewrite deref_app. destruct (deref ns a) eqn:Hd; [done|].
  by apply deref_None in Hd.
Qed.

(** The nodes of [second] keep their names and types in the merged store,
    where only their children are rewired. *)
Lemma merged_deref_second ns ns' (f : nat * Node → list nat) a :
  a ∉ ns.*1 →
  deref (ns ++ ((fun q => (q.1, set_children q.2 (f q))) <$> ns')) a
  = (fun n => set_children n (f (a, n))) <$> deref ns' a.
Proof.
  intros Ha. rewrite deref_app, (deref_None' ns a Ha).
  rewrite (deref_fmap_node (fun q => set_children q.2 (f q))).
  by destruct (deref ns' a).
Qed.

(** X23.  What merge requires.  For two DAGs that share no node and hold
    their inputs in their stores, the merged DAG requires no column but the
    required columns of first, followed by those inputs of second that found
    no result column of first: of each name, as many as second has inputs of
    it beyond the entries the index of first has.  With project_input set on
    first there are none. *)
Theorem merge_required_columns first second merged :
  (∀ a, a ∈ inputs first → a ∈ (nodes first).*1) →
  (∀ a, a ∈ inputs second → a ∈ (nodes second).*1) →
  (∀ a, a ∈ (nodes second).*1 → a ∉ (nodes first).*1) →
  merge first second = Ok merged →
  ∃ unmatched,
    unmatched `sublist_of` inputs second ∧
    (project_input (settings first) = true → unmatched = []) ∧
    (∀ name, named (nodes second) name unmatched
             = named (nodes second) name (inputs second)
               - named (nodes first) name (index first)) ∧
    getRequiredColumns merged
    `sublist_of`
      getRequiredColumns first
      ++ getRequiredColumns {| nodes := nodes second; index := index second;
                               inputs := unmatched; settings := settings second |}.
Proof.
  intros Hf Hs Hdisj. unfold merge.
  destruct (merge_before_prune first second) as [m0|e] eqn:Hm0; [|done]. intros [= <-].
  revert Hm0. unfold merge_before_prune.
  destruct (merge_inputs _ _ _ _) as [mi|e] eqn:Hmi; [|done]. intros [= <-].
  destruct (merge_inputs_unmatched _ _ _ _ _ Hmi) as (unmatched & Hin & Hsub & Hfpi & Hcount).
  cbn [first_inputs first_result] in *.
  exists unmatched. split; [done|]. split; [done|]. split.
  - intros name. destruct (Hcount name) as [-> _]. by rewrite build_first_result_spec.
  - eapply (@transitivity _ sublist _); [apply prune_observable|].
    unfold getRequiredColumns. cbn [nodes inputs]. rewrite Hin, omap_app.
    rewrite (omap_ext_in _ (fun a => (fun n => (result_name n, result_type n))
                                       <$> deref (nodes first) a) (inputs first)).
    2:{ intros a Ha. by rewrite merged_deref_first by (by apply Hf). }
    rewrite (omap_ext_in _ (fun a => (fun n => (result_name n, result_type n))
                                       <$> deref (nodes second) a) unmatched); [done|].
    intros a Ha.
    assert (Ha2 : a ∈ inputs second) by (by eapply elem_of_sublist).
    rewrite (merged_deref_second _ _
               (fun q => replace_input (nodes second) (inputs_map mi) <$> children q.2))
      by (by apply Hdisj, Hs).
    by destruct (deref (nodes second) a).
Qed.

Lemma named_names ns name (l : list nat) :
  (∀ a, a ∈ l → a ∈ ns.*1) →
  length (filter (eq name) (omap (name_of ns) l)) = named ns name l.
Proof.
  induction l as [|a l IH]; intros Hin; [done|].
  assert (IH' := IH (fun b Hb => Hin b (list_elem_of_further _ _ _ Hb))).
  rewrite named_cons, <- IH'. unfold key_of. csimpl.
  destruct (name_of ns a) as [s|] eqn:Hn.
  - rewrite filter_cons. cbn [default from_option id].
    destruct (decide (name = s)) as [->|Hne].
    + by rewrite decide_True.
    + by rewrite decide_False by congruence.
  - unfold name_of in Hn. destruct (deref ns a) eqn:Hd; [done|].
    apply deref_None in Hd. destruct Hd. apply Hin. left.
Qed.

(** X24.  What merge shows.  For two DAGs that share no node and whose
    indexes point into their stores, the result columns of the merged DAG
    are, by name, those of second in their order, followed, unless second
    has project_input set, by result columns of first in their order: of
    each name, as many as the index of first has beyond the inputs of
    second of that name. *)
Theorem merge_result_names first second merged :
  (∀ a, a ∈ index first → a ∈ (nodes first).*1) →
  (∀ a, a ∈ index second → a ∈ (nodes second).*1) →
  (∀ a, a ∈ (nodes second).*1 → a ∉ (nodes first).*1) →
  merge first second = Ok merged →
  ∃ kept,
    getNames merged = getNames second ++ kept ∧
    kept `sublist_of` getNames first ∧
    (project_input (settings second) = true → kept = []) ∧
    (project_input (settings second) = false →
       ∀ name, length (filter (eq name) kept)
               = named (nodes first) name (index first)
                 - named (nodes second) name (inputs second)).
Proof.
  intros Hf Hs Hdisj. unfold merge.
  destruct (merge_before_prune first second) as [m0|e] eqn:Hm0; [|done]. intros [= <-].
  rewrite getNames_fst, removeUnusedActions_names_types, <- getNames_fst.
  revert Hm0. unfold merge_before_prune.
  destruct (merge_inputs _ _ _ _) as [mi|e] eqn:Hmi; [|done]. intros [= <-].
  pose proof (merge_inputs_inv _ _ _ _ _ _ _ (merge_inv_init _ _ _) Hmi) as Hinv.
  assert (Hmap : ∀ a f, inputs_map mi !! a = Some f →
            key_of (nodes first) f = key_of (nodes second) a ∧ f ∈ index first).
  { refine (merge_inputs_map_inv _ _ _ _ _ _ _ (merge_inv_init _ _ _) _ Hmi).
    intros a f. cbn [inputs_map]. by rewrite lookup_empty. }
  unfold getNames at 1. cbn [nodes index]. rewrite foldl_Index_insert. cbn [app].
  set (stored := nodes first ++ _).
  assert (Hsecond : omap (name_of stored)
                      (replace_input (nodes second) (inputs_map mi) <$> index second)
                    = getNames second).
  { rewrite omap_fmap_list. unfold getNames. apply omap_ext_in. intros a Ha.
    pose proof (Hs a Ha) as Hin. unfold replace_input.
    destruct (deref (nodes second) a) as [n|] eqn:Hd; [|by apply deref_None in Hd].
    assert (Hself : name_of stored a = name_of (nodes second) a).
    { unfold name_of, stored.
      rewrite (merged_deref_second _ _
                 (fun q => replace_input (nodes second) (inputs_map mi) <$> children q.2))
        by (by apply Hdisj).
      by rewrite Hd. }
    destruct (decide (type n = INPUT)); [|done].
    destruct (inputs_map mi !! a) as [f|] eqn:Hma; [|done].
    cbn [default from_option id]. destruct (Hmap a f Hma) as [Hkey Hfin].
    unfold name_of, stored. rewrite merged_deref_first by (by apply Hf).
    unfold key_of, name_of in Hkey. rewrite Hd in Hkey.
    destruct (deref (nodes first) f) as [nf|] eqn:Hdf.
    - rewrite Hd. cbn in Hkey. cbn. by rewrite Hkey.
    - apply deref_None in Hdf. destruct Hdf. by apply Hf. }
  destruct (project_input (settings second)) eqn:Hpi.
  - exists []. rewrite app_nil_r. split; [done|]. split; [apply sublist_nil_l|]. done.
  - set (survivors := remove_second_inputs (index first) (removed_first_result mi)).
    assert (Hsub : survivors `sublist_of` index first)
      by apply remove_second_inputs_sublist.
    assert (Hnames : omap (name_of stored) survivors = omap (name_of (nodes first)) survivors).
    { apply omap_ext_in. intros a Ha. unfold name_of, stored.
      rewrite merged_deref_first; [done|]. apply Hf. by eapply elem_of_sublist. }
    exists (omap (name_of (nodes first)) survivors).
    rewrite foldl_Index_prepend, omap_app, Hsecond, Hnames.
    split; [done|]. split; [by apply sublist_omap|]. split; [done|].
    intros _ name. rewrite named_names.
    2:{ intros a Ha. apply Hf. by eapply elem_of_sublist. }
    unfold survivors. rewrite (survivors_named _ _ _ _ Hinv).
    destruct (merge_inputs_unmatched _ _ _ _ _ Hmi) as (unmatched & _ & _ & _ & Hcount).
    destruct (Hcount name) as [_ Hlen]. rewrite Hlen. cbn [first_result].
    by rewrite build_first_result_spec.
Qed.

End MergeResult.

Section AliasFacts.
Context `{RT : Runtime}.
Implicit Types (ns : list (nat * Node)) (a b : nat) (n : Node) (d : ActionsDAG)
  (idx : list nat).

Lemma addNode_throws node can_replace d :
  (addNode node can_replace d).1 = Throw DUPLICATE_COLUMN ↔
  is_Some (Index_find (nodes d) (index d) (result_name node)) ∧ can_replace = false.
Proof.
  unfold addNode.
  destruct (bool_decide (is_Some (Index_find (nodes d) (index d) (result_name node))))
    eqn:Hb; destruct can_replace; cbn [negb andb fst].
  - split; [done | by intros [_ ?]].
  - apply bool_decide_eq_true in Hb. done.
  - split; [done | by intros [_ ?]].
  - apply bool_decide_eq_false in Hb. split; [done | by intros [? _]].
Qed.

(** X25.  addAlias by name on a DAG whose index points into the store.  It
    throws UNKNOWN_IDENTIFIER exactly when the name is not in the index, and
    DUPLICATE_COLUMN exactly when the name is there, the alias is in the
    index too and can_replace is off; it throws nothing else, and a call
    that throws changes nothing.  A call that returns has pushed an ALIAS
    node whose one child is the named node, with its type, its column and
    its allow_constant_folding; getNode finds it under the alias, and the
    name still stands for the same node unless the alias is the name
    itself. *)
Theorem addAlias_spec name alias can_replace d r d' :
  (∀ a, a ∈ index d → a ∈ (nodes d).*1) →
  addAlias name alias can_replace d = (r, d') →
  (r = Throw UNKNOWN_IDENTIFIER ↔ Index_find (nodes d) (index d) name = None) ∧
  (r = Throw DUPLICATE_COLUMN ↔
     is_Some (Index_find (nodes d) (index d) name) ∧
     is_Some (Index_find (nodes d) (index d) alias) ∧ can_replace = false) ∧
  (∀ e, r = Throw e → (e = UNKNOWN_IDENTIFIER ∨ e = DUPLICATE_COLUMN) ∧ d' = d) ∧
  (∀ res, r = Ok res →
     ∃ child c,
       Index_find (nodes d) (index d) name = Some child ∧
       deref (nodes d) child = Some c ∧
       (res ∉ (nodes d).*1) ∧
       deref (nodes d') res
       = Some {| children := [child]; type := ALIAS; result_name := alias;
                 result_type := result_type c; function_builder := None;
                 function_base := None; function := None; column := column c;
                 allow_constant_folding := allow_constant_folding c |} ∧
       getNode alias d' = (Ok res, d') ∧
       (alias ≠ name → getNode name d' = (Ok child, d'))).
Proof.
  intros Hidx. unfold addAlias, bind, getNode.
  destruct (Index_find (nodes d) (index d) name) as [child|] eqn:Hf.
  2:{ intros [= <- <-]. split; [done|]. split; [|split].
      - split; [done|]. intros [[? ?] _]. done.
      - intros e [= <-]. split; [by left | done].
      - done. }
  pose proof (Index_find_Some _ _ _ _ Hf) as [Hin _].
  unfold addAlias_node, bind, node_at.
  destruct (deref (nodes d) child) as [c|] eqn:Hd;
    [|apply deref_None in Hd; by specialize (Hidx child Hin)].
  set (node := {| children := [child]; type := ALIAS; result_name := alias;
                  result_type := result_type c; function_builder := None;
                  function_base := None; function := None; column := column c;
                  allow_constant_folding := allow_constant_folding c |}).
  intros Hadd. pose proof (addNode_throws node can_replace d) as Hthrow.
  rewrite Hadd in Hthrow. cbn [fst result_name node] in Hthrow.
  assert (Hname : is_Some (Some child)) by (by eexists).
  destruct r as [res|e].
  - split; [done|]. split; [rewrite Hthrow; tauto|]. split; [done|].
    intros ? [= <-]. exists child, c.
    destruct (addNode_getNode _ _ _ _ _ Hidx Hadd) as [Hg Hother].
    apply addNode_cases in Hadd as [[? _]|[[= ->] ->]]; [done|].
    split; [done|]. split; [done|]. split; [apply fresh_addr_fresh|].
    split; [cbn [nodes]; apply deref_push_fresh|]. split; [exact Hg|].
    intros Hne. unfold getNode. rewrite (Hother name) by (by cbn). by rewrite Hf.
  - apply addNode_cases in Hadd as [[[= ->] ->]|[? _]]; [|done].
    split; [done|]. split; [rewrite Hthrow; tauto|]. split; [|done].
    intros e [= <-]. split; [by right | done].
Qed.

End AliasFacts.

(** ** The theorems at work on the sample runtime *)

Lemma array_join_preserved_witness :
  2 ∈ (nodes (removeUnusedActions sample_array_join_dag).2).*1 ∧
  (2, sample_array_join) ∈ nodes (removeUnusedActions sample_array_join_dag).2.
Proof.
  destruct (array_join_preserved sample_array_join_dag
              (removeUnusedActions sample_array_join_dag) 2 sample_array_join) as [H1 H2].
  - apply prune_call_plain.
  - right. left.
  - reflexivity.
  - split; [exact H1 | apply H2; reflexivity].
Defined.

Lemma removeUnusedActions_idempotent_witness :
  removeUnusedActions_dag (removeUnusedActions_dag sample_array_join_dag)
  = removeUnusedActions_dag sample_array_join_dag.
Proof.
  apply (removeUnusedActions_idempotent sample_array_join_dag).
  intros a n Hin _.
  repeat (apply elem_of_cons in Hin as [Heq|Hin]; [injection Heq as -> ->; reflexivity|]).
  by apply elem_of_nil in Hin.
Defined.

Lemma no_foldable_node_after_prune_witness :
  (3, fold_node sample_plus_node) ∈ nodes (removeUnusedActions_dag sample_plus_dag) ∧
  foldable sample_plus_node = true ∧
  ¬ (children (fold_node sample_plus_node) ≠ [] ∧
     is_const (column (fold_node sample_plus_node)) = true ∧
     allow_constant_folding (fold_node sample_plus_node) = true).
Proof.
  assert (Hin : (3, fold_node sample_plus_node)
                ∈ nodes (removeUnusedActions_dag sample_plus_dag))
    by (apply (list_elem_of_lookup_2 _ 2); vm_compute; reflexivity).
  split; [exact Hin|]. split; [reflexivity|].
  refine (proj1 (no_foldable_node_after_prune sample_plus_dag
                   (removeUnusedActions_dag sample_plus_dag) 3
                   (fold_node sample_plus_node) _ _ Hin)).
  - vm_compute. repeat constructor; set_solver.
  - apply (prune_call_plain sample_plus_dag).
Defined.

Lemma addFunction_constant_folding_witness :
  execute_on_constants false (build sample_plus (argument_of <$> sample_constant_nodes))
    (prepare (build sample_plus (argument_of <$> sample_constant_nodes))
       (argument_of <$> sample_constant_nodes))
    (argument_of <$> sample_constant_nodes) "Int32"%string
  = Some (ConstCol 1 (FInt 3)) ∧
  ∃ n, deref (nodes sample_plus_dag) 3 = Some n ∧ type n = FUNCTION ∧
       column n = Some (ConstCol 1 (FInt 3)).
Proof.
  destruct (addFunction_constant_folding sample_plus [1; 2] "" false
              sample_constants_dag sample_constant_nodes eq_refl) as (_ & H & _).
  split; [reflexivity|].
  destruct (H (ConstCol 1 (FInt 3)) 3 sample_plus_dag eq_refl eq_refl) as [_ Hn].
  exact Hn.
Defined.

(** A deterministic function that is suitable for constant folding, called
    on a constant, with compilation disabled: its result is a full column
    and the node keeps no column. *)
Lemma constant_folding_result_not_constant :
  let d := after (addColumn (sample_constant "1" 1) false) empty_DAG in
  let arguments := [sample_constant "1" 1] in
  let fb := build sample_replicate arguments in
  all_const arguments = true ∧
  isSuitableForConstantFolding fb = true ∧
  (compile_expressions (settings d) = false ∨ isDeterministic fb = true) ∧
  execute_on_constants (compile_expressions (settings d)) fb (prepare fb arguments)
    arguments (getResultType fb) = None ∧
  ∃ res d' n,
    addFunction sample_replicate [1] "" false d = (Ok res, d') ∧
    deref (nodes d') res = Some n ∧ type n = FUNCTION ∧ column n = None.
Proof.
  repeat split; try reflexivity; try (left; reflexivity).
  eexists _, _, _. repeat split; vm_compute; reflexivity.
Qed.



Lemma merge_index_witness :
  index sample_merged = [11; 2; 3] ∧
  [2; 3] `sublist_of` index sample_first ∧
  occurrences 1 [2; 3] + 1 = occurrences 1 (index sample_first).
Proof.
  destruct (merge_index sample_first sample_consumer sample_unpruned eq_refl eq_refl)
    as (mi & Hmi & Hidx & Hsub & Hcount & merged & Hmerged & Hsame).
  vm_compute in Hmi. injection Hmi as <-.
  assert (Hm : merge sample_first sample_consumer = Ok sample_merged) by reflexivity.
  rewrite Hm in Hmerged. injection Hmerged as <-.
  split; [exact Hsame|]. split; [exact Hsub|]. exact (Hcount 1).
Defined.

(** C1.  split breaks the claim on [sample_second], a DAG the source gives
    out (the second half of a split, with a column restored to the index):
    f = toString(x) is stored before its child x, both are in the index, and
    the split node is f, as splitActionsForFilter("f") chooses it.  The
    INPUT node made in [second] for x takes the name and the type of f, the
    node of the enclosing loop over the store, so the index of [second]
    reads f: String, f: String where the original reads f: String,
    x: Int32. *)
Theorem split_index_takes_outer_node :
  ((fun halves => after (tryRestoreColumn "x") halves.2) <$> split sample_dag {[1]}
   = Some sample_second) ∧
  splitActionsForFilter "f" sample_second = Ok (split sample_second {[4]}) ∧
  getNamesAndTypesList sample_second = [("f", "String"); ("x", "Int32")]%string ∧
  (fun halves => getNamesAndTypesList halves.2) <$> split sample_second {[4]}
  = Some [("f", "String"); ("f", "String")]%string.
Proof. repeat split; vm_compute; reflexivity. Qed.

(** Where the store lists a parent before its child the round trip takes
    the same turn: on [sample_second], merging the two halves of split
    gives three result columns f, f, x for the two of the original, and a
    second required input f that the original does not have. *)
Theorem split_merge_round_trip_fails :
  getNamesAndTypesList sample_second = [("f", "String"); ("x", "Int32")]%string ∧
  getRequiredColumns sample_second = [("x", "Int32")]%string ∧
  (split sample_second {[4]} ≫= fun halves => merged_names halves.1 halves.2)
  = Some ([("f", "String"); ("f", "String"); ("x", "Int32")]%string,
          [("x", "Int32"); ("f", "String")]%string).
Proof. repeat split; vm_compute; reflexivity. Qed.



(** ** The other members at work on the sample runtime *)

Lemma addNode_then_getNode_witness :
  getNode "x"
    (after (addNode (set_children (new_Node ALIAS "x" "Int32"%string) [2]) true)
       sample_first)
  = (Ok 4,
     after (addNode (set_children (new_Node ALIAS "x" "Int32"%string) [2]) true)
       sample_first).
Proof.
  refine (proj1 (addNode_then_getNode
                   (set_children (new_Node ALIAS "x" "Int32"%string) [2]) true
                   sample_first 4 _ _ _)).
  - apply wf_index, wf_dagb_correct. vm_compute. reflexivity.
  - reflexivity.
Defined.

Lemma builder_call_pushes_witness :
  ((∃ e, Ok 2 = Throw e) ∧
   after (addArrayJoin sample_nested false "arr" "y") sample_array_dag = sample_array_dag) ∨
  pushed sample_array_dag (Ok 2)
    (after (addArrayJoin sample_nested false "arr" "y") sample_array_dag).
Proof.
  apply (builder_call_pushes sample_nested false
           (addArrayJoin sample_nested false "arr" "y")).
  - apply call_addArrayJoin.
  - reflexivity.
Defined.

Lemma built_well_formed_witness :
  wf_dag sample_array_join_built ∧ array_joins_plain (nodes sample_array_join_built).
Proof.
  apply (built_well_formed sample_nested false false).
  eapply built_removeUnusedActions_names; [|apply surjective_pairing].
  unfold sample_array_join_full.
  eapply built_builder; [|apply call_addInput|apply surjective_pairing].
  eapply built_builder; [|apply call_addArrayJoin|apply surjective_pairing].
  eapply built_builder; [|apply call_addInput|apply surjective_pairing].
  apply built_empty.
Defined.

Lemma addArrayJoin_spec_witness :
  ∃ child c nested,
    Index_find (nodes sample_array_dag) (index sample_array_dag) "arr" = Some child ∧
    deref (nodes sample_array_dag) child = Some c ∧
    sample_nested (result_type c) = Some nested ∧
    (2 ∉ (nodes sample_array_dag).*1) ∧
    deref (nodes (after (addArrayJoin sample_nested false "arr" "y") sample_array_dag)) 2
    = Some (set_children (new_Node ARRAY_JOIN "y" nested) [child]) ∧
    getNode "y" (after (addArrayJoin sample_nested false "arr" "y") sample_array_dag)
    = (Ok 2, after (addArrayJoin sample_nested false "arr" "y") sample_array_dag).
Proof.
  refine (proj2 (proj2 (proj2 (addArrayJoin_spec sample_nested false "arr" "y"
                                 sample_array_dag (Ok 2) _ _ _))) 2 eq_refl).
  - apply wf_index, wf_dagb_correct. vm_compute. reflexivity.
  - reflexivity.
Defined.

Lemma addFunction_names_behaviour_witness :
  ∃ n,
    deref (nodes (after (addFunction_names false sample_toString ["x"%string] ""
                           sample_context) sample_input_dag)) 2 = Some n ∧
    type n = FUNCTION ∧
    Forall2 (fun name a =>
               Index_find (nodes sample_input_dag) (index sample_input_dag) name = Some a)
      ["x"%string] (children n) ∧
    (EmptyString = EmptyString →
       result_name n = default_result_name (getName sample_toString) ["x"%string]) ∧
    (EmptyString ≠ EmptyString → result_name n = EmptyString) ∧
    settings (after (addFunction_names false sample_toString ["x"%string] ""
                       sample_context) sample_input_dag)
    = read_context false sample_context (settings sample_input_dag).
Proof.
  refine (proj2 (proj2 (addFunction_names_behaviour false sample_toString ["x"%string] ""
                          sample_context sample_input_dag (Ok 2) _ _ _)) 2 eq_refl).
  - apply wf_index, wf_dagb_correct. vm_compute. reflexivity.
  - reflexivity.
Defined.

Lemma addAliases_nodes_spec_witness :
  pushes sample_input_dag
    (after (addAliases_nodes [("x", "y"); ("x", "")]%string) sample_input_dag) ∧
  inputs (after (addAliases_nodes [("x", "y"); ("x", "")]%string) sample_input_dag)
  = inputs sample_input_dag ∧
  Forall2 (fun item res =>
             ∃ child,
               Index_find (nodes sample_input_dag) (index sample_input_dag) item.1
               = Some child ∧
               alias_result sample_input_dag
                 (after (addAliases_nodes [("x", "y"); ("x", "")]%string) sample_input_dag)
                 item child res)
    [("x", "y"); ("x", "")]%string [2; 1].
Proof.
  refine (addAliases_nodes_spec [("x", "y"); ("x", "")]%string sample_input_dag
            (Ok [2; 1]) _ _ _).
  - apply wf_index, wf_dagb_correct. vm_compute. reflexivity.
  - reflexivity.
Defined.


Lemma removeUnusedInput_spec_witness :
  ∃ pos input,
    inputs sample_array_join_dag !! pos = Some input ∧
    name_of (nodes sample_array_join_dag) input = Some "z"%string ∧
    (∀ j it, inputs sample_array_join_dag !! j = Some it → j < pos →
             name_of (nodes sample_array_join_dag) it ≠ Some "z"%string) ∧
    (∀ a n, (a, n) ∈ nodes sample_array_join_dag → input ∉ children n) ∧
    inputs (after (removeUnusedInput "z") sample_array_join_dag)
    = delete pos (inputs sample_array_join_dag) ∧
    deref (nodes (after (removeUnusedInput "z") sample_array_join_dag)) input = None ∧
    (∀ a, a ≠ input →
          deref (nodes (after (removeUnusedInput "z") sample_array_join_dag)) a
          = deref (nodes sample_array_join_dag) a) ∧
    (∀ a, a ∈ index (after (removeUnusedInput "z") sample_array_join_dag)
          ↔ a ∈ index sample_array_join_dag ∧ a ≠ input) ∧
    settings (after (removeUnusedInput "z") sample_array_join_dag)
    = settings sample_array_join_dag ∧
    wf_dag (after (removeUnusedInput "z") sample_array_join_dag).
Proof.
  refine (removeUnusedInput_spec "z" sample_array_join_dag (Ok tt) _ _ _ _).
  - apply wf_dagb_correct. vm_compute. reflexivity.
  - apply (bool_decide_unpack _). vm_compute. exact I.
  - reflexivity.
Defined.

Lemma tryRestoreColumn_restores_witness :
  ∃ found,
    Ok true = Ok found ∧
    nodes (after (tryRestoreColumn "x") sample_dag) = nodes sample_dag ∧
    inputs (after (tryRestoreColumn "x") sample_dag) = inputs sample_dag ∧
    settings (after (tryRestoreColumn "x") sample_dag) = settings sample_dag ∧
    (found = true ↔
       is_Some (Index_find (nodes sample_dag) (index sample_dag) "x") ∨
       ∃ a n, (a, n) ∈ nodes sample_dag ∧ result_name n = "x"%string) ∧
    (is_Some (Index_find (nodes sample_dag) (index sample_dag) "x") ∨ found = false →
       after (tryRestoreColumn "x") sample_dag = sample_dag) ∧
    (Index_find (nodes sample_dag) (index sample_dag) "x" = None → found = true →
       ∃ a pre n post,
         nodes sample_dag = pre ++ (a, n) :: post ∧ result_name n = "x"%string ∧
         (∀ p, p ∈ post → result_name p.2 ≠ "x"%string) ∧
         getNode "x" (after (tryRestoreColumn "x") sample_dag)
         = (Ok a, after (tryRestoreColumn "x") sample_dag)) ∧
    (∀ name, name ≠ "x"%string →
       Index_find (nodes (after (tryRestoreColumn "x") sample_dag))
         (index (after (tryRestoreColumn "x") sample_dag)) name
       = Index_find (nodes sample_dag) (index sample_dag) name).
Proof.
  refine (tryRestoreColumn_restores "x" sample_dag (Ok true) _ _ _).
  - apply (bool_decide_unpack _). vm_compute. exact I.
  - reflexivity.
Defined.

Lemma removeUnusedActions_well_formed_witness :
  wf_dag (removeUnusedActions_dag sample_plus_dag) ∧
  closed_store (nodes (removeUnusedActions_dag sample_plus_dag)).
Proof.
  apply (removeUnusedActions_well_formed sample_plus_dag).
  apply wf_dagb_correct. vm_compute. reflexivity.
Defined.

Lemma clone_same_dump_witness :
  dumpDAG (clone sample_shared) = dumpDAG sample_shared ∧
  getResultColumns (clone sample_shared) = getResultColumns sample_shared ∧
  getRequiredColumns (clone sample_shared) = getRequiredColumns sample_shared ∧
  settings (clone sample_shared) = settings sample_shared ∧
  (∀ a, a ∈ (nodes (clone sample_shared)).*1 → a ∉ (nodes sample_shared).*1) ∧
  (wf_dag sample_shared → wf_dag (clone sample_shared)).
Proof.
  apply (clone_same_dump sample_shared).
  apply (bool_decide_unpack _). vm_compute. exact I.
Defined.

Lemma split_first_feeds_second_witness :
  ∃ first second,
    split sample_shared {[3]} = Some (first, second) ∧
    getNamesAndTypesList first = getRequiredColumns second ∧
    length (index first) = length (inputs second) ∧
    NoDup ((nodes first).*1 ++ (nodes second).*1) ∧
    settings first = settings sample_shared ∧ settings second = settings sample_shared.
Proof.
  apply (split_first_feeds_second sample_shared {[3]}).
  apply wf_dagb_correct. vm_compute. reflexivity.
Defined.

Lemma split_keeps_result_names_witness :
  ∃ first second,
    split sample_dag {[1]} = Some (first, second) ∧
    getNamesAndTypesList second = getNamesAndTypesList sample_dag ∧
    length (index second) = length (index sample_dag).
Proof.
  apply (split_keeps_result_names sample_dag {[1]}).
  apply wf_dagb_correct. vm_compute. reflexivity.
Defined.

Lemma makeConvertingActions_names_witness :
  getNames sample_converting_dag = ["a"; "a"]%string ∧
  getRequiredColumns sample_converting_dag
  `sublist_of` ((fun c => (c_name c, c_type c)) <$> sample_source) ∧
  project_input (settings sample_converting_dag) = true.
Proof.
  apply (makeConvertingActions_names sample_materialize sample_cast sample_source
           (take 2 sample_result) Name false sample_converting_dag).
  vm_compute. reflexivity.
Defined.

Lemma splitActionsBeforeArrayJoin_spec_witness :
  ∃ split_nodes first second,
    array_join_split_nodes sample_array_join_dag {["arr"%string]} = Some split_nodes ∧
    (∀ a, a ∈ split_nodes → a ∈ (nodes sample_array_join_dag).*1) ∧
    (∀ a n, deref (nodes sample_array_join_dag) a = Some n →
       a ∈ split_nodes ↔
       ¬ (type n = INPUT ∧ result_name n ∈ ({["arr"%string]} : gset string)) ∧
       ∀ c, c ∈ children n → c ∈ split_nodes) ∧
    splitActionsBeforeArrayJoin sample_array_join_dag {["arr"%string]}
    = Some (first, second) ∧
    project_input (settings first) = false ∧
    getNamesAndTypesList first = getRequiredColumns second ∧
    getNamesAndTypesList second = getNamesAndTypesList sample_array_join_dag.
Proof.
  apply (splitActionsBeforeArrayJoin_spec sample_array_join_dag {["arr"%string]}).
  apply wf_dagb_correct. vm_compute. reflexivity.
Defined.

Lemma splitActionsForFilter_spec_witness :
  ∃ first second,
    splitActionsForFilter "g" sample_shared = Ok (Some (first, second)) ∧
    "g"%string ∈ getNames first ∧
    getNamesAndTypesList first = getRequiredColumns second ∧
    getNamesAndTypesList second = getNamesAndTypesList sample_shared.
Proof.
  refine (proj2 (splitActionsForFilter_spec "g" sample_shared _) _).
  - apply wf_dagb_correct. vm_compute. reflexivity.
  - exists 4. split; [|reflexivity]. apply list_elem_of_here.
Defined.
Lemma removeUnusedActions_names_spec_witness :
  (∀ name, name ∈ ["z"; "y"; "z"]%string →
           is_Some (Index_find (nodes sample_array_join_full)
                      (index sample_array_join_full) name)) ∧
  getNames (after (removeUnusedActions_names ["z"; "y"; "z"]%string) sample_array_join_full)
  = ["z"; "y"]%string ∧
  Forall2 (fun name a =>
             Index_find (nodes sample_array_join_full) (index sample_array_join_full) name
             = Some a)
    ["z"; "y"]%string
    (index (after (removeUnusedActions_names ["z"; "y"; "z"]%string)
              sample_array_join_full)) ∧
  settings (after (removeUnusedActions_names ["z"; "y"; "z"]%string) sample_array_join_full)
  = settings sample_array_join_full.
Proof.
  refine (removeUnusedActions_names_spec ["z"; "y"; "z"]%string sample_array_join_full
            (Ok tt) _ _).
  reflexivity.
Defined.

Lemma merge_required_columns_witness :
  ∃ unmatched,
    unmatched `sublist_of` inputs sample_consumer ∧
    (project_input (settings sample_first) = true → unmatched = []) ∧
    (∀ name, named (nodes sample_consumer) name unmatched
             = named (nodes sample_consumer) name (inputs sample_consumer)
               - named (nodes sample_first) name (index sample_first)) ∧
    getRequiredColumns sample_merged
    `sublist_of`
      getRequiredColumns sample_first
      ++ getRequiredColumns {| nodes := nodes sample_consumer;
                               index := index sample_consumer;
                               inputs := unmatched;
                               settings := settings sample_consumer |}.
Proof.
  apply (merge_required_columns sample_first sample_consumer sample_merged).
  - apply Forall_forall. vm_compute. repeat constructor.
  - apply Forall_forall. vm_compute. repeat constructor.
  - apply Forall_forall. vm_compute.
    repeat constructor; intros Hin; repeat (apply elem_of_cons in Hin as [Hin|Hin];
      [discriminate|]); by apply elem_of_nil in Hin.
  - reflexivity.
Defined.

Lemma merge_result_names_witness :
  ∃ kept,
    getNames sample_merged = getNames sample_consumer ++ kept ∧
    kept `sublist_of` getNames sample_first ∧
    (project_input (settings sample_consumer) = true → kept = []) ∧
    (project_input (settings sample_consumer) = false →
       ∀ name, length (filter (eq name) kept)
               = named (nodes sample_first) name (index sample_first)
                 - named (nodes sample_consumer) name (inputs sample_consumer)).
Proof.
  apply (merge_result_names sample_first sample_consumer sample_merged).
  - apply wf_index, wf_dagb_correct. vm_compute. reflexivity.
  - apply wf_index, wf_dagb_correct. vm_compute. reflexivity.
  - apply Forall_forall. vm_compute.
    repeat constructor; intros Hin; repeat (apply elem_of_cons in Hin as [Hin|Hin];
      [discriminate|]); by apply elem_of_nil in Hin.
  - reflexivity.
Defined.

Lemma addAlias_spec_witness :
  ∃ child c,
    Index_find (nodes sample_input_dag) (index sample_input_dag) "x" = Some child ∧
    deref (nodes sample_input_dag) child = Some c ∧
    (2 ∉ (nodes sample_input_dag).*1) ∧
    deref (nodes (after (addAlias "x" "y" false) sample_input_dag)) 2
    = Some {| children := [child]; type := ALIAS; result_name := "y";
              result_type := result_type c; function_builder := None;
              function_base := None; function := None; column := column c;
              allow_constant_folding := allow_constant_folding c |} ∧
    getNode "y" (after (addAlias "x" "y" false) sample_input_dag)
    = (Ok 2, after (addAlias "x" "y" false) sample_input_dag) ∧
    ("y"%string ≠ "x"%string →
       getNode "x" (after (addAlias "x" "y" false) sample_input_dag)
       = (Ok child, after (addAlias "x" "y" false) sample_input_dag)).
Proof.
  refine (proj2 (proj2 (proj2 (addAlias_spec "x" "y" false sample_input_dag (Ok 2) _ _ _)))
            2 eq_refl).
  - apply wf_index, wf_dagb_correct. vm_compute. reflexivity.
  - reflexivity.
Defined.
